(** * tinyblake: BLAKE2b, HMAC-BLAKE2b-512 and PBKDF2 -- shallow embedding

    The embedding follows the layering of the library:

    - [Word], [Mem] 64-bit words, bytes and memory regions
                   (uint64_t, uint8_t, memcpy, memset of the C++ sources);
    - [Endian]     src/internal/endian.h;
    - [Portable]   src/backend/blake2b_portable.cpp;
    - [Blake2b]    src/blake2b.cpp (C API);
    - [SecureZero] src/secure_zero.cpp;
    - [Hmac]       src/hmac.cpp (C API and the C++ hasher);
    - [Pbkdf2]     src/pbkdf2.cpp.

    [Scenario], [StreamSpec] and [CompressSpec] hold what the statements
    compare the code against; [Endian32], [Blake2bCpp], [HmacCpp] and
    [Pbkdf2Cpp] embed the 32-bit loads and stores and the C++ wrappers,
    [KeyedScenario] and [KdfSpec] hold further reference definitions.
    The modules after them hold the proofs:
    [WordFacts], [MemFacts], [EndianFacts], [Blake2bFacts],
    [StreamFacts], [Blake2bClaims], [CounterClaims],
    [ConstantTimeClaims], [Blake2bSuccess], [HmacClaims], [Pbkdf2Claims]
    and [CompressClaims], then [EndianExtras], [RotationExtras],
    [SmallExtras], [Blake2bExtras], [Blake2bCppExtras], [HmacExtras],
    [Pbkdf2Extras], [WrapperExtras] and [EdgeExtras] with further
    properties of the code, and last [ApiBoundaryClaims]: the counter
    and the residual length after each of the three init functions.

    Conventions.  A [uint64_t] is a [Z] in [0, 2^64) with the wrap-around
    written where the C++ code wraps.  A byte in memory is a [Byte.byte].
    A [size_t] that measures a memory region is a [nat].  A pointer argument
    that the code tests against null is an [option]; a non-null pointer to a
    region is the list of the bytes stored there.  The state pointer of
    a call is taken to be non-null: each function tests it first and
    returns -1 with no effect.  A function that writes through a pointer
    returns the new contents next to its [int] result. *)

From Stdlib.Strings Require Import Byte String Ascii.
From Stdlib Require Import ZArith List Lia Bool.
From Equations Require Import Equations.
Import ListNotations.

Local Open Scope Z_scope.

(* ===================================================================== *)
(** ** Words and bytes *)
(* ===================================================================== *)

Module Word.

Definition two64 : Z := 2 ^ 64.

(** Truncation to [uint64_t]. *)
Definition u64 (x : Z) : Z := x mod two64.

Definition in_u64 (x : Z) : Prop := 0 <= x < two64.

(** [a + b] on [uint64_t]. *)
Definition add64 (a b : Z) : Z := u64 (a + b).

(** [x << n] and [x >> n] on [uint64_t]. *)
Definition shl64 (x n : Z) : Z := u64 (Z.shiftl x n).
Definition shr64 (x n : Z) : Z := Z.shiftr x n.

(** Integer promotion of a byte read from memory. *)
Definition Z_of_byte (b : byte) : Z := Z.of_N (Byte.to_N b).

(** [static_cast<uint8_t>(z)]. *)
Definition byte_of_Z (z : Z) : byte :=
  match Byte.of_N (Z.to_N (z mod 256)) with
  | Some b => b
  | None => x00
  end.

(** [a ^ b] on [uint8_t]. *)
Definition byte_xor (a b : byte) : byte :=
  byte_of_Z (Z.lxor (Z_of_byte a) (Z_of_byte b)).

End Word.
Import Word.

(* ===================================================================== *)
(** ** Memory regions *)
(* ===================================================================== *)

Module Mem.

(** [p[i]] for a byte region; a read past the region is undefined in
    C++ and reads as zero here. *)
Definition rd (p : list byte) (i : nat) : byte := nth i p x00.

(** [a[i] = x] for an array held as a list.  An index past the end is
    undefined in C++ and leaves the list as it is here. *)
Fixpoint upd {A : Type} (l : list A) (i : nat) (x : A) : list A :=
  match l, i with
  | [], _ => []
  | _ :: tl, O => x :: tl
  | hd :: tl, S j => hd :: upd tl j x
  end.

(** [std::memcpy(dst + off, src, n)]: the [n] bytes [src[0..n)] replace
    [dst[off..off+n)]. *)
Fixpoint memcpy (dst : list byte) (off : nat) (src : list byte) (n : nat)
  : list byte :=
  match n with
  | O => dst
  | S k => memcpy (upd dst off (rd src 0)) (S off) (tl src) k
  end.

(** [std::memset(dst + off, c, n)]. *)
Fixpoint memset (dst : list byte) (off : nat) (c : byte) (n : nat)
  : list byte :=
  match n with
  | O => dst
  | S k => memset (upd dst off c) (S off) c k
  end.

(** A fresh local array [uint8_t a[n]] after [memset(a, 0, n)]. *)
Definition zeros (n : nat) : list byte := repeat x00 n.

End Mem.
Import Mem.

(* ===================================================================== *)
(** ** src/internal/endian.h *)
(* ===================================================================== *)

Module Endian.

(** Value of a byte string read with the least significant byte first. *)
Fixpoint le_value (bs : list byte) : Z :=
  match bs with
  | [] => 0
  | b :: tl => Z_of_byte b + 256 * le_value tl
  end.

(** [std::memcpy(&v, src, 8)] into a [uint64_t]: the host's byte order
    decides which byte is the least significant one. *)
Definition memcpy_to_u64 (big_endian_host : bool) (src : list byte) : Z :=
  let raw := map (rd src) (seq 0 8) in
  if big_endian_host then le_value (rev raw) else le_value raw.

(** The byte swap compiled when [__BYTE_ORDER__ == __ORDER_BIG_ENDIAN__]. *)
Definition bswap64 (v : Z) : Z :=
  Z.lor (Z.lor (Z.lor (Z.lor (Z.lor (Z.lor (Z.lor
    (shl64 (Z.land v 0x00000000000000FF) 56)
    (shl64 (Z.land v 0x000000000000FF00) 40))
    (shl64 (Z.land v 0x0000000000FF0000) 24))
    (shl64 (Z.land v 0x00000000FF000000) 8))
    (shr64 (Z.land v 0x000000FF00000000) 8))
    (shr64 (Z.land v 0x0000FF0000000000) 24))
    (shr64 (Z.land v 0x00FF000000000000) 40))
    (shr64 (Z.land v 0xFF00000000000000) 56).

(** [load_le64] as compiled for a host of the given byte order. *)
Definition load_le64_on (big_endian_host : bool) (src : list byte) : Z :=
  let v := memcpy_to_u64 big_endian_host src in
  if big_endian_host then bswap64 v else v.

(** [std::memcpy(dst, &v, 8)] from a [uint64_t]. *)
Definition memcpy_from_u64 (big_endian_host : bool) (v : Z) : list byte :=
  let le := map (fun k => byte_of_Z (Z.shiftr v (8 * Z.of_nat k))) (seq 0 8) in
  if big_endian_host then rev le else le.

(** [store_le64] as compiled for a host of the given byte order; the
    result is the 8 bytes written at [dst]. *)
Definition store_le64_on (big_endian_host : bool) (v : Z) : list byte :=
  let v := if big_endian_host then bswap64 v else v in
  memcpy_from_u64 big_endian_host v.

(** The rest of the development is the little-endian build (the [#if]
    branches are not compiled); [EndianFacts.load_le64_host_independent]
    and [EndianFacts.store_le64_host_independent] show that the
    big-endian build computes the same functions. *)
Definition load_le64 (src : list byte) : Z := load_le64_on false src.
Definition store_le64 (v : Z) : list byte := store_le64_on false v.

End Endian.
Import Endian.

(* ===================================================================== *)
(** ** src/backend/blake2b_portable.cpp *)
(* ===================================================================== *)

(** [blake2b_compress_fn] of blake2b_compress.h:
    [void (uint64_t state[8], const uint8_t block[128], uint64_t t0,
    uint64_t t1, bool last)], the new [state] being the result. *)
Definition blake2b_compress_fn : Type :=
  list Z -> list byte -> Z -> Z -> bool -> list Z.

Module Portable.

Definition IV : list Z :=
  [ 0x6A09E667F3BCC908; 0xBB67AE8584CAA73B;
    0x3C6EF372FE94F82B; 0xA54FF53A5F1D36F1;
    0x510E527FADE682D1; 0x9B05688C2B3E6C1F;
    0x1F83D9ABFB41BD6B; 0x5BE0CD19137E2179 ].

Definition SIGMA : list (list nat) :=
  [ [0; 1; 2; 3; 4; 5; 6; 7; 8; 9; 10; 11; 12; 13; 14; 15];
    [14; 10; 4; 8; 9; 15; 13; 6; 1; 12; 0; 2; 11; 7; 5; 3];
    [11; 8; 12; 0; 5; 2; 15; 13; 10; 14; 3; 6; 7; 1; 9; 4];
    [7; 9; 3; 1; 13; 12; 11; 14; 2; 6; 5; 10; 4; 0; 15; 8];
    [9; 0; 5; 7; 2; 4; 10; 15; 14; 1; 11; 12; 6; 8; 3; 13];
    [2; 12; 6; 10; 0; 11; 8; 3; 4; 13; 7; 5; 15; 14; 1; 9];
    [12; 5; 1; 15; 14; 13; 4; 10; 0; 7; 6; 3; 9; 2; 8; 11];
    [13; 11; 7; 14; 12; 1; 3; 9; 5; 0; 15; 4; 8; 6; 2; 10];
    [6; 15; 14; 9; 11; 3; 0; 8; 12; 2; 13; 7; 1; 4; 10; 5];
    [10; 2; 8; 4; 7; 6; 1; 5; 15; 11; 9; 14; 3; 12; 13; 0];
    [0; 1; 2; 3; 4; 5; 6; 7; 8; 9; 10; 11; 12; 13; 14; 15];
    [14; 10; 4; 8; 9; 15; 13; 6; 1; 12; 0; 2; 11; 7; 5; 3] ]%nat.

(** [SIGMA[r][k]]. *)
Definition sigma (r k : nat) : nat := nth k (nth r SIGMA []) O.

(** [a[i]] for a word array. *)
Definition w (a : list Z) (i : nat) : Z := nth i a 0.

Definition rotr64 (x : Z) (n : Z) : Z :=
  Z.lor (shr64 x n) (shl64 x (64 - n)).

(** The macro [G(r, i, a, b, c, d)]; [a b c d] are the indices into [v]
    that the macro's arguments [v[..]] name, and the eight assignments
    are made in the macro's order. *)
Definition G (r i a b c d : nat) (m v : list Z) : list Z :=
  let v := upd v a (add64 (add64 (w v a) (w v b)) (w m (sigma r (2 * i + 0)%nat))) in
  let v := upd v d (rotr64 (Z.lxor (w v d) (w v a)) 32) in
  let v := upd v c (add64 (w v c) (w v d)) in
  let v := upd v b (rotr64 (Z.lxor (w v b) (w v c)) 24) in
  let v := upd v a (add64 (add64 (w v a) (w v b)) (w m (sigma r (2 * i + 1)%nat))) in
  let v := upd v d (rotr64 (Z.lxor (w v d) (w v a)) 16) in
  let v := upd v c (add64 (w v c) (w v d)) in
  let v := upd v b (rotr64 (Z.lxor (w v b) (w v c)) 63) in
  v.

(** The macro [ROUND(r)]. *)
Definition ROUND (r : nat) (m v : list Z) : list Z :=
  let v := G r 0 0 4 8 12 m v in
  let v := G r 1 1 5 9 13 m v in
  let v := G r 2 2 6 10 14 m v in
  let v := G r 3 3 7 11 15 m v in
  let v := G r 4 0 5 10 15 m v in
  let v := G r 5 1 6 11 12 m v in
  let v := G r 6 2 7 8 13 m v in
  let v := G r 7 3 4 9 14 m v in
  v.

Definition blake2b_compress_portable : blake2b_compress_fn :=
  fun state block t0 t1 last =>
  let m := map (fun i => load_le64 (skipn (i * 8)%nat block)) (seq 0 16) in
  let v := map (fun i => w state i) (seq 0 8)
           ++ [ w IV 0; w IV 1; w IV 2; w IV 3;
                Z.lxor (w IV 4) t0;
                Z.lxor (w IV 5) t1;
                (if last then Z.lxor (w IV 6) 0xFFFFFFFFFFFFFFFF else w IV 6);
                w IV 7 ] in
  let v := ROUND 0 m v in
  let v := ROUND 1 m v in
  let v := ROUND 2 m v in
  let v := ROUND 3 m v in
  let v := ROUND 4 m v in
  let v := ROUND 5 m v in
  let v := ROUND 6 m v in
  let v := ROUND 7 m v in
  let v := ROUND 8 m v in
  let v := ROUND 9 m v in
  let v := ROUND 10 m v in
  let v := ROUND 11 m v in
  fold_left
    (fun st i => upd st i (Z.lxor (w st i) (Z.lxor (w v i) (w v (i + 8)%nat))))
    (seq 0 8) state.

End Portable.
Import Portable.

(* ===================================================================== *)
(** ** src/blake2b.cpp and include/tinyblake/blake2b.h *)
(* ===================================================================== *)

Module Blake2b.

(** The file's own copy of the BLAKE2b IV. *)
Definition IV : list Z :=
  [ 0x6A09E667F3BCC908; 0xBB67AE8584CAA73B;
    0x3C6EF372FE94F82B; 0xA54FF53A5F1D36F1;
    0x510E527FADE682D1; 0x9B05688C2B3E6C1F;
    0x1F83D9ABFB41BD6B; 0x5BE0CD19137E2179 ].

(** [struct tinyblake_blake2b_state]; [t0] and [t1] are [t[0]] and
    [t[1]]. *)
Record tinyblake_blake2b_state : Type := mk_state {
  h : list Z;
  t0 : Z;
  t1 : Z;
  buf : list byte;
  buflen : nat;
  outlen : nat
}.

Definition set_h (St : tinyblake_blake2b_state) (x : list Z) :=
  mk_state x (t0 St) (t1 St) (buf St) (buflen St) (outlen St).
Definition set_t0 (St : tinyblake_blake2b_state) (x : Z) :=
  mk_state (h St) x (t1 St) (buf St) (buflen St) (outlen St).
Definition set_t1 (St : tinyblake_blake2b_state) (x : Z) :=
  mk_state (h St) (t0 St) x (buf St) (buflen St) (outlen St).
Definition set_buf (St : tinyblake_blake2b_state) (x : list byte) :=
  mk_state (h St) (t0 St) (t1 St) x (buflen St) (outlen St).
Definition set_buflen (St : tinyblake_blake2b_state) (x : nat) :=
  mk_state (h St) (t0 St) (t1 St) (buf St) x (outlen St).
Definition set_outlen (St : tinyblake_blake2b_state) (x : nat) :=
  mk_state (h St) (t0 St) (t1 St) (buf St) (buflen St) x.

(** The state after [std::memset] of the whole struct in init or
    [tinyblake_secure_zero] of the whole struct in final. *)
Definition zero_state : tinyblake_blake2b_state :=
  mk_state (repeat 0 8) 0 0 (zeros 128) 0 0.

(** [static_cast<uint8_t>(n)] for a [size_t]. *)
Definition byte_of_nat (n : nat) : byte := byte_of_Z (Z.of_nat n).

(** A [uint8_t] used as a length. *)
Definition nat_of_byte (b : byte) : nat := Z.to_nat (Z_of_byte b).

Definition build_default_param (outlen_arg keylen : byte) : list byte :=
  let param := zeros 64 in
  let param := upd param 0 outlen_arg in
  let param := upd param 1 keylen in
  let param := upd param 2 x01 in
  let param := upd param 3 x01 in
  param.

Definition init_from_param (St : tinyblake_blake2b_state) (param : list byte)
  : Z * tinyblake_blake2b_state :=
  if (Z_of_byte (rd param 0) =? 0) || (Z_of_byte (rd param 0) >? 64)
  then (-1, St)
  else
    let St := zero_state in
    let St := set_outlen St (nat_of_byte (rd param 0)) in
    let St := fold_left
               (fun St i =>
                  set_h St (upd (h St) i
                    (Z.lxor (w IV i) (load_le64 (skipn (i * 8)%nat param)))))
               (seq 0 8) St in
    (0, St).

(** The idiom [state->t[0] += inc; if (state->t[0] < inc) state->t[1]++;]
    that update writes twice with [inc = 128] and final once with
    [inc = state->buflen]. *)
Definition increment_counter (St : tinyblake_blake2b_state) (inc : Z)
  : tinyblake_blake2b_state :=
  let St := set_t0 St (add64 (t0 St) inc) in
  if t0 St <? inc then set_t1 St (add64 (t1 St) 1) else St.

Section Dispatch.

(** The backend that [get_compress()] returns. *)
Variable get_compress : blake2b_compress_fn.

(** [block] is a [const uint8_t[128]]: the backend sees the 128 bytes
    at the pointer. *)
Definition compress_block (St : tinyblake_blake2b_state)
           (block : list byte) (last : bool) : tinyblake_blake2b_state :=
  set_h St (get_compress (h St) (firstn 128 block) (t0 St) (t1 St) last).

Definition tinyblake_blake2b_init (state : tinyblake_blake2b_state)
           (outlen_arg : nat) : Z * tinyblake_blake2b_state :=
  if (outlen_arg =? 0)%nat || (64 <? outlen_arg)%nat then (-1, state)
  else
    let param := build_default_param (byte_of_nat outlen_arg) x00 in
    init_from_param state param.

Definition tinyblake_blake2b_init_param (state : tinyblake_blake2b_state)
           (param : option (list byte)) : Z * tinyblake_blake2b_state :=
  match param with
  | None => (-1, state)
  | Some param => init_from_param state param
  end.

(** The loop [while (inlen > 128) { ... }] of update, on the state, the
    read pointer [pin] and the remaining length. *)
Equations update_loop (state : tinyblake_blake2b_state)
          (pin : list byte) (inlen : nat)
  : tinyblake_blake2b_state * list byte * nat by wf inlen lt :=
  update_loop state pin inlen with le_lt_dec inlen 128 => {
    | left _ => (state, pin, inlen);
    | right _ =>
        let state := increment_counter state 128 in
        let state := compress_block state pin false in
        update_loop state (skipn 128 pin) (inlen - 128)%nat }.
Next Obligation. lia. Qed.

(** The part of update that follows the buffer-fill branch: the loop over
    full blocks and the copy of what remains into the buffer. *)
Definition update_tail (state : tinyblake_blake2b_state)
           (pin : list byte) (inlen : nat) : Z * tinyblake_blake2b_state :=
  let '(state, pin, inlen) := update_loop state pin inlen in
  if (0 <? inlen)%nat
  then
    let state := set_buf state (memcpy (buf state) 0 pin inlen) in
    (0, set_buflen state inlen)
  else (0, state).

Definition tinyblake_blake2b_update (state : tinyblake_blake2b_state)
           (inp : option (list byte)) (inlen : nat)
  : Z * tinyblake_blake2b_state :=
  if (128 <? buflen state)%nat then (-1, state)
  else if (inlen =? 0)%nat then (0, state)
  else match inp with
  | None => (-1, state)
  | Some pin =>
      if (0 <? buflen state)%nat
      then
        let left := (128 - buflen state)%nat in
        if (left <? inlen)%nat
        then
          let state :=
            set_buf state (memcpy (buf state) (buflen state) pin left) in
          let state := increment_counter state 128 in
          let state := compress_block state (buf state) false in
          let state := set_buflen state 0 in
          update_tail state (skipn left pin) (inlen - left)%nat
        else
          let state :=
            set_buf state (memcpy (buf state) (buflen state) pin inlen) in
          (0, set_buflen state (buflen state + inlen)%nat)
      else update_tail state pin inlen
  end.

Definition tinyblake_blake2b_init_key (state : tinyblake_blake2b_state)
           (outlen_arg : nat) (key : option (list byte)) (keylen : nat)
  : Z * tinyblake_blake2b_state :=
  if (outlen_arg =? 0)%nat || (64 <? outlen_arg)%nat then (-1, state)
  else match key with
  | None => (-1, state)
  | Some key =>
      if (keylen =? 0)%nat || (64 <? keylen)%nat then (-1, state)
      else
        let param := build_default_param (byte_of_nat outlen_arg)
                                         (byte_of_nat keylen) in
        let '(rc, state') := init_from_param state param in
        if negb (rc =? 0) then (-1, state')
        else
          let block := zeros 128 in
          let block := memcpy block 0 key keylen in
          let '(_, state') :=
            tinyblake_blake2b_update state' (Some block) 128 in
          (0, state')
  end.

Definition tinyblake_blake2b_final (state : tinyblake_blake2b_state)
           (out : option (list byte)) (outlen_arg : nat)
  : Z * tinyblake_blake2b_state * option (list byte) :=
  match out with
  | None => (-1, state, out)
  | Some o =>
      if (outlen_arg <? outlen state)%nat then (-1, state, out)
      else
        let state := increment_counter state (Z.of_nat (buflen state)) in
        let state :=
          if (buflen state <? 128)%nat
          then set_buf state (memset (buf state) (buflen state) x00
                                     (128 - buflen state))
          else state in
        let state := compress_block state (buf state) true in
        let buffer :=
          fold_left
            (fun b i => memcpy b (i * 8) (store_le64 (w (h state) i)) 8)
            (seq 0 8) (zeros 64) in
        let o := memcpy o 0 buffer (outlen state) in
        (0, zero_state, Some o)
  end.

(** The one-shot entry point.  The local [St] is uninitialised until
    init overwrites all of it; it is never read before. *)
Definition tinyblake_blake2b (out : option (list byte)) (outlen_arg : nat)
           (inp : option (list byte)) (inlen : nat)
           (key : option (list byte)) (keylen : nat)
  : Z * option (list byte) :=
  let St := zero_state in
  let '(rc, St) :=
    if (0 <? keylen)%nat
    then tinyblake_blake2b_init_key St outlen_arg key keylen
    else tinyblake_blake2b_init St outlen_arg in
  if negb (rc =? 0) then (rc, out)
  else
    let '(rc, St) := tinyblake_blake2b_update St inp inlen in
    if negb (rc =? 0) then (rc, out)
    else
      let '(rc, _, out) := tinyblake_blake2b_final St out outlen_arg in
      (rc, out).

End Dispatch.

End Blake2b.
Import Blake2b.

(* ===================================================================== *)
(** ** src/secure_zero.cpp and include/tinyblake/common.h *)
(* ===================================================================== *)

Module SecureZero.

(** [a | b] on [uint8_t]. *)
Definition byte_or (a b : byte) : byte :=
  byte_of_Z (Z.lor (Z_of_byte a) (Z_of_byte b)).

(** The region after [tinyblake_secure_zero(ptr, len)]. *)
Definition tinyblake_secure_zero (ptr : option (list byte)) (len : nat)
  : option (list byte) :=
  match ptr with
  | None => None
  | Some p => if (len =? 0)%nat then Some p else Some (memset p 0 x00 len)
  end.

(** The accumulator [diff] after the loop over [i = 0 .. len-1]. *)
Definition accumulate_diff (pa pb : list byte) (len : nat) : byte :=
  fold_left (fun diff i => byte_or diff (byte_xor (rd pa i) (rd pb i)))
            (seq 0 len) x00.

Definition tinyblake_constant_time_eq (a b : list byte) (len : nat) : Z :=
  let diff := accumulate_diff a b len in
  if Z_of_byte diff =? 0 then 1 else 0.

End SecureZero.
Import SecureZero.

(* ===================================================================== *)
(** ** src/hmac.cpp and include/tinyblake/hmac.h *)
(* ===================================================================== *)

Module Hmac.

Record tinyblake_hmac_state : Type := mk_hmac {
  inner : tinyblake_blake2b_state;
  outer : tinyblake_blake2b_state
}.

(** The state after [tinyblake_secure_zero] of the whole struct. *)
Definition zero_hmac_state : tinyblake_hmac_state :=
  mk_hmac zero_state zero_state.

Definition HMAC_BLOCK : nat := 128.

(** What a C++ member function does: return or throw. *)
Inductive outcome (A : Type) : Type :=
| Returns (a : A)
| Throws (what : string).
Arguments Returns {A} a.
Arguments Throws {A} what.

(** [class hasher] of namespace [tinyblake::hmac]. *)
Record hasher : Type := mk_hasher {
  state_ : tinyblake_hmac_state;
  key_pad_ : list byte
}.

Section Dispatch.

Variable get_compress : blake2b_compress_fn.

(** [key] is the non-null pointer that [tinyblake_hmac_init] has
    checked; [ipad] and [opad] are the caller's arrays. *)
Definition derive_pads (key : list byte) (keylen : nat)
           (ipad opad : list byte) : Z * list byte * list byte :=
  let keybuf := zeros 128 in
  let hashed :=
    if (HMAC_BLOCK <? keylen)%nat
    then
      let '(rc, kb) := tinyblake_blake2b get_compress (Some keybuf) 64 (Some key) keylen None 0 in
      (rc, match kb with Some kb => kb | None => keybuf end)
    else if (0 <? keylen)%nat
    then (0, memcpy keybuf 0 key keylen)
    else (0, keybuf) in
  let '(rc, keybuf) := hashed in
  if negb (rc =? 0) then (-1, ipad, opad)
  else
    let '(ipad, opad) :=
      fold_left
        (fun '(ip, op) i =>
           (upd ip i (byte_xor (rd keybuf i) x36),
            upd op i (byte_xor (rd keybuf i) x5c)))
        (seq 0 HMAC_BLOCK) (ipad, opad) in
    (0, ipad, opad).

(** [init(S, 64) != 0 || update(S, pad, 128) != 0], with the state
    that the two calls leave. *)
Definition init_and_absorb (St : tinyblake_blake2b_state)
           (pad : list byte) : bool * tinyblake_blake2b_state :=
  let '(rc, St) := tinyblake_blake2b_init St 64 in
  if negb (rc =? 0) then (true, St)
  else
    let '(rc, St) := tinyblake_blake2b_update get_compress St (Some pad) 128 in
    (negb (rc =? 0), St).

Definition tinyblake_hmac_init (state : tinyblake_hmac_state)
           (key : option (list byte)) (keylen : nat)
  : Z * tinyblake_hmac_state :=
  match key with
  | None => (-1, state)
  | Some k =>
      if (keylen =? 0)%nat then (-1, state)
      else
        let '(rc, ipad, opad) :=
          derive_pads k keylen (zeros 128) (zeros 128) in
        if negb (rc =? 0) then (-1, state)
        else
          let '(failed, inner') := init_and_absorb (inner state) ipad in
          if failed then (-1, zero_hmac_state)
          else
            let state := mk_hmac inner' (outer state) in
            let '(failed, outer') := init_and_absorb (outer state) opad in
            if failed then (-1, zero_hmac_state)
            else (0, mk_hmac (inner state) outer')
  end.

Definition tinyblake_hmac_update (state : tinyblake_hmac_state)
           (inp : option (list byte)) (inlen : nat)
  : Z * tinyblake_hmac_state :=
  let '(rc, inner') := tinyblake_blake2b_update get_compress (inner state) inp inlen in
  (rc, mk_hmac inner' (outer state)).

Definition tinyblake_hmac_final (state : tinyblake_hmac_state)
           (out : option (list byte)) (outlen_arg : nat)
  : Z * tinyblake_hmac_state * option (list byte) :=
  match out with
  | None => (-1, state, out)
  | Some _ =>
      if (outlen_arg <? 64)%nat then (-1, state, out)
      else
        let '(rc, _, inner_hash) :=
          tinyblake_blake2b_final get_compress (inner state) (Some (zeros 64)) 64 in
        if negb (rc =? 0) then (-1, zero_hmac_state, out)
        else
          let '(rc, outer') := tinyblake_blake2b_update get_compress (outer state) inner_hash 64 in
          if negb (rc =? 0) then (-1, zero_hmac_state, out)
          else
            let '(rc, _, out) := tinyblake_blake2b_final get_compress outer' out outlen_arg in
            (rc, zero_hmac_state, out)
  end.

Definition tinyblake_hmac (out : option (list byte)) (outlen_arg : nat)
           (key : option (list byte)) (keylen : nat)
           (inp : option (list byte)) (inlen : nat)
  : Z * option (list byte) :=
  let state := zero_hmac_state in
  let '(rc, state) := tinyblake_hmac_init state key keylen in
  if negb (rc =? 0) then (rc, out)
  else
    let '(rc, state) := tinyblake_hmac_update state inp inlen in
    if negb (rc =? 0) then (rc, out)
    else
      let '(rc, _, out) := tinyblake_hmac_final state out outlen_arg in
      (rc, out).

(** [hasher::hasher(const void *key, size_t keylen)].  The members are
    uninitialised storage when the body starts. *)
Definition hasher_ctor (key : option (list byte)) (keylen : nat)
  : outcome hasher :=
  match key with
  | None => Throws "Hmac: key must be non-null with keylen > 0"
  | Some k =>
      if (keylen =? 0)%nat
      then Throws "Hmac: key must be non-null with keylen > 0"
      else
        let key_pad := zeros 128 in
        let key_pad :=
          if (128 <? keylen)%nat
          then
            match snd (tinyblake_blake2b get_compress (Some key_pad) 64 key keylen None 0) with
            | Some kp => kp
            | None => key_pad
            end
          else memcpy key_pad 0 k keylen in
        let '(rc, st) := tinyblake_hmac_init zero_hmac_state key keylen in
        if negb (rc =? 0) then Throws "Hmac: init failed"
        else Returns (mk_hasher st key_pad)
  end.

(** [hasher::update(const void *data, size_t len)]. *)
Definition hasher_update (this : hasher) (data : option (list byte))
           (len : nat) : outcome hasher :=
  let '(rc, st) := tinyblake_hmac_update (state_ this) data len in
  if negb (rc =? 0) then Throws "Hmac::update failed"
  else Returns (mk_hasher st (key_pad_ this)).

(** [std::vector<uint8_t> hasher::final_()]. *)
Definition hasher_final_ (this : hasher)
  : outcome (hasher * list byte) :=
  let out := zeros 64 in
  let '(rc, st, out') := tinyblake_hmac_final (state_ this) (Some out) 64 in
  if negb (rc =? 0) then Throws "Hmac::final_ failed"
  else Returns (mk_hasher st (key_pad_ this),
                match out' with Some o => o | None => out end).

(** [hasher::reset()]. *)
Definition hasher_reset (this : hasher) : outcome hasher :=
  let '(rc, st) :=
    tinyblake_hmac_init (state_ this) (Some (key_pad_ this)) 128 in
  if negb (rc =? 0) then Throws "Hmac::reset failed"
  else Returns (mk_hasher st (key_pad_ this)).

End Dispatch.

End Hmac.
Import Hmac.

(* ===================================================================== *)
(** ** src/pbkdf2.cpp *)
(* ===================================================================== *)

Module Pbkdf2.

Definition HLEN : nat := 64.

Definition UINT32_MAX : Z := 0xFFFFFFFF.

(** Truncation to [uint32_t]. *)
Definition u32 (x : Z) : Z := x mod 2 ^ 32.

(** The four bytes that [store_be32(dst, v)] writes at [dst]. *)
Definition store_be32 (v : Z) : list byte :=
  [ byte_of_Z (Z.land (Z.shiftr v 24) 0xFF);
    byte_of_Z (Z.land (Z.shiftr v 16) 0xFF);
    byte_of_Z (Z.land (Z.shiftr v 8) 0xFF);
    byte_of_Z (Z.land v 0xFF) ].

(** The contents of a buffer that a callee was given a non-null pointer
    to. *)
Definition contents (fallback : list byte) (p : option (list byte))
  : list byte :=
  match p with Some l => l | None => fallback end.

Section Dispatch.

Variable get_compress : blake2b_compress_fn.

Section Derive.

Variables (password : option (list byte)) (passlen : nat).
Variables (salt : option (list byte)) (saltlen : nat).
Variable rounds : Z.

(** The loop [for (uint32_t j = 1; j < rounds; ++j)] with [n] iterations
    still to run, on the registers [u] and [t]. *)
Fixpoint rounds_loop (n : nat) (u t : list byte) : Z * list byte * list byte :=
  match n with
  | O => (0, u, t)
  | S n' =>
      let '(rc, hmac_j) :=
        tinyblake_hmac_init get_compress zero_hmac_state password passlen in
      if negb (rc =? 0) then (-1, zeros 64, zeros 64)
      else
        let '(rc, hmac_j) :=
          tinyblake_hmac_update get_compress hmac_j (Some u) 64 in
        if negb (rc =? 0) then (-1, zeros 64, zeros 64)
        else
          let '(rc, _, u') :=
            tinyblake_hmac_final get_compress hmac_j (Some u) 64 in
          if negb (rc =? 0) then (-1, zeros 64, zeros 64)
          else
            let u := contents u u' in
            let t :=
              fold_left (fun t k => upd t k (byte_xor (rd t k) (rd u k)))
                        (seq 0 64) t in
            rounds_loop n' u t
  end.

(** One pass of the body of [while (dk_remaining > 0)] up to the copy
    into [dk]: the result code and the register [t]. *)
Definition derive_block (block_idx : Z) : Z * list byte :=
  let u := zeros 64 in
  let t := zeros 64 in
  let '(rc, hmac) :=
    tinyblake_hmac_init get_compress zero_hmac_state password passlen in
  if negb (rc =? 0) then (-1, t)
  else
    let '(rc, hmac) := tinyblake_hmac_update get_compress hmac salt saltlen in
    if negb (rc =? 0) then (-1, t)
    else
      let be_idx := store_be32 block_idx in
      let '(rc, hmac) :=
        tinyblake_hmac_update get_compress hmac (Some be_idx) 4 in
      if negb (rc =? 0) then (-1, t)
      else
        let '(rc, _, u') :=
          tinyblake_hmac_final get_compress hmac (Some u) 64 in
        if negb (rc =? 0) then (-1, t)
        else
          let u := contents u u' in
          let t := memcpy t 0 u 64 in
          let '(rc, _, t) := rounds_loop (Z.to_nat (rounds - 1)) u t in
          (rc, t).

Definition cplen_of (dk_remaining : nat) : nat :=
  if (dk_remaining <? HLEN)%nat then dk_remaining else HLEN.

(** The loop [while (dk_remaining > 0)]; [dk] is the output region and
    [off] the distance the write pointer has advanced in it. *)
Equations pbkdf2_loop (dk : list byte) (off : nat) (dk_remaining : nat)
          (block_idx : Z) : Z * list byte by wf dk_remaining lt :=
  pbkdf2_loop dk off 0 block_idx := (0, dk);
  pbkdf2_loop dk off (S r) block_idx with derive_block block_idx => {
    | (rc, t) with negb (rc =? 0) => {
      | true => (-1, dk);
      | false =>
          pbkdf2_loop (memcpy dk off t (cplen_of (S r)))
                      (off + cplen_of (S r))%nat
                      (S r - cplen_of (S r))%nat
                      (u32 (block_idx + 1)) } }.
Next Obligation.
  unfold cplen_of, HLEN. destruct (Nat.ltb_spec (S r) 64); lia.
Qed.

End Derive.

Definition tinyblake_pbkdf2 (out : option (list byte)) (outlen_arg : nat)
           (password : option (list byte)) (passlen : nat)
           (salt : option (list byte)) (saltlen : nat) (rounds : Z)
  : Z * option (list byte) :=
  match out with
  | None => (-1, out)
  | Some dk =>
      if (outlen_arg =? 0)%nat then (-1, out)
      else if rounds =? 0 then (-1, out)
      else if Z.of_nat outlen_arg >? UINT32_MAX * Z.of_nat HLEN then (-1, out)
      else
        let '(rc, dk) :=
          pbkdf2_loop password passlen salt saltlen rounds dk 0 outlen_arg 1 in
        (rc, Some dk)
  end.

End Dispatch.

End Pbkdf2.
Import Pbkdf2.

(* ===================================================================== *)
(** ** Scenarios and reference definitions used by the statements *)
(* ===================================================================== *)

Module Scenario.

(** Value of a lower-case hexadecimal digit. *)
Definition hex_digit (c : ascii) : Z :=
  let n := Z.of_nat (nat_of_ascii c) in
  if (48 <=? n) && (n <=? 57) then n - 48
  else if (97 <=? n) && (n <=? 102) then n - 87
  else 0.

(** The bytes that a hexadecimal string spells, two digits per byte. *)
Fixpoint bytes_of_hex (s : string) : list byte :=
  match s with
  | String a (String b rest) =>
      byte_of_Z (16 * hex_digit a + hex_digit b) :: bytes_of_hex rest
  | _ => []
  end.

(** The bytes of an ASCII string. *)
Definition ascii_bytes (s : string) : list byte := list_byte_of_string s.

Section Dispatch.

Variable get_compress : blake2b_compress_fn.

(** [tinyblake_blake2b_update] once per chunk, in order, stopping at the
    first call that does not return 0. *)
Fixpoint update_chunks (St : tinyblake_blake2b_state)
         (chunks : list (list byte)) : Z * tinyblake_blake2b_state :=
  match chunks with
  | [] => (0, St)
  | c :: rest =>
      let '(rc, St') :=
        tinyblake_blake2b_update get_compress St (Some c) (length c) in
      if negb (rc =? 0) then (rc, St') else update_chunks St' rest
  end.

(** The streaming sequence: init, one update per chunk, final.  [St] is
    the caller's state object before init. *)
Definition blake2b_stream (St : tinyblake_blake2b_state) (outlen_arg : nat)
           (chunks : list (list byte)) (out : option (list byte))
  : Z * option (list byte) :=
  let '(rc, St) := tinyblake_blake2b_init St outlen_arg in
  if negb (rc =? 0) then (rc, out)
  else
    let '(rc, St) := update_chunks St chunks in
    if negb (rc =? 0) then (rc, out)
    else
      let '(rc, _, out) :=
        tinyblake_blake2b_final get_compress St out outlen_arg in
      (rc, out).

(** Sequencing of member calls: an exception ends the sequence. *)
Definition and_then {A B : Type} (r : outcome A) (k : A -> outcome B)
  : outcome B :=
  match r with
  | Returns a => k a
  | Throws what => Throws what
  end.

(** [hasher::update] once per chunk, in order. *)
Fixpoint hasher_updates (this : hasher) (chunks : list (list byte))
  : outcome hasher :=
  match chunks with
  | [] => Returns this
  | c :: rest =>
      and_then (hasher_update get_compress this (Some c) (length c))
               (fun this => hasher_updates this rest)
  end.

(** The MAC that a hasher obtained by [start] produces for a message
    fed chunk by chunk: updates, then [final_()]. *)
Definition hasher_mac (start : outcome hasher) (chunks : list (list byte))
  : outcome (list byte) :=
  and_then start (fun this =>
  and_then (hasher_updates this chunks) (fun this =>
  and_then (hasher_final_ get_compress this) (fun r =>
  Returns (snd r)))).

End Dispatch.

End Scenario.
Import Scenario.

(** The streaming contract of section 4.5 on the part of a state that the
    digest depends on: the chaining value with the counter, and the bytes
    pending in the residual buffer. *)
Module StreamSpec.

(** Chaining value, T0 and T1. *)
Definition core : Type := (list Z * Z * Z)%type.

Definition core_of (St : tinyblake_blake2b_state) : core :=
  (h St, t0 St, t1 St).

Definition with_core (St : tinyblake_blake2b_state) (c : core)
  : tinyblake_blake2b_state :=
  let '(hh, a, b) := c in mk_state hh a b (buf St) (buflen St) (outlen St).

(** The bytes held in the residual buffer. *)
Definition pending (St : tinyblake_blake2b_state) : list byte :=
  firstn (buflen St) (buf St).

(** The residual buffer is the struct's 128-byte array and its length
    field is within it. *)
Definition well_formed (St : tinyblake_blake2b_state) : Prop :=
  length (buf St) = 128%nat /\ (buflen St <= 128)%nat.

(** The 128-bit counter value T1 * 2^64 + T0. *)
Definition counter_value (St : tinyblake_blake2b_state) : Z :=
  t1 St * two64 + t0 St.

(** The residual bytes zero-padded to a block, as final compresses them. *)
Definition final_block (St : tinyblake_blake2b_state) : list byte :=
  pending St ++ repeat x00 (128 - buflen St).

(** The state that a successful [tinyblake_blake2b_init] leaves. *)
Definition fresh_state (n : nat) : tinyblake_blake2b_state :=
  snd (tinyblake_blake2b_init zero_state n).

(** T1 * 2^64 + T0 of a chaining value with its counter. *)
Definition core_value (c : core) : Z := snd c * two64 + snd (fst c).

(** Both counter words are 64-bit values. *)
Definition core_in_range (c : core) : Prop :=
  in_u64 (snd (fst c)) /\ in_u64 (snd c).

(** The 64-byte little-endian encoding of a chaining value. *)
Definition encode_h (hh : list Z) : list byte :=
  fold_left (fun b i => memcpy b (i * 8) (store_le64 (w hh i)) 8)
            (seq 0 8) (zeros 64).

Section Dispatch.

Variable get_compress : blake2b_compress_fn.

(** "Advance T by 128 and compress with last_flag = false": one block
    taken from the front of [block]. *)
Definition absorb_block (c : core) (block : list byte) : core :=
  let '(hh, a, b) := c in
  let a' := add64 a 128 in
  let b' := if a' <? 128 then add64 b 1 else b in
  (get_compress hh (firstn 128 block) a' b' false, a', b').

#[local] Obligation Tactic := idtac.

(** "While more than 128 bytes remain, advance T by 128 and compress the
    next block": the chaining value and counter after the pending bytes
    [data], and the 0..128 bytes that stay pending. *)
Equations absorb (c : core) (data : list byte) : core * list byte
  by wf (length data) lt :=
  absorb c data with le_lt_dec (length data) 128 => {
    | left _ => (c, data);
    | right _ => absorb (absorb_block c data) (skipn 128 data) }.
Next Obligation. intros. rewrite length_skipn. lia. Qed.

End Dispatch.

(** A backend that keeps no hash but a tally: word 0 of its chaining
    value grows by the number of block bytes it is handed. *)
Definition compress_tally : blake2b_compress_fn :=
  fun state block _ _ _ => [w state 0 + Z.of_nat (length block)].

End StreamSpec.
Import StreamSpec.

(** Vocabulary for the statements about HMAC. *)
Module HmacSpec.

(** The two pads that the loop of [derive_pads] writes from a key
    buffer. *)
Definition pads_from (keybuf ipad opad : list byte) : list byte * list byte :=
  fold_left
    (fun '(ip, op) i =>
       (upd ip i (byte_xor (rd keybuf i) x36),
        upd op i (byte_xor (rd keybuf i) x5c)))
    (seq 0 HMAC_BLOCK) (ipad, opad).

Section Dispatch.

Variable get_compress : blake2b_compress_fn.

(** The 128-byte block that the hasher keeps in [key_pad_]. *)
Definition key_block (key : list byte) (keylen : nat) : list byte :=
  if (128 <? keylen)%nat
  then
    match snd (tinyblake_blake2b get_compress (Some (zeros 128)) 64
                 (Some key) keylen None 0) with
    | Some kp => kp
    | None => zeros 128
    end
  else memcpy (zeros 128) 0 key keylen.

(** The state after init(64) and the absorption of one pad. *)
Definition absorbed (pad : list byte) : tinyblake_blake2b_state :=
  snd (tinyblake_blake2b_update get_compress (fresh_state 64) (Some pad) 128).

(** The inner and outer states are usable: residual lengths in range and
    both configured for 64-byte digests. *)
Definition hmac_ready (st : tinyblake_hmac_state) : Prop :=
  (buflen (inner st) <= 128)%nat /\ outlen (inner st) = 64%nat /\
  (buflen (outer st) <= 128)%nat /\ outlen (outer st) = 64%nat.

End Dispatch.

End HmacSpec.
Import HmacSpec.

(** Vocabulary for the statements about endian.h. *)
Module EndianSpec.

(** The byte of [v] at byte position [k]. *)
Definition byte_at (v : Z) (k : Z) : Z := (v / 2 ^ (8 * k)) mod 256.

End EndianSpec.
Import EndianSpec.

(** The compression function as section 4.3 of the specification words
    it, written without reference to the C++ code: little-endian message
    words, the working vector, twelve rounds of G over columns and
    diagonals with the ten-row SIGMA taken modulo 10, and the final
    feed-forward.  Words are integers in [0, 2^64); addition is modulo
    2^64 and [rotr] is the rotation of a 64-bit word. *)
Module CompressSpec.

(** SIGMA: the ten distinct rows of RFC 7693, section 2.7. *)
Definition SIGMA10 : list (list nat) :=
  [ [0; 1; 2; 3; 4; 5; 6; 7; 8; 9; 10; 11; 12; 13; 14; 15];
    [14; 10; 4; 8; 9; 15; 13; 6; 1; 12; 0; 2; 11; 7; 5; 3];
    [11; 8; 12; 0; 5; 2; 15; 13; 10; 14; 3; 6; 7; 1; 9; 4];
    [7; 9; 3; 1; 13; 12; 11; 14; 2; 6; 5; 10; 4; 0; 15; 8];
    [9; 0; 5; 7; 2; 4; 10; 15; 14; 1; 11; 12; 6; 8; 3; 13];
    [2; 12; 6; 10; 0; 11; 8; 3; 4; 13; 7; 5; 15; 14; 1; 9];
    [12; 5; 1; 15; 14; 13; 4; 10; 0; 7; 6; 3; 9; 2; 8; 11];
    [13; 11; 7; 14; 12; 1; 3; 9; 5; 0; 15; 4; 8; 6; 2; 10];
    [6; 15; 14; 9; 11; 3; 0; 8; 12; 2; 13; 7; 1; 4; 10; 5];
    [10; 2; 8; 4; 7; 6; 1; 5; 15; 11; 9; 14; 3; 12; 13; 0] ]%nat.

(** The IV of section 4.3. *)
Definition IV_spec : list Z :=
  [ 0x6A09E667F3BCC908; 0xBB67AE8584CAA73B; 0x3C6EF372FE94F82B;
    0xA54FF53A5F1D36F1; 0x510E527FADE682D1; 0x9B05688C2B3E6C1F;
    0x1F83D9ABFB41BD6B; 0x5BE0CD19137E2179 ].

(** Addition modulo 2^64. *)
Definition plus (a b : Z) : Z := (a + b) mod 2 ^ 64.

(** Rotation of a 64-bit word to the right by [n] bits: the low [n]
    bits move to the top. *)
Definition rotr (x n : Z) : Z := x / 2 ^ n + (x mod 2 ^ n) * 2 ^ (64 - n).

(** Bitwise complement of a 64-bit word. *)
Definition complement (x : Z) : Z := 2 ^ 64 - 1 - x.

(** m[i]: the i-th little-endian 64-bit word of the block. *)
Definition message_word (block : list byte) (i : nat) : Z :=
  fold_right Z.add 0
    (map (fun j => Z_of_byte (nth (8 * i + j) block x00) * 2 ^ (8 * Z.of_nat j))
         (seq 0 8)).

(** The mixing function G(a, b, c, d, x, y). *)
Definition G_spec (a b c d x y : Z) : Z * Z * Z * Z :=
  let a := plus (plus a b) x in
  let d := rotr (Z.lxor d a) 32 in
  let c := plus c d in
  let b := rotr (Z.lxor b c) 24 in
  let a := plus (plus a b) y in
  let d := rotr (Z.lxor d a) 16 in
  let c := plus c d in
  let b := rotr (Z.lxor b c) 63 in
  (a, b, c, d).

(** The positions that G mixes: four columns, then four diagonals. *)
Definition columns : list (nat * nat * nat * nat) :=
  [ (0, 4, 8, 12); (1, 5, 9, 13); (2, 6, 10, 14); (3, 7, 11, 15) ]%nat.
Definition diagonals : list (nat * nat * nat * nat) :=
  [ (0, 5, 10, 15); (1, 6, 11, 12); (2, 7, 8, 13); (3, 4, 9, 14) ]%nat.

(** G applied to four positions of the working vector. *)
Definition mix (v : list Z) (pos : nat * nat * nat * nat) (x y : Z) : list Z :=
  let '(ia, ib, ic, id) := pos in
  let '(a, b, c, d) :=
    G_spec (nth ia v 0) (nth ib v 0) (nth ic v 0) (nth id v 0) x y in
  upd (upd (upd (upd v ia a) ib b) ic c) id d.

(** One round: the i-th application of G takes the message words
    SIGMA[round mod 10][2i] and SIGMA[round mod 10][2i+1]. *)
Definition round_spec (m : list Z) (v : list Z) (r : nat) : list Z :=
  let s := nth (r mod 10) SIGMA10 [] in
  fold_left
    (fun v '(i, pos) =>
       mix v pos (nth (nth (2 * i) s 0%nat) m 0)
                 (nth (nth (2 * i + 1) s 0%nat) m 0))
    (combine (seq 0 8) (columns ++ diagonals)) v.

Definition compress_spec (H : list Z) (block : list byte) (t0 t1 : Z)
           (last_flag : bool) : list Z :=
  let m := map (message_word block) (seq 0 16) in
  let v := H ++ firstn 4 IV_spec
             ++ [ Z.lxor (nth 4 IV_spec 0) t0;
                  Z.lxor (nth 5 IV_spec 0) t1;
                  (if last_flag then complement (nth 6 IV_spec 0)
                   else nth 6 IV_spec 0);
                  nth 7 IV_spec 0 ] in
  let v := fold_left (round_spec m) (seq 0 12) v in
  map (fun i => Z.lxor (Z.lxor (nth i H 0) (nth i v 0)) (nth (i + 8) v 0))
      (seq 0 8).

End CompressSpec.
Import CompressSpec.

(* ===================================================================== *)
(** ** src/internal/endian.h: the 32-bit loads and stores *)
(* ===================================================================== *)

Module Endian32.

(** [x << n] and [x >> n] on [uint32_t]. *)
Definition shl32 (x n : Z) : Z := u32 (Z.shiftl x n).
Definition shr32 (x n : Z) : Z := Z.shiftr x n.

(** [std::memcpy(&v, src, 4)] into a [uint32_t]. *)
Definition memcpy_to_u32 (big_endian_host : bool) (src : list byte) : Z :=
  let raw := map (rd src) (seq 0 4) in
  if big_endian_host then le_value (rev raw) else le_value raw.

(** The byte swap compiled when [__BYTE_ORDER__ == __ORDER_BIG_ENDIAN__]. *)
Definition bswap32 (v : Z) : Z :=
  Z.lor (Z.lor (Z.lor
    (shl32 (Z.land v 0x000000FF) 24)
    (shl32 (Z.land v 0x0000FF00) 8))
    (shr32 (Z.land v 0x00FF0000) 8))
    (shr32 (Z.land v 0xFF000000) 24).

(** [load_le32] as compiled for a host of the given byte order. *)
Definition load_le32_on (big_endian_host : bool) (src : list byte) : Z :=
  let v := memcpy_to_u32 big_endian_host src in
  if big_endian_host then bswap32 v else v.

(** [std::memcpy(dst, &v, 4)] from a [uint32_t]. *)
Definition memcpy_from_u32 (big_endian_host : bool) (v : Z) : list byte :=
  let le := map (fun k => byte_of_Z (Z.shiftr v (8 * Z.of_nat k))) (seq 0 4) in
  if big_endian_host then rev le else le.

(** [store_le32] as compiled for a host of the given byte order; the
    result is the 4 bytes written at [dst]. *)
Definition store_le32_on (big_endian_host : bool) (v : Z) : list byte :=
  let v := if big_endian_host then bswap32 v else v in
  memcpy_from_u32 big_endian_host v.

Definition load_le32 (src : list byte) : Z := load_le32_on false src.
Definition store_le32 (v : Z) : list byte := store_le32_on false v.

End Endian32.

(* ===================================================================== *)
(** ** The C++ wrappers of src/blake2b.cpp, src/hmac.cpp, src/pbkdf2.cpp *)
(* ===================================================================== *)

(** [v.data()] of a [std::vector<uint8_t>].  A vector with elements
    gives the pointer to them; for a vector without elements the
    standard library may return the null pointer or not. *)
Definition vector_data (empty_data_is_null : bool) (v : list byte)
  : option (list byte) :=
  match v with
  | [] => if empty_data_is_null then None else Some []
  | _ :: _ => Some v
  end.

(** Namespace [tinyblake::blake2b]. *)
Module Blake2bCpp.

(** [class hasher]. *)
Record hasher : Type := mk_hasher {
  state_ : tinyblake_blake2b_state;
  param_ : list byte;
  keyed_ : bool;
  key_block_ : list byte
}.

Definition set_state_ (this : hasher) (st : tinyblake_blake2b_state) : hasher :=
  mk_hasher st (param_ this) (keyed_ this) (key_block_ this).

Section Dispatch.

Variable get_compress : blake2b_compress_fn.

Variable empty_data_is_null : bool.

(** [hasher::hasher(size_t outlen)].  The member [state_] is
    uninitialised storage that [init_from_param] overwrites. *)
Definition hasher_ctor (outlen_arg : nat) : outcome hasher :=
  if (outlen_arg =? 0)%nat || (64 <? outlen_arg)%nat
  then Throws "Blake2b: outlen must be 1..64"
  else
    let key_block := zeros 128 in
    let param := build_default_param (byte_of_nat outlen_arg) x00 in
    let '(rc, st) := init_from_param zero_state param in
    if negb (rc =? 0) then Throws "Blake2b: init_from_param failed"
    else Returns (mk_hasher st param false key_block).

(** [hasher::hasher(const void *key, size_t keylen, size_t outlen)]. *)
Definition hasher_ctor_key (key : option (list byte)) (keylen : nat)
           (outlen_arg : nat) : outcome hasher :=
  if (outlen_arg =? 0)%nat || (64 <? outlen_arg)%nat
  then Throws "Blake2b: outlen must be 1..64"
  else match key with
  | None => Throws "Blake2b: key must be non-null with keylen 1..64"
  | Some k =>
      if (keylen =? 0)%nat || (64 <? keylen)%nat
      then Throws "Blake2b: key must be non-null with keylen 1..64"
      else
        let key_block := memcpy (zeros 128) 0 k keylen in
        let param := build_default_param (byte_of_nat outlen_arg)
                                         (byte_of_nat keylen) in
        let '(rc, st) := init_from_param zero_state param in
        if negb (rc =? 0) then Throws "Blake2b: init_from_param failed"
        else
          let '(rc, st) :=
            tinyblake_blake2b_update get_compress st (Some key_block) 128 in
          if negb (rc =? 0) then Throws "Blake2b: key block update failed"
          else Returns (mk_hasher st param true key_block)
  end.

(** [hasher::hasher(const uint8_t param[64])]. *)
Definition hasher_ctor_param (param : option (list byte)) : outcome hasher :=
  match param with
  | None => Throws "Blake2b: param must be non-null"
  | Some p =>
      let key_block := zeros 128 in
      let param := memcpy (zeros 64) 0 p 64 in
      let '(rc, st) := init_from_param zero_state param in
      if negb (rc =? 0)
      then Throws "Blake2b: invalid parameter block (outlen must be 1..64)"
      else Returns (mk_hasher st param false key_block)
  end.

(** [hasher::update(const void *data, size_t len)]. *)
Definition hasher_update (this : hasher) (data : option (list byte))
           (len : nat) : outcome hasher :=
  let '(rc, st) := tinyblake_blake2b_update get_compress (state_ this) data len in
  if negb (rc =? 0) then Throws "Blake2b::update failed"
  else Returns (set_state_ this st).

(** [std::vector<uint8_t> hasher::final_()]. *)
Definition hasher_final_ (this : hasher) : outcome (hasher * list byte) :=
  let out := zeros (outlen (state_ this)) in
  let '(rc, st, out') :=
    tinyblake_blake2b_final get_compress (state_ this)
      (vector_data empty_data_is_null out) (length out) in
  if negb (rc =? 0) then Throws "Blake2b::final_ failed"
  else Returns (set_state_ this st, contents out out').

(** [void hasher::final_(void *out, size_t outlen)]. *)
Definition hasher_final_into (this : hasher) (out : option (list byte))
           (outlen_arg : nat) : outcome (hasher * option (list byte)) :=
  let '(rc, st, out') :=
    tinyblake_blake2b_final get_compress (state_ this) out outlen_arg in
  if negb (rc =? 0) then Throws "Blake2b::final_ failed"
  else Returns (set_state_ this st, out').

(** [hasher::reset()]. *)
Definition hasher_reset (this : hasher) : outcome hasher :=
  let '(rc, st) := init_from_param (state_ this) (param_ this) in
  if negb (rc =? 0) then Throws "Blake2b::reset failed"
  else if keyed_ this
  then
    let '(rc, st) :=
      tinyblake_blake2b_update get_compress st (Some (key_block_ this)) 128 in
    if negb (rc =? 0) then Throws "Blake2b::reset key update failed"
    else Returns (set_state_ this st)
  else Returns (set_state_ this st).

(** [hash(const void *data, size_t len, size_t outlen)]. *)
Definition hash (data : option (list byte)) (len : nat) (outlen_arg : nat)
  : outcome (list byte) :=
  let out := zeros outlen_arg in
  let '(rc, out') :=
    tinyblake_blake2b get_compress (vector_data empty_data_is_null out)
      outlen_arg data len None 0 in
  if negb (rc =? 0) then Throws "tinyblake::blake2b::hash failed"
  else Returns (contents out out').

(** [keyed_hash(key, keylen, data, datalen, outlen)]. *)
Definition keyed_hash (key : option (list byte)) (keylen : nat)
           (data : option (list byte)) (datalen : nat) (outlen_arg : nat)
  : outcome (list byte) :=
  let out := zeros outlen_arg in
  let '(rc, out') :=
    tinyblake_blake2b get_compress (vector_data empty_data_is_null out)
      outlen_arg data datalen key keylen in
  if negb (rc =? 0) then Throws "tinyblake::blake2b::keyed_hash failed"
  else Returns (contents out out').

(** [hasher::update] once per chunk, in order. *)
Fixpoint hasher_updates (this : hasher) (chunks : list (list byte))
  : outcome hasher :=
  match chunks with
  | [] => Returns this
  | c :: rest =>
      and_then (hasher_update this (Some c) (length c))
               (fun this => hasher_updates this rest)
  end.

(** The digest that a hasher obtained by [start] returns for a message
    fed chunk by chunk: updates, then [final_()]. *)
Definition hasher_digest (start : outcome hasher) (chunks : list (list byte))
  : outcome (list byte) :=
  and_then start (fun this =>
  and_then (hasher_updates this chunks) (fun this =>
  and_then (hasher_final_ this) (fun r =>
  Returns (snd r)))).

End Dispatch.

End Blake2bCpp.

(** Namespace [tinyblake::hmac]: the free function. *)
Module HmacCpp.

Section Dispatch.

Variable get_compress : blake2b_compress_fn.

(** [mac(key, keylen, data, datalen)]. *)
Definition mac (key : option (list byte)) (keylen : nat)
           (data : option (list byte)) (datalen : nat)
  : outcome (list byte) :=
  let out := zeros 64 in
  let '(rc, out') :=
    tinyblake_hmac get_compress (Some out) 64 key keylen data datalen in
  if negb (rc =? 0) then Throws "tinyblake::hmac::mac failed"
  else Returns (contents out out').

End Dispatch.

End HmacCpp.

(** Namespace [tinyblake::pbkdf2]. *)
Module Pbkdf2Cpp.

Section Dispatch.

Variable get_compress : blake2b_compress_fn.

Variable empty_data_is_null : bool.

(** [derive(password, passlen, salt, saltlen, rounds, outlen)]. *)
Definition derive (password : option (list byte)) (passlen : nat)
           (salt : option (list byte)) (saltlen : nat) (rounds : Z)
           (outlen_arg : nat) : outcome (list byte) :=
  let out := zeros outlen_arg in
  let '(rc, out') :=
    tinyblake_pbkdf2 get_compress (vector_data empty_data_is_null out)
      outlen_arg password passlen salt saltlen rounds in
  if negb (rc =? 0) then Throws "tinyblake::pbkdf2::derive failed"
  else Returns (contents out out').

(** [derive(const std::string &password, const std::vector<uint8_t> &salt,
    rounds, outlen)]; [password.data()] of a [std::string] is never
    null. *)
Definition derive_string (password : list byte) (salt : list byte)
           (rounds : Z) (outlen_arg : nat) : outcome (list byte) :=
  derive (Some password) (length password)
         (vector_data empty_data_is_null salt) (length salt)
         rounds outlen_arg.

End Dispatch.

End Pbkdf2Cpp.

(* ===================================================================== *)
(** ** Further scenarios and reference definitions *)
(* ===================================================================== *)

Module KeyedScenario.

Section Dispatch.

Variable get_compress : blake2b_compress_fn.

(** The keyed streaming sequence: init_key, one update per chunk,
    final. *)
Definition blake2b_keyed_stream (St : tinyblake_blake2b_state)
           (outlen_arg : nat) (key : option (list byte)) (keylen : nat)
           (chunks : list (list byte)) (out : option (list byte))
  : Z * option (list byte) :=
  let '(rc, St) :=
    tinyblake_blake2b_init_key get_compress St outlen_arg key keylen in
  if negb (rc =? 0) then (rc, out)
  else
    let '(rc, St) := update_chunks get_compress St chunks in
    if negb (rc =? 0) then (rc, out)
    else
      let '(rc, _, out) :=
        tinyblake_blake2b_final get_compress St out outlen_arg in
      (rc, out).

(** The state that [init_from_param] leaves for an accepted block. *)
Definition param_state (param : list byte) : tinyblake_blake2b_state :=
  mk_state
    (map (fun i => Z.lxor (w IV i) (load_le64 (skipn (i * 8)%nat param)))
         (seq 0 8))
    0 0 (zeros 128) 0 (nat_of_byte (rd param 0)).

(** The state that a successful [tinyblake_blake2b_init_key] leaves. *)
Definition keyed_state (n : nat) (key : list byte) (keylen : nat)
  : tinyblake_blake2b_state :=
  mk_state
    (upd IV 0 (Z.lxor (w IV 0) (0x01010000 + 256 * Z.of_nat keylen + Z.of_nat n)))
    0 0 (memcpy (zeros 128) 0 key keylen) 128 n.

(** Hashing under a caller's parameter block: init_param, one update,
    final. *)
Definition blake2b_with_param (param : list byte) (data : list byte)
           (out : option (list byte)) (cap : nat) : Z * option (list byte) :=
  let '(rc, St) := tinyblake_blake2b_init_param zero_state (Some param) in
  if negb (rc =? 0) then (rc, out)
  else
    let '(rc, St) :=
      tinyblake_blake2b_update get_compress St (Some data) (length data) in
    if negb (rc =? 0) then (rc, out)
    else
      let '(rc, _, out) := tinyblake_blake2b_final get_compress St out cap in
      (rc, out).

(** [tinyblake_hmac_update] once per chunk, in order, stopping at the
    first call that does not return 0. *)
Fixpoint hmac_update_chunks (st : tinyblake_hmac_state)
         (chunks : list (list byte)) : Z * tinyblake_hmac_state :=
  match chunks with
  | [] => (0, st)
  | c :: rest =>
      let '(rc, st') :=
        tinyblake_hmac_update get_compress st (Some c) (length c) in
      if negb (rc =? 0) then (rc, st') else hmac_update_chunks st' rest
  end.

(** The HMAC streaming sequence: init, one update per chunk, final. *)
Definition hmac_stream (st : tinyblake_hmac_state)
           (key : option (list byte)) (keylen : nat)
           (chunks : list (list byte)) (out : option (list byte)) (cap : nat)
  : Z * option (list byte) :=
  let '(rc, st) := tinyblake_hmac_init get_compress st key keylen in
  if negb (rc =? 0) then (rc, out)
  else
    let '(rc, st) := hmac_update_chunks st chunks in
    if negb (rc =? 0) then (rc, out)
    else
      let '(rc, _, out) := tinyblake_hmac_final get_compress st out cap in
      (rc, out).

End Dispatch.

End KeyedScenario.

(** The formulas in the head comments of hmac.cpp and pbkdf2.cpp, over
    the one-shot entry points. *)
Module KdfSpec.

(** [key XOR c], byte by byte. *)
Definition xor_pad (c : byte) (kb : list byte) : list byte :=
  map (fun b => byte_xor b c) kb.

(** [a[k] ^ b[k]] for every index [k] of [a]. *)
Definition xor_bytes (a b : list byte) : list byte :=
  map (fun k => byte_xor (rd a k) (rd b k)) (seq 0 (length a)).

(** The value of a byte string read with the most significant byte
    first. *)
Definition be_value (bs : list byte) : Z := le_value (rev bs).

Section Dispatch.

Variable get_compress : blake2b_compress_fn.

(** BLAKE2b-512 of a message, by the one-shot entry point. *)
Definition blake2b_512 (msg : list byte) : list byte :=
  contents (zeros 64)
    (snd (tinyblake_blake2b get_compress (Some (zeros 64)) 64
            (Some msg) (length msg) None 0)).

(** HMAC = BLAKE2b-512(opad || BLAKE2b-512(ipad || message)) for the
    128-byte key block [K], written to the region [o]. *)
Definition hmac_nested (K : list byte) (msg : list byte) (o : list byte)
  : Z * option (list byte) :=
  tinyblake_blake2b get_compress (Some o) 64
    (Some (xor_pad x5c K ++ blake2b_512 (xor_pad x36 K ++ msg))) 192 None 0.

Section Prf.

Variables (password : list byte).

(** PRF(P, msg): HMAC by the one-shot entry point. *)
Definition PRF (msg : list byte) : list byte :=
  contents (zeros 64)
    (snd (tinyblake_hmac get_compress (Some (zeros 64)) 64
            (Some password) (length password) (Some msg) (length msg))).

(** [U first j] is U_(j+1): U_1 = PRF(P, first), U_(j+1) = PRF(P, U_j). *)
Fixpoint U (first : list byte) (j : nat) : list byte :=
  match j with
  | O => PRF first
  | S j' => PRF (U first j')
  end.

(** [F_upto first c] is U_1 ^ ... ^ U_(c+1). *)
Fixpoint F_upto (first : list byte) (c : nat) : list byte :=
  match c with
  | O => U first 0
  | S c' => xor_bytes (F_upto first c') (U first (S c'))
  end.

(** F(P, S, c, i) = U_1 ^ ... ^ U_c with U_1 = PRF(P, S || INT_32_BE(i)). *)
Definition F (salt : list byte) (rounds : Z) (i : Z) : list byte :=
  F_upto (salt ++ store_be32 i) (Z.to_nat (rounds - 1)).

(** T_i || T_(i+1) || ..., [n] blocks, with T_i = F(P, S, c, i). *)
Fixpoint T_stream (salt : list byte) (rounds : Z) (i : Z) (n : nat)
  : list byte :=
  match n with
  | O => []
  | S n' => F salt rounds i ++ T_stream salt rounds (i + 1) n'
  end.

End Prf.

End Dispatch.

End KdfSpec.

(* ===================================================================== *)
(** ** Facts about words, bytes and memory regions *)
(* ===================================================================== *)

Module WordFacts.

Lemma two64_pos : 0 < two64.
Proof. reflexivity. Qed.

Lemma u64_range (x : Z) : in_u64 (u64 x).
Proof. unfold in_u64, u64. apply Z.mod_pos_bound. exact two64_pos. Qed.

Lemma u64_small (x : Z) : in_u64 x -> u64 x = x.
Proof. unfold in_u64, u64. intros H. apply Z.mod_small. exact H. Qed.

Lemma add64_range (a b : Z) : in_u64 (add64 a b).
Proof. apply u64_range. Qed.

Lemma Z_of_byte_range (b : byte) : 0 <= Z_of_byte b < 256.
Proof.
  unfold Z_of_byte. pose proof (Byte.to_N_bounded b) as Hb. lia.
Qed.

Lemma byte_of_Z_of_byte (b : byte) : byte_of_Z (Z_of_byte b) = b.
Proof.
  unfold byte_of_Z. pose proof (Z_of_byte_range b) as Hr.
  rewrite Z.mod_small by exact Hr.
  unfold Z_of_byte. rewrite N2Z.id, Byte.of_to_N. reflexivity.
Qed.

Lemma Z_of_byte_of_Z (z : Z) : 0 <= z < 256 -> Z_of_byte (byte_of_Z z) = z.
Proof.
  intros Hz. unfold byte_of_Z. rewrite Z.mod_small by exact Hz.
  destruct (Byte.of_N (Z.to_N z)) as [b|] eqn:E.
  - apply Byte.to_of_N in E. unfold Z_of_byte. rewrite E. lia.
  - apply Byte.of_N_None_iff in E. lia.
Qed.

Lemma Z_of_byte_inj (a b : byte) : Z_of_byte a = Z_of_byte b -> a = b.
Proof.
  intros H. rewrite <- (byte_of_Z_of_byte a), <- (byte_of_Z_of_byte b).
  rewrite H. reflexivity.
Qed.

Lemma Z_of_byte_zero (b : byte) : Z_of_byte b = 0 <-> b = x00.
Proof.
  split; intros H.
  - apply Z_of_byte_inj. rewrite H. reflexivity.
  - subst b. reflexivity.
Qed.

(** A bitwise operation whose result bits come from its operands keeps
    two [k]-bit values inside [k] bits. *)
Lemma bits_bound (k : Z) (f : Z -> Z -> Z) (a b : Z) :
  0 <= k ->
  (forall x y n, Z.testbit (f x y) n = false \/
                 Z.testbit x n = true \/ Z.testbit y n = true) ->
  0 <= f a b -> 0 <= a < 2 ^ k -> 0 <= b < 2 ^ k -> 0 <= f a b < 2 ^ k.
Proof.
  intros Hk Hf Hnn Ha Hb. split; [exact Hnn|].
  destruct (Z.eq_dec (f a b) 0) as [E|NE]; [rewrite E; lia|].
  apply Z.log2_lt_pow2; [lia|].
  assert (Hl : Z.testbit (f a b) (Z.log2 (f a b)) = true)
    by (apply Z.bit_log2; lia).
  destruct (Z_lt_ge_dec (Z.log2 (f a b)) k) as [Hlt|Hge]; [exact Hlt|exfalso].
  assert (Habove : forall x, 0 <= x < 2 ^ k ->
                     Z.testbit x (Z.log2 (f a b)) = false).
  { intros x Hx. destruct (Z.eq_dec x 0) as [->|Hx0]; [apply Z.bits_0|].
    apply Z.bits_above_log2; [lia|].
    assert (Z.log2 x < k) by (apply Z.log2_lt_pow2; lia). lia. }
  destruct (Hf a b (Z.log2 (f a b))) as [H|[H|H]].
  - congruence.
  - rewrite (Habove a Ha) in H. discriminate.
  - rewrite (Habove b Hb) in H. discriminate.
Qed.

Lemma lxor_bound (k a b : Z) :
  0 <= k -> 0 <= a < 2 ^ k -> 0 <= b < 2 ^ k -> 0 <= Z.lxor a b < 2 ^ k.
Proof.
  intros Hk Ha Hb. apply bits_bound; try assumption.
  - intros x y n. rewrite Z.lxor_spec.
    destruct (Z.testbit x n), (Z.testbit y n); auto.
  - apply Z.lxor_nonneg. lia.
Qed.

Lemma lor_bound (k a b : Z) :
  0 <= k -> 0 <= a < 2 ^ k -> 0 <= b < 2 ^ k -> 0 <= Z.lor a b < 2 ^ k.
Proof.
  intros Hk Ha Hb. apply bits_bound; try assumption.
  - intros x y n. rewrite Z.lor_spec.
    destruct (Z.testbit x n), (Z.testbit y n); auto.
  - apply Z.lor_nonneg. lia.
Qed.

Lemma lxor_byte_range (a b : Z) :
  0 <= a < 256 -> 0 <= b < 256 -> 0 <= Z.lxor a b < 256.
Proof. change 256 with (2 ^ 8). apply lxor_bound. lia. Qed.

Lemma lor_byte_range (a b : Z) :
  0 <= a < 256 -> 0 <= b < 256 -> 0 <= Z.lor a b < 256.
Proof. change 256 with (2 ^ 8). apply lor_bound. lia. Qed.

Lemma lxor64_range (a b : Z) : in_u64 a -> in_u64 b -> in_u64 (Z.lxor a b).
Proof. unfold in_u64, two64. apply lxor_bound. lia. Qed.

(** Two values with no common bit position are joined by [Z.lor] as by
    addition. *)
Lemma lor_disjoint (k lo hi : Z) :
  0 <= k -> 0 <= lo < 2 ^ k -> Z.lor lo (hi * 2 ^ k) = lo + hi * 2 ^ k.
Proof.
  intros Hk Hlo.
  assert (Hland : Z.land lo (hi * 2 ^ k) = 0).
  { apply Z.bits_inj'. intros i Hi. rewrite Z.land_spec, Z.bits_0.
    destruct (Z_lt_ge_dec i k) as [Hlt|Hge].
    - rewrite Z.mul_pow2_bits_low by exact Hlt. apply andb_false_r.
    - assert (Z.testbit lo i = false) as ->; [|reflexivity].
      destruct (Z.eq_dec lo 0) as [->|Hne]; [apply Z.bits_0|].
      apply Z.bits_above_log2; [lia|].
      assert (Z.log2 lo < k) by (apply Z.log2_lt_pow2; lia). lia. }
  rewrite <- Z.lxor_lor by exact Hland.
  symmetry. apply Z.add_nocarry_lxor. exact Hland.
Qed.

Lemma byte_xor_zero (a b : byte) : byte_xor a b = x00 <-> a = b.
Proof.
  unfold byte_xor. rewrite <- Z_of_byte_zero.
  rewrite Z_of_byte_of_Z
    by (apply lxor_byte_range; apply Z_of_byte_range).
  rewrite Z.lxor_eq_0_iff. split; [apply Z_of_byte_inj|congruence].
Qed.

Lemma byte_or_zero (a b : byte) : byte_or a b = x00 <-> a = x00 /\ b = x00.
Proof.
  unfold byte_or. rewrite <- !Z_of_byte_zero.
  rewrite Z_of_byte_of_Z
    by (apply lor_byte_range; apply Z_of_byte_range).
  apply Z.lor_eq_0_iff.
Qed.

End WordFacts.
Import WordFacts.

Module MemFacts.

Lemma upd_length {A : Type} (l : list A) (i : nat) (x : A) :
  length (upd l i x) = length l.
Proof.
  revert i. induction l as [|a l IH]; intros [|i]; simpl; auto.
Qed.

Lemma upd_app {A : Type} (l1 l2 : list A) (i : nat) (x y : A) :
  i = length l1 -> upd (l1 ++ y :: l2) i x = l1 ++ x :: l2.
Proof.
  intros ->. induction l1 as [|a l1 IH]; simpl; [reflexivity|].
  rewrite IH. reflexivity.
Qed.

Lemma split_at {A : Type} (l : list A) (i : nat) (d : A) :
  (i < length l)%nat ->
  l = firstn i l ++ nth i l d :: skipn (S i) l.
Proof.
  revert i. induction l as [|a l IH]; intros [|i] H; simpl in *; try lia.
  - reflexivity.
  - f_equal. apply IH. lia.
Qed.

Lemma upd_split {A : Type} (l : list A) (i : nat) (x : A) :
  (i < length l)%nat -> upd l i x = firstn i l ++ x :: skipn (S i) l.
Proof.
  intros H. rewrite (split_at l i x H) at 1.
  apply upd_app. rewrite length_firstn. lia.
Qed.

Lemma nth_upd_same {A : Type} (l : list A) (i : nat) (x d : A) :
  (i < length l)%nat -> nth i (upd l i x) d = x.
Proof.
  revert i. induction l as [|a l IH]; intros [|i] H; simpl in *; try lia.
  - reflexivity.
  - apply IH. lia.
Qed.

Lemma nth_upd_other {A : Type} (l : list A) (i j : nat) (x d : A) :
  i <> j -> nth j (upd l i x) d = nth j l d.
Proof.
  revert i j. induction l as [|a l IH]; intros [|i] [|j] H; simpl;
    try reflexivity; try lia.
  apply IH. lia.
Qed.

Lemma firstn_upd_le {A : Type} (l : list A) (i k : nat) (x : A) :
  (k <= i)%nat -> firstn k (upd l i x) = firstn k l.
Proof.
  revert i k. induction l as [|a l IH]; intros [|i] [|k] H; simpl;
    try reflexivity; try lia.
  f_equal. apply IH. lia.
Qed.

Lemma skipn_upd_gt {A : Type} (l : list A) (i k : nat) (x : A) :
  (i < k)%nat -> skipn k (upd l i x) = skipn k l.
Proof.
  revert i k. induction l as [|a l IH]; intros [|i] [|k] H; simpl;
    try reflexivity; try lia.
  apply IH. lia.
Qed.

Lemma firstn_S_upd {A : Type} (l : list A) (i : nat) (x : A) :
  (i < length l)%nat -> firstn (S i) (upd l i x) = firstn i l ++ [x].
Proof.
  revert i. induction l as [|a l IH]; intros [|i] H; simpl in *; try lia.
  - reflexivity.
  - f_equal. apply IH. lia.
Qed.

(** What [memcpy] leaves in a destination that holds the written range. *)
Lemma memcpy_spec (n : nat) : forall (dst : list byte) (off : nat) (src : list byte),
  (off + n <= length dst)%nat -> (n <= length src)%nat ->
  memcpy dst off src n = firstn off dst ++ firstn n src ++ skipn (off + n) dst.
Proof.
  induction n as [|n IH]; intros dst off src Hd Hs.
  - simpl. rewrite Nat.add_0_r. symmetry. apply firstn_skipn.
  - destruct src as [|b src]; [simpl in Hs; lia|]. simpl in Hs.
    change (memcpy dst off (b :: src) (S n))
      with (memcpy (upd dst off b) (S off) src n).
    rewrite IH by (rewrite ?upd_length; lia).
    rewrite firstn_S_upd by lia.
    rewrite skipn_upd_gt by lia.
    replace (S off + n)%nat with (off + S n)%nat by lia.
    rewrite <- app_assoc. reflexivity.
Qed.

Lemma memcpy_length (n : nat) : forall (dst : list byte) (off : nat) (src : list byte),
  length (memcpy dst off src n) = length dst.
Proof.
  induction n as [|n IH]; intros dst off src; simpl; [reflexivity|].
  rewrite IH. apply upd_length.
Qed.

Lemma memset_spec (n : nat) : forall (dst : list byte) (off : nat) (c : byte),
  (off + n <= length dst)%nat ->
  memset dst off c n = firstn off dst ++ repeat c n ++ skipn (off + n) dst.
Proof.
  induction n as [|n IH]; intros dst off c Hd.
  - simpl. rewrite Nat.add_0_r. symmetry. apply firstn_skipn.
  - change (memset dst off c (S n)) with (memset (upd dst off c) (S off) c n).
    rewrite IH by (rewrite ?upd_length; lia).
    rewrite firstn_S_upd by lia.
    rewrite skipn_upd_gt by lia.
    replace (S off + n)%nat with (off + S n)%nat by lia.
    rewrite <- app_assoc. reflexivity.
Qed.

Lemma memset_length (n : nat) : forall (dst : list byte) (off : nat) (c : byte),
  length (memset dst off c n) = length dst.
Proof.
  induction n as [|n IH]; intros dst off c; simpl; [reflexivity|].
  rewrite IH. apply upd_length.
Qed.

Lemma zeros_length (n : nat) : length (zeros n) = n.
Proof. apply repeat_length. Qed.

Lemma skipn_zeros (k : nat) : forall n : nat,
  skipn k (zeros n) = zeros (n - k).
Proof.
  unfold zeros. induction k as [|k IH]; intros [|n]; cbn [skipn repeat Nat.sub];
    try reflexivity.
  apply IH.
Qed.

End MemFacts.
Import MemFacts.

(* ===================================================================== *)
(** ** Facts about endian.h: the two builds compute the same functions *)
(* ===================================================================== *)

Module EndianFacts.

Lemma byte_at_range (v k : Z) : 0 <= byte_at v k < 256.
Proof. unfold byte_at. apply Z.mod_pos_bound. lia. Qed.

(** Masking one byte of a word in place. *)
Lemma land_byte_mask (v s : Z) :
  0 <= s -> Z.land v (255 * 2 ^ s) = ((v / 2 ^ s) mod 256) * 2 ^ s.
Proof.
  intros Hs. apply Z.bits_inj'. intros n Hn. rewrite Z.land_spec.
  destruct (Z_lt_ge_dec n s) as [Hlow|Hhigh].
  - rewrite !Z.mul_pow2_bits_low by exact Hlow. apply andb_false_r.
  - replace n with (s + (n - s)) by lia.
    rewrite !Z.mul_pow2_bits_add by lia.
    change 256 with (2 ^ 8). change 255 with (Z.ones 8).
    destruct (Z_lt_ge_dec (n - s) 8) as [Hin|Hout].
    + rewrite Z.ones_spec_low by lia.
      rewrite Z.mod_pow2_bits_low by exact Hin.
      rewrite Z.div_pow2_bits by lia.
      rewrite andb_true_r. f_equal. lia.
    + rewrite Z.ones_spec_high by lia.
      rewrite Z.mod_pow2_bits_high by lia. apply andb_false_r.
Qed.

Lemma lor_high_low (hi lo k : Z) :
  0 <= k -> 0 <= lo < 2 ^ k -> Z.lor (hi * 2 ^ k) lo = hi * 2 ^ k + lo.
Proof.
  intros Hk Hlo. rewrite Z.lor_comm, lor_disjoint by assumption. lia.
Qed.

(** The byte swap moves the byte at position k to position 7 - k. *)
Lemma bswap64_bytes (v : Z) :
  bswap64 v
  = byte_at v 0 * 2 ^ 56 + byte_at v 1 * 2 ^ 48 + byte_at v 2 * 2 ^ 40
    + byte_at v 3 * 2 ^ 32 + byte_at v 4 * 2 ^ 24 + byte_at v 5 * 2 ^ 16
    + byte_at v 6 * 2 ^ 8 + byte_at v 7.
Proof.
  unfold bswap64.
  change 0x00000000000000FF with (255 * 2 ^ 0).
  change 0x000000000000FF00 with (255 * 2 ^ 8).
  change 0x0000000000FF0000 with (255 * 2 ^ 16).
  change 0x00000000FF000000 with (255 * 2 ^ 24).
  change 0x000000FF00000000 with (255 * 2 ^ 32).
  change 0x0000FF0000000000 with (255 * 2 ^ 40).
  change 0x00FF000000000000 with (255 * 2 ^ 48).
  change 0xFF00000000000000 with (255 * 2 ^ 56).
  rewrite !land_byte_mask by lia.
  change (v / 2 ^ 0 mod 256) with (byte_at v 0).
  change (v / 2 ^ 8 mod 256) with (byte_at v 1).
  change (v / 2 ^ 16 mod 256) with (byte_at v 2).
  change (v / 2 ^ 24 mod 256) with (byte_at v 3).
  change (v / 2 ^ 32 mod 256) with (byte_at v 4).
  change (v / 2 ^ 40 mod 256) with (byte_at v 5).
  change (v / 2 ^ 48 mod 256) with (byte_at v 6).
  change (v / 2 ^ 56 mod 256) with (byte_at v 7).
  pose proof (byte_at_range v 0) as R0. pose proof (byte_at_range v 1) as R1.
  pose proof (byte_at_range v 2) as R2. pose proof (byte_at_range v 3) as R3.
  pose proof (byte_at_range v 4) as R4. pose proof (byte_at_range v 5) as R5.
  pose proof (byte_at_range v 6) as R6. pose proof (byte_at_range v 7) as R7.
  generalize dependent (byte_at v 0). generalize dependent (byte_at v 1).
  generalize dependent (byte_at v 2). generalize dependent (byte_at v 3).
  generalize dependent (byte_at v 4). generalize dependent (byte_at v 5).
  generalize dependent (byte_at v 6). generalize dependent (byte_at v 7).
  intros B7 R7 B6 R6 B5 R5 B4 R4 B3 R3 B2 R2 B1 R1 B0 R0.
  unfold shl64, shr64, u64, two64.
  rewrite !Z.shiftl_mul_pow2, !Z.shiftr_div_pow2 by lia.
  rewrite (Z.mod_small (B0 * 2 ^ 0 * 2 ^ 56)) by lia.
  rewrite (Z.mod_small (B1 * 2 ^ 8 * 2 ^ 40)) by lia.
  rewrite (Z.mod_small (B2 * 2 ^ 16 * 2 ^ 24)) by lia.
  rewrite (Z.mod_small (B3 * 2 ^ 24 * 2 ^ 8)) by lia.
  replace (B4 * 2 ^ 32 / 2 ^ 8) with (B4 * 2 ^ 24)
    by (apply Z.div_unique with (r := 0); lia).
  replace (B5 * 2 ^ 40 / 2 ^ 24) with (B5 * 2 ^ 16)
    by (apply Z.div_unique with (r := 0); lia).
  replace (B6 * 2 ^ 48 / 2 ^ 40) with (B6 * 2 ^ 8)
    by (apply Z.div_unique with (r := 0); lia).
  replace (B7 * 2 ^ 56 / 2 ^ 56) with B7
    by (apply Z.div_unique with (r := 0); lia).
  replace (B0 * 2 ^ 0 * 2 ^ 56) with (B0 * 2 ^ 56) by lia.
  replace (B1 * 2 ^ 8 * 2 ^ 40) with (B1 * 2 ^ 48) by lia.
  replace (B2 * 2 ^ 16 * 2 ^ 24) with (B2 * 2 ^ 40) by lia.
  replace (B3 * 2 ^ 24 * 2 ^ 8) with (B3 * 2 ^ 32) by lia.
  rewrite (lor_high_low B0 (B1 * 2 ^ 48) 56) by lia.
  replace (B0 * 2 ^ 56 + B1 * 2 ^ 48)
    with ((B0 * 2 ^ 8 + B1) * 2 ^ 48) by lia.
  rewrite (lor_high_low _ (B2 * 2 ^ 40) 48) by lia.
  replace ((B0 * 2 ^ 8 + B1) * 2 ^ 48 + B2 * 2 ^ 40)
    with ((B0 * 2 ^ 16 + B1 * 2 ^ 8 + B2) * 2 ^ 40) by lia.
  rewrite (lor_high_low _ (B3 * 2 ^ 32) 40) by lia.
  replace ((B0 * 2 ^ 16 + B1 * 2 ^ 8 + B2) * 2 ^ 40 + B3 * 2 ^ 32)
    with ((B0 * 2 ^ 24 + B1 * 2 ^ 16 + B2 * 2 ^ 8 + B3) * 2 ^ 32) by lia.
  rewrite (lor_high_low _ (B4 * 2 ^ 24) 32) by lia.
  replace ((B0 * 2 ^ 24 + B1 * 2 ^ 16 + B2 * 2 ^ 8 + B3) * 2 ^ 32
           + B4 * 2 ^ 24)
    with ((B0 * 2 ^ 32 + B1 * 2 ^ 24 + B2 * 2 ^ 16 + B3 * 2 ^ 8 + B4)
          * 2 ^ 24) by lia.
  rewrite (lor_high_low _ (B5 * 2 ^ 16) 24) by lia.
  replace ((B0 * 2 ^ 32 + B1 * 2 ^ 24 + B2 * 2 ^ 16 + B3 * 2 ^ 8 + B4)
           * 2 ^ 24 + B5 * 2 ^ 16)
    with ((B0 * 2 ^ 40 + B1 * 2 ^ 32 + B2 * 2 ^ 24 + B3 * 2 ^ 16 + B4 * 2 ^ 8
           + B5) * 2 ^ 16) by lia.
  rewrite (lor_high_low _ (B6 * 2 ^ 8) 16) by lia.
  replace ((B0 * 2 ^ 40 + B1 * 2 ^ 32 + B2 * 2 ^ 24 + B3 * 2 ^ 16 + B4 * 2 ^ 8
            + B5) * 2 ^ 16 + B6 * 2 ^ 8)
    with ((B0 * 2 ^ 48 + B1 * 2 ^ 40 + B2 * 2 ^ 32 + B3 * 2 ^ 24 + B4 * 2 ^ 16
           + B5 * 2 ^ 8 + B6) * 2 ^ 8) by lia.
  rewrite (lor_high_low _ B7 8) by lia.
  lia.
Qed.

Lemma le_value_range (bs : list byte) :
  0 <= le_value bs < 2 ^ (8 * Z.of_nat (length bs)).
Proof.
  induction bs as [|b bs IH]; cbn [le_value length].
  - cbn. lia.
  - pose proof (Z_of_byte_range b) as Hb.
    replace (8 * Z.of_nat (S (length bs))) with (8 + 8 * Z.of_nat (length bs))
      by lia.
    rewrite Z.pow_add_r by lia. change (2 ^ 8) with 256. nia.
Qed.

Lemma le_value_app (l1 l2 : list byte) :
  le_value (l1 ++ l2)
  = le_value l1 + 2 ^ (8 * Z.of_nat (length l1)) * le_value l2.
Proof.
  induction l1 as [|b l1 IH]; cbn [app le_value length].
  - change (8 * Z.of_nat 0) with 0. lia.
  - rewrite IH.
    replace (8 * Z.of_nat (S (length l1))) with (8 + 8 * Z.of_nat (length l1))
      by lia.
    rewrite Z.pow_add_r by lia. change (2 ^ 8) with 256. ring.
Qed.

(** The byte at position k of a little-endian value is the k-th byte. *)
Lemma byte_at_le_value (bs : list byte) (k : nat) :
  (k < length bs)%nat ->
  byte_at (le_value bs) (Z.of_nat k) = Z_of_byte (nth k bs x00).
Proof.
  intros Hk. rewrite (split_at bs k x00 Hk) at 1.
  rewrite le_value_app. cbn [le_value].
  rewrite length_firstn. replace (Nat.min k (length bs)) with k by lia.
  pose proof (le_value_range (firstn k bs)) as Hlo.
  rewrite length_firstn in Hlo.
  replace (Nat.min k (length bs)) with k in Hlo by lia.
  pose proof (Z_of_byte_range (nth k bs x00)) as Hb.
  pose proof (le_value_range (skipn (S k) bs)) as Hhi.
  unfold byte_at.
  assert (HP : 0 < 2 ^ (8 * Z.of_nat k)) by (apply Z.pow_pos_nonneg; lia).
  set (P := 2 ^ (8 * Z.of_nat k)) in *.
  set (lo := le_value (firstn k bs)) in *.
  set (hi := le_value (skipn (S k) bs)) in *.
  set (b := Z_of_byte (nth k bs x00)) in *.
  replace ((lo + P * (b + 256 * hi)) / P) with (b + 256 * hi)
    by (apply Z.div_unique with (r := lo); lia).
  symmetry. apply Z.mod_unique with (q := hi); lia.
Qed.

(** Whatever the byte order of the host, [load_le64] returns the
    little-endian value of the eight bytes at [src]. *)
Lemma load_le64_host_independent (big_endian_host : bool) (src : list byte) :
  load_le64_on big_endian_host src = load_le64 src.
Proof.
  destruct big_endian_host; [|reflexivity].
  unfold load_le64, load_le64_on, memcpy_to_u64.
  cbn [seq map rev app].
  set (b0 := rd src 0). set (b1 := rd src 1). set (b2 := rd src 2).
  set (b3 := rd src 3). set (b4 := rd src 4). set (b5 := rd src 5).
  set (b6 := rd src 6). set (b7 := rd src 7).
  rewrite bswap64_bytes.
  pose proof (fun k H => byte_at_le_value [b7; b6; b5; b4; b3; b2; b1; b0] k H)
    as Hb. cbn [length] in Hb.
  pose proof (Hb 0%nat ltac:(lia)) as H0. pose proof (Hb 1%nat ltac:(lia)) as H1.
  pose proof (Hb 2%nat ltac:(lia)) as H2. pose proof (Hb 3%nat ltac:(lia)) as H3.
  pose proof (Hb 4%nat ltac:(lia)) as H4. pose proof (Hb 5%nat ltac:(lia)) as H5.
  pose proof (Hb 6%nat ltac:(lia)) as H6. pose proof (Hb 7%nat ltac:(lia)) as H7.
  change (Z.of_nat 0) with 0 in H0. change (Z.of_nat 1) with 1 in H1.
  change (Z.of_nat 2) with 2 in H2. change (Z.of_nat 3) with 3 in H3.
  change (Z.of_nat 4) with 4 in H4. change (Z.of_nat 5) with 5 in H5.
  change (Z.of_nat 6) with 6 in H6. change (Z.of_nat 7) with 7 in H7.
  rewrite H0, H1, H2, H3, H4, H5, H6, H7.
  cbn [nth le_value]. ring.
Qed.

(** The byte at position k that [memcpy_from_u64] stores. *)
Lemma byte_of_shiftr (v : Z) (k : nat) :
  byte_of_Z (Z.shiftr v (8 * Z.of_nat k)) = byte_of_Z (byte_at v (Z.of_nat k)).
Proof.
  unfold byte_of_Z, byte_at. rewrite Z.shiftr_div_pow2 by lia.
  rewrite Z.mod_mod by lia. reflexivity.
Qed.

Lemma bswap64_le_value (v : Z) :
  bswap64 v
  = le_value [ byte_of_Z (byte_at v 7); byte_of_Z (byte_at v 6);
               byte_of_Z (byte_at v 5); byte_of_Z (byte_at v 4);
               byte_of_Z (byte_at v 3); byte_of_Z (byte_at v 2);
               byte_of_Z (byte_at v 1); byte_of_Z (byte_at v 0) ].
Proof.
  rewrite bswap64_bytes. cbn [le_value].
  rewrite !Z_of_byte_of_Z by apply byte_at_range. ring.
Qed.

(** Whatever the byte order of the host, [store_le64] writes the eight
    low bytes of [v], least significant first. *)
Lemma store_le64_host_independent (big_endian_host : bool) (v : Z) :
  store_le64_on big_endian_host v = store_le64 v.
Proof.
  destruct big_endian_host; [|reflexivity].
  unfold store_le64, store_le64_on, memcpy_from_u64.
  cbn [seq map rev app]. rewrite !byte_of_shiftr.
  rewrite bswap64_le_value.
  rewrite !byte_at_le_value by (cbn; lia).
  cbn [nth]. rewrite !byte_of_Z_of_byte. reflexivity.
Qed.

(** What is stored is read back, for a 64-bit value. *)
Lemma load_store_le64 (v : Z) : in_u64 v -> load_le64 (store_le64 v) = v.
Proof.
  unfold in_u64, two64. intros Hv.
  unfold load_le64, load_le64_on, memcpy_to_u64, store_le64, store_le64_on,
    memcpy_from_u64, rd.
  cbn [seq map nth le_value]. rewrite !byte_of_shiftr.
  rewrite !Z_of_byte_of_Z by apply byte_at_range.
  unfold byte_at.
  change (2 ^ (8 * Z.of_nat 0)) with 1.
  change (2 ^ (8 * Z.of_nat 1)) with (2 ^ 8).
  change (2 ^ (8 * Z.of_nat 2)) with (2 ^ 16).
  change (2 ^ (8 * Z.of_nat 3)) with (2 ^ 24).
  change (2 ^ (8 * Z.of_nat 4)) with (2 ^ 32).
  change (2 ^ (8 * Z.of_nat 5)) with (2 ^ 40).
  change (2 ^ (8 * Z.of_nat 6)) with (2 ^ 48).
  change (2 ^ (8 * Z.of_nat 7)) with (2 ^ 56).
  rewrite Z.div_1_r.
  pose proof (Z.div_mod v 256 ltac:(lia)) as D0.
  pose proof (Z.div_mod (v / 256) 256 ltac:(lia)) as D1.
  pose proof (Z.div_mod (v / 256 / 256) 256 ltac:(lia)) as D2.
  pose proof (Z.div_mod (v / 256 / 256 / 256) 256 ltac:(lia)) as D3.
  pose proof (Z.div_mod (v / 256 / 256 / 256 / 256) 256 ltac:(lia)) as D4.
  pose proof (Z.div_mod (v / 256 / 256 / 256 / 256 / 256) 256 ltac:(lia)) as D5.
  pose proof (Z.div_mod (v / 256 / 256 / 256 / 256 / 256 / 256) 256
                        ltac:(lia)) as D6.
  pose proof (Z.div_mod (v / 256 / 256 / 256 / 256 / 256 / 256 / 256) 256
                        ltac:(lia)) as D7.
  assert (Htop : v / 256 / 256 / 256 / 256 / 256 / 256 / 256 / 256 = 0).
  { rewrite !Z.div_div by lia. apply Z.div_small. lia. }
  rewrite Htop in D7.
  change (2 ^ 8) with 256. change (2 ^ 16) with (256 * 256).
  change (2 ^ 24) with (256 * 256 * 256).
  change (2 ^ 32) with (256 * 256 * 256 * 256).
  change (2 ^ 40) with (256 * 256 * 256 * 256 * 256).
  change (2 ^ 48) with (256 * 256 * 256 * 256 * 256 * 256).
  change (2 ^ 56) with (256 * 256 * 256 * 256 * 256 * 256 * 256).
  rewrite <- !Z.div_div by lia.
  lia.
Qed.

End EndianFacts.
Import EndianFacts.

(* ===================================================================== *)
(** ** Facts about the BLAKE2b state machine *)
(* ===================================================================== *)

Module Blake2bFacts.

Lemma increment_counter_fields (St : tinyblake_blake2b_state) (inc : Z) :
  h (increment_counter St inc) = h St /\
  buf (increment_counter St inc) = buf St /\
  buflen (increment_counter St inc) = buflen St /\
  outlen (increment_counter St inc) = outlen St.
Proof.
  unfold increment_counter. cbn [t0 set_t0].
  destruct (add64 (t0 St) inc <? inc); cbn; auto.
Qed.

Lemma increment_counter_t0 (St : tinyblake_blake2b_state) (inc : Z) :
  t0 (increment_counter St inc) = add64 (t0 St) inc.
Proof.
  unfold increment_counter. cbn [t0 set_t0].
  destruct (add64 (t0 St) inc <? inc); reflexivity.
Qed.

Lemma increment_counter_t1 (St : tinyblake_blake2b_state) (inc : Z) :
  t1 (increment_counter St inc) =
  if add64 (t0 St) inc <? inc then add64 (t1 St) 1 else t1 St.
Proof.
  unfold increment_counter. cbn [t0 set_t0].
  destruct (add64 (t0 St) inc <? inc); reflexivity.
Qed.

(** The carry test of the idiom is the carry of the 64-bit addition. *)
Lemma carry_test (a n : Z) :
  in_u64 a -> in_u64 n -> (add64 a n <? n) = (two64 <=? a + n).
Proof.
  unfold in_u64, add64, u64. intros Ha Hn.
  destruct (Z.leb_spec two64 (a + n)) as [Hc|Hc].
  - apply Z.ltb_lt.
    replace ((a + n) mod two64) with (a + n - two64); [lia|].
    apply Z.mod_unique with (q := 1); lia.
  - apply Z.ltb_ge. rewrite Z.mod_small by lia. lia.
Qed.

Section Dispatch.

Variable get_compress : blake2b_compress_fn.

Lemma update_loop_unfold (St : tinyblake_blake2b_state) (pin : list byte)
      (n : nat) :
  update_loop get_compress St pin n =
  if (n <=? 128)%nat then (St, pin, n)
  else update_loop get_compress
         (compress_block get_compress (increment_counter St 128) pin false)
         (skipn 128 pin) (n - 128)%nat.
Proof.
  rewrite update_loop_equation_1. unfold update_loop_unfold_clause_1.
  destruct (le_lt_dec n 128) as [H|H].
  - apply Nat.leb_le in H. rewrite H. reflexivity.
  - apply Nat.leb_gt in H. rewrite H. reflexivity.
Qed.

(** What the loop leaves: at most one block, never nothing when it was
    given something, and the buffer fields as they were. *)
Lemma update_loop_result (n : nat) :
  forall (St : tinyblake_blake2b_state) (pin : list byte),
  let r := update_loop get_compress St pin n in
  (snd r <= 128)%nat /\ (snd r <= n)%nat /\ ((0 < n)%nat -> (0 < snd r)%nat) /\
  snd (fst r) = skipn (n - snd r) pin /\
  buf (fst (fst r)) = buf St /\ buflen (fst (fst r)) = buflen St /\
  outlen (fst (fst r)) = outlen St.
Proof.
  induction n as [n IH] using lt_wf_ind. intros St pin.
  rewrite update_loop_unfold.
  destruct (Nat.leb_spec n 128) as [Hle|Hgt].
  - cbn. rewrite Nat.sub_diag. cbn. repeat split; auto; lia.
  - specialize (IH (n - 128)%nat ltac:(lia)
                   (compress_block get_compress (increment_counter St 128)
                                   pin false)
                   (skipn 128 pin)).
    cbv zeta in IH |- *.
    destruct IH as (H1 & H2 & H3 & H4 & H5 & H6 & H7).
    pose proof (increment_counter_fields St 128) as (_ & Fb & Fl & Fo).
    repeat split; try lia.
    + rewrite H4, skipn_skipn. f_equal. lia.
    + rewrite H5. cbn. exact Fb.
    + rewrite H6. cbn. exact Fl.
    + rewrite H7. cbn. exact Fo.
Qed.

Lemma absorb_unfold (c : core) (data : list byte) :
  absorb get_compress c data =
  if (length data <=? 128)%nat then (c, data)
  else absorb get_compress (absorb_block get_compress c data) (skipn 128 data).
Proof.
  rewrite absorb_equation_1. unfold absorb_unfold_clause_1.
  destruct (le_lt_dec (length data) 128) as [H|H].
  - apply Nat.leb_le in H. rewrite H. reflexivity.
  - apply Nat.leb_gt in H. rewrite H. reflexivity.
Qed.

Lemma absorb_short (c : core) (data : list byte) :
  (length data <= 128)%nat -> absorb get_compress c data = (c, data).
Proof.
  intros H. rewrite absorb_unfold. apply Nat.leb_le in H. rewrite H.
  reflexivity.
Qed.

(** Induction over the blocks that [absorb] compresses. *)
Lemma absorb_induction (P : core -> list byte -> core * list byte -> Prop) :
  (forall c data, (length data <= 128)%nat -> P c data (c, data)) ->
  (forall c data r, (128 < length data)%nat ->
     P (absorb_block get_compress c data) (skipn 128 data) r -> P c data r) ->
  forall c data, P c data (absorb get_compress c data).
Proof.
  intros Hbase Hstep c data. remember (length data) as n eqn:En.
  revert c data En. induction n as [n IH] using lt_wf_ind. intros c data En.
  rewrite absorb_unfold.
  destruct (Nat.leb_spec (length data) 128) as [Hle|Hgt].
  - apply Hbase. exact Hle.
  - apply Hstep; [exact Hgt|].
    apply (IH (length (skipn 128 data))); [rewrite length_skipn; lia|].
    reflexivity.
Qed.

Lemma absorb_rest (c : core) (data : list byte) :
  let r := snd (absorb get_compress c data) in
  (length r <= 128)%nat /\ (length r <= length data)%nat /\
  ((0 < length data)%nat -> (0 < length r)%nat) /\
  r = skipn (length data - length r) data.
Proof.
  cbv zeta. apply absorb_induction with
    (P := fun _ data r =>
            (length (snd r) <= 128)%nat /\
            (length (snd r) <= length data)%nat /\
            ((0 < length data)%nat -> (0 < length (snd r))%nat) /\
            snd r = skipn (length data - length (snd r)) data).
  - intros c0 d Hle. cbn. rewrite Nat.sub_diag. cbn. auto.
  - intros c0 d r Hgt (H1 & H0 & H2 & H3). rewrite length_skipn in *.
    repeat split; try lia.
    rewrite H3 at 1. rewrite skipn_skipn. f_equal. lia.
Qed.

(** Pending bytes may be absorbed before more bytes arrive. *)
Lemma absorb_app (x y : list byte) : forall (c : core),
  absorb get_compress c (x ++ y) =
  absorb get_compress (fst (absorb get_compress c x))
         (snd (absorb get_compress c x) ++ y).
Proof.
  remember (length x) as n eqn:En. revert x En.
  induction n as [n IH] using lt_wf_ind. intros x En c.
  rewrite (absorb_unfold c x).
  destruct (Nat.leb_spec (length x) 128) as [Hle|Hgt].
  - reflexivity.
  - rewrite (absorb_unfold c (x ++ y)).
    assert (Hxy : (length (x ++ y) <=? 128)%nat = false)
      by (apply Nat.leb_gt; rewrite length_app; lia).
    rewrite Hxy.
    assert (Hb : absorb_block get_compress c (x ++ y)
                 = absorb_block get_compress c x).
    { unfold absorb_block. destruct c as [[hh a] b].
      rewrite firstn_app.
      replace (128 - length x)%nat with 0%nat by lia.
      cbn [firstn]. rewrite app_nil_r. reflexivity. }
    rewrite Hb.
    assert (Hs : skipn 128 (x ++ y) = skipn 128 x ++ y).
    { rewrite skipn_app.
      replace (128 - length x)%nat with 0%nat by lia. reflexivity. }
    rewrite Hs.
    apply (IH (length (skipn 128 x))); [rewrite length_skipn; lia|].
    reflexivity.
Qed.

(** The loop of update computes [absorb]. *)
Lemma update_loop_absorb (pin : list byte) :
  forall (St : tinyblake_blake2b_state),
  update_loop get_compress St pin (length pin) =
  (with_core St (fst (absorb get_compress (core_of St) pin)),
   snd (absorb get_compress (core_of St) pin),
   length (snd (absorb get_compress (core_of St) pin))).
Proof.
  remember (length pin) as n eqn:En. revert pin En.
  induction n as [n IH] using lt_wf_ind. intros pin En St.
  rewrite update_loop_unfold, absorb_unfold. rewrite <- En.
  destruct (Nat.leb_spec n 128) as [Hle|Hgt].
  - cbn. rewrite <- En. destruct St; reflexivity.
  - rewrite (IH (n - 128)%nat ltac:(lia) (skipn 128 pin))
      by (rewrite length_skipn; lia).
    assert (Hc : core_of (compress_block get_compress
                            (increment_counter St 128) pin false)
                 = absorb_block get_compress (core_of St) pin).
    { unfold core_of, absorb_block, compress_block. cbn.
      pose proof (increment_counter_fields St 128) as (Fh & _).
      rewrite Fh, increment_counter_t0, increment_counter_t1.
      reflexivity. }
    rewrite Hc.
    pose proof (increment_counter_fields St 128) as (_ & Fb & Fl & Fo).
    destruct (absorb get_compress (absorb_block get_compress (core_of St) pin)
                     (skipn 128 pin)) as [[[hh a] b] r].
    cbn. rewrite Fb, Fl, Fo. reflexivity.
Qed.

End Dispatch.

End Blake2bFacts.
Import Blake2bFacts.

(* ===================================================================== *)
(** ** The state machine against the streaming contract *)
(* ===================================================================== *)

Module StreamFacts.

(** Reduce record projections of updated states, and nothing else. *)
Ltac fields :=
  cbn [h t0 t1 buf buflen outlen set_h set_t0 set_t1 set_buf set_buflen
       set_outlen fst snd with_core].

Lemma byte_of_nat_value (n : nat) :
  (n < 256)%nat -> Z_of_byte (byte_of_nat n) = Z.of_nat n.
Proof. intros H. unfold byte_of_nat. apply Z_of_byte_of_Z. lia. Qed.

Lemma init_h_fields (param : list byte) (l : list nat) :
  forall St : tinyblake_blake2b_state,
  let St' :=
    fold_left
      (fun St i =>
         set_h St (upd (h St) i
           (Z.lxor (w IV i) (load_le64 (skipn (i * 8)%nat param)))))
      l St in
  t0 St' = t0 St /\ t1 St' = t1 St /\ buf St' = buf St /\
  buflen St' = buflen St /\ outlen St' = outlen St.
Proof.
  induction l as [|i l IH]; intros St; cbn [fold_left]; [auto|].
  cbv zeta in IH. destruct (IH (set_h St (upd (h St) i
           (Z.lxor (w IV i) (load_le64 (skipn (i * 8)%nat param))))))
    as (A & B & C & D & E).
  repeat split; assumption.
Qed.

Lemma init_succeeds (St : tinyblake_blake2b_state) (n : nat) :
  (1 <= n <= 64)%nat ->
  tinyblake_blake2b_init St n = (0, fresh_state n) /\
  well_formed (fresh_state n) /\ buflen (fresh_state n) = 0%nat /\
  outlen (fresh_state n) = n /\
  t0 (fresh_state n) = 0 /\ t1 (fresh_state n) = 0.
Proof.
  intros Hn.
  assert (Hb : Z_of_byte (rd (build_default_param (byte_of_nat n) x00) 0)
               = Z.of_nat n).
  { change (rd (build_default_param (byte_of_nat n) x00) 0)
      with (byte_of_nat n).
    apply byte_of_nat_value. lia. }
  assert (Hg : (n =? 0)%nat || (64 <? n)%nat = false).
  { apply orb_false_iff. split; [apply Nat.eqb_neq|apply Nat.ltb_ge]; lia. }
  assert (Hc : (Z_of_byte (rd (build_default_param (byte_of_nat n) x00) 0) =? 0)
               || (Z_of_byte (rd (build_default_param (byte_of_nat n) x00) 0) >? 64)
               = false).
  { rewrite Hb. apply orb_false_iff. split; [apply Z.eqb_neq; lia|].
    rewrite Z.gtb_ltb. apply Z.ltb_ge. lia. }
  unfold fresh_state, tinyblake_blake2b_init, init_from_param.
  rewrite Hg, Hc. cbn [snd].
  split; [reflexivity|].
  match goal with |- context [fold_left ?f ?l ?s] =>
    pose proof (init_h_fields (build_default_param (byte_of_nat n) x00) l s)
      as (A & B & C & D & E)
  end.
  unfold well_formed. rewrite A, B, C, D, E. cbn.
  repeat split; try reflexivity; try lia.
  unfold nat_of_byte.
  change (rd (build_default_param (byte_of_nat n) x00) 0)
    with (byte_of_nat n).
  rewrite byte_of_nat_value by lia. lia.
Qed.

Section Dispatch.

Variable get_compress : blake2b_compress_fn.

Lemma update_tail_absorb (St : tinyblake_blake2b_state) (pin : list byte) :
  length (buf St) = 128%nat -> (0 < length pin)%nat ->
  exists St',
    update_tail get_compress St pin (length pin) = (0, St') /\
    well_formed St' /\ outlen St' = outlen St /\
    core_of St' = fst (absorb get_compress (core_of St) pin) /\
    pending St' = snd (absorb get_compress (core_of St) pin).
Proof.
  intros Hbuf Hpin. unfold update_tail. rewrite update_loop_absorb.
  pose proof (absorb_rest get_compress (core_of St) pin) as (R1 & R0 & R2 & _).
  destruct (absorb get_compress (core_of St) pin) as [[[hh a] b] r].
  cbn [fst snd] in *. specialize (R2 Hpin).
  assert (Hpos : (0 <? length r)%nat = true) by (apply Nat.ltb_lt; exact R2).
  rewrite Hpos. eexists. split; [reflexivity|].
  unfold well_formed, core_of, pending. fields.
  rewrite memcpy_length. repeat split; try assumption.
  rewrite memcpy_spec by (rewrite ?Hbuf; lia).
  cbn [firstn app]. rewrite firstn_all, firstn_app, firstn_all, Nat.sub_diag.
  fields. apply app_nil_r.
Qed.

(** One successful update absorbs its input after the pending bytes. *)
Lemma update_absorb (St : tinyblake_blake2b_state) (data : list byte) :
  well_formed St ->
  exists St',
    tinyblake_blake2b_update get_compress St (Some data) (length data)
      = (0, St') /\
    well_formed St' /\ outlen St' = outlen St /\
    core_of St' = fst (absorb get_compress (core_of St) (pending St ++ data)) /\
    pending St' = snd (absorb get_compress (core_of St) (pending St ++ data)).
Proof.
  intros [Hbuf Hlen]. unfold tinyblake_blake2b_update.
  assert (Hg : (128 <? buflen St)%nat = false) by (apply Nat.ltb_ge; exact Hlen).
  rewrite Hg.
  assert (Hp : length (pending St) = buflen St)
    by (unfold pending; rewrite length_firstn; lia).
  destruct (Nat.eqb_spec (length data) 0) as [Hz|Hnz].
  - (* nothing to absorb *)
    apply length_zero_iff_nil in Hz. subst data. rewrite app_nil_r.
    rewrite absorb_short by lia.
    exists St. repeat split; auto.
  - destruct (Nat.ltb_spec 0 (buflen St)) as [Hpos|Hzero].
    + destruct (Nat.ltb_spec (128 - buflen St) (length data)) as [Hover|Hfit].
      * (* the buffer fills up and is compressed *)
        set (left := (128 - buflen St)%nat) in *.
        assert (Hleft : left = (128 - buflen St)%nat) by reflexivity.
        clearbody left.
        set (St1 := set_buf St (memcpy (buf St) (buflen St) data left)).
        set (St2 := set_buflen
                      (compress_block get_compress
                         (increment_counter St1 128)
                         (buf (increment_counter St1 128)) false) 0).
        pose proof (increment_counter_fields St1 128) as (Fh & Fb & Fl & Fo).
        assert (Hb1 : buf St1 = pending St ++ firstn left data).
        { unfold St1. fields. rewrite memcpy_spec by lia.
          replace (buflen St + left)%nat with (length (buf St))
            by lia.
          rewrite skipn_all, app_nil_r. reflexivity. }
        assert (Hl1 : length (buf St1) = 128%nat)
          by (unfold St1; cbn; rewrite memcpy_length; exact Hbuf).
        destruct (update_tail_absorb St2 (skipn left data))
          as (St' & E & W & O & C & P).
        { unfold St2, compress_block. fields. rewrite Fb. exact Hl1. }
        { rewrite length_skipn. lia. }
        rewrite length_skipn in E. exists St'.
        split; [exact E|]. split; [exact W|].
        split; [rewrite O; unfold St2, compress_block; fields; rewrite Fo; reflexivity|].
        assert (Hcore : core_of St2
                        = absorb_block get_compress (core_of St)
                                       (pending St ++ data)).
        { unfold St2, core_of, absorb_block, compress_block. fields.
          rewrite Fh, Fb, increment_counter_t0, increment_counter_t1.
          rewrite Hb1. unfold St1. fields. f_equal. f_equal. f_equal.
          rewrite firstn_all2 by (rewrite <- Hb1; lia).
          rewrite firstn_app, Hp. rewrite <- Hleft.
          rewrite (@firstn_all2 _ 128 (pending St)) by lia. reflexivity. }
        assert (Hskip : skipn 128 (pending St ++ data) = skipn left data).
        { rewrite skipn_app, Hp. rewrite <- Hleft.
          rewrite skipn_all2 by lia. reflexivity. }
        rewrite (absorb_unfold get_compress (core_of St) (pending St ++ data)).
        assert (Hbig : (length (pending St ++ data) <=? 128)%nat = false)
          by (apply Nat.leb_gt; rewrite length_app; lia).
        rewrite Hbig, Hskip, <- Hcore. split; assumption.
      * (* the input fits into the buffer *)
        rewrite absorb_short by (rewrite length_app; lia).
        eexists. split; [reflexivity|].
        unfold well_formed, core_of, pending. fields.
        rewrite memcpy_length. repeat split; try assumption; try lia.
        rewrite memcpy_spec by lia.
        rewrite firstn_app, length_firstn.
        replace (Nat.min (buflen St) (length (buf St))) with (buflen St) by lia.
        rewrite firstn_firstn.
        replace (Nat.min (buflen St + length data) (buflen St))
          with (buflen St) by lia.
        f_equal.
        replace (buflen St + length data - buflen St)%nat
          with (length data) by lia.
        rewrite firstn_app, firstn_all, firstn_all, Nat.sub_diag.
        fields. apply app_nil_r.
    + (* the buffer is empty *)
      assert (Hnil : pending St = [])
        by (unfold pending; replace (buflen St) with 0%nat by lia; reflexivity).
      rewrite Hnil. cbn [app].
      apply update_tail_absorb; [exact Hbuf|lia].
Qed.

Lemma update_chunks_absorb (chunks : list (list byte)) :
  forall St : tinyblake_blake2b_state,
  well_formed St ->
  exists St',
    update_chunks get_compress St chunks = (0, St') /\
    well_formed St' /\ outlen St' = outlen St /\
    core_of St' =
      fst (absorb get_compress (core_of St) (pending St ++ concat chunks)) /\
    pending St' =
      snd (absorb get_compress (core_of St) (pending St ++ concat chunks)).
Proof.
  induction chunks as [|c rest IH]; intros St W.
  - cbn [update_chunks concat]. rewrite app_nil_r.
    destruct W as [Hbuf Hlen].
    rewrite absorb_short
      by (unfold pending; rewrite length_firstn; lia).
    exists St. repeat split; auto.
  - cbn [update_chunks concat].
    destruct (update_absorb St c W) as (St1 & E1 & W1 & O1 & C1 & P1).
    rewrite E1. cbn [Z.eqb negb].
    destruct (IH St1 W1) as (St' & E & W' & O & C & P).
    exists St'. split; [exact E|]. split; [exact W'|].
    split; [congruence|].
    rewrite app_assoc, absorb_app, <- C1, <- P1. split; assumption.
Qed.

(** What a final that passes its guards computes. *)
Lemma final_unfold (St : tinyblake_blake2b_state) (o : list byte) (cap : nat) :
  well_formed St ->
  tinyblake_blake2b_final get_compress St (Some o) cap =
  if (cap <? outlen St)%nat then (-1, St, Some o)
  else
    (0, zero_state,
     Some (memcpy o 0
             (encode_h
                (get_compress (h St) (final_block St)
                   (add64 (t0 St) (Z.of_nat (buflen St)))
                   (if add64 (t0 St) (Z.of_nat (buflen St))
                       <? Z.of_nat (buflen St)
                    then add64 (t1 St) 1 else t1 St)
                   true))
             (outlen St))).
Proof.
  intros [Hbuf Hlen]. unfold tinyblake_blake2b_final.
  destruct (cap <? outlen St)%nat; [reflexivity|].
  pose proof (increment_counter_fields St (Z.of_nat (buflen St)))
    as (Fh & Fb & Fl & Fo).
  pose proof (increment_counter_t0 St (Z.of_nat (buflen St))) as F0.
  pose proof (increment_counter_t1 St (Z.of_nat (buflen St))) as F1.
  set (St1 := increment_counter St (Z.of_nat (buflen St))) in *.
  assert (Hblock :
    firstn 128
      (buf (if (buflen St1 <? 128)%nat
            then set_buf St1 (memset (buf St1) (buflen St1) x00
                                     (128 - buflen St1))
            else St1)) = final_block St).
  { rewrite Fl, Fb. unfold final_block, pending.
    destruct (Nat.ltb_spec (buflen St) 128) as [Hlt|Hge].
    - cbn [buf set_buf]. rewrite memset_spec by lia.
      replace (buflen St + (128 - buflen St))%nat with (length (buf St)) by lia.
      rewrite skipn_all, app_nil_r.
      apply firstn_all2. rewrite length_app, length_firstn, repeat_length. lia.
    - rewrite Fb. replace (buflen St) with 128%nat by lia.
      cbn [repeat Nat.sub]. rewrite app_nil_r. reflexivity. }
  unfold compress_block, encode_h.
  destruct (buflen St1 <? 128)%nat; cbn [h t0 t1 outlen set_h set_buf] in *;
    rewrite Hblock, Fh, F0, F1, Fo; reflexivity.
Qed.

End Dispatch.

End StreamFacts.
Import StreamFacts.

(* ===================================================================== *)
(** ** BLAKE2b: known answer, streaming, error paths *)
(* ===================================================================== *)

Module Blake2bClaims.

(** C2.  The one-shot unkeyed hash with outlen = 64 on the three bytes
    "abc", no key and the portable backend returns 0 and leaves in a
    64-byte output buffer exactly the digest ba80a53f...d4009923 of
    RFC 7693, whatever the buffer held before. *)
Theorem blake2b_512_abc (o : list byte) :
  length o = 64%nat ->
  tinyblake_blake2b blake2b_compress_portable
    (Some o) 64 (Some (ascii_bytes "abc")) 3 None 0
  = (0, Some (bytes_of_hex
       "ba80a53f981c4d0d6a2797b69f12f6e94c212f14685ac4b74b12bb6fdbffa2d17d87c5392aab792dc252d5de4533cc9518d38aa8dbf1925ab92386edd4009923")).
Proof.
  intros Ho.
  do 64 (destruct o as [|? o]; [discriminate Ho|]).
  destruct o; [|discriminate Ho].
  vm_compute. reflexivity.
Qed.

Lemma blake2b_512_abc_witness :
  length (zeros 64) = 64%nat /\
  tinyblake_blake2b blake2b_compress_portable
    (Some (zeros 64)) 64 (Some (ascii_bytes "abc")) 3 None 0
  = (0, Some (bytes_of_hex
       "ba80a53f981c4d0d6a2797b69f12f6e94c212f14685ac4b74b12bb6fdbffa2d17d87c5392aab792dc252d5de4533cc9518d38aa8dbf1925ab92386edd4009923")).
Proof.
  split; [reflexivity|]. apply (blake2b_512_abc (zeros 64)). reflexivity.
Defined.

Section Dispatch.

Variable get_compress : blake2b_compress_fn.

(** Two states that agree on chaining value, counter, pending bytes and
    digest length finalise alike. *)
Lemma final_same_view (St1 St2 : tinyblake_blake2b_state) (o : list byte)
      (cap : nat) :
  well_formed St1 -> well_formed St2 ->
  core_of St1 = core_of St2 -> pending St1 = pending St2 ->
  outlen St1 = outlen St2 -> (outlen St1 <= cap)%nat ->
  tinyblake_blake2b_final get_compress St1 (Some o) cap
  = tinyblake_blake2b_final get_compress St2 (Some o) cap /\
  fst (fst (tinyblake_blake2b_final get_compress St1 (Some o) cap)) = 0.
Proof.
  intros W1 W2 Hc Hp Ho Hcap.
  rewrite (final_unfold get_compress St1 o cap W1).
  rewrite (final_unfold get_compress St2 o cap W2).
  assert (Hl : buflen St1 = buflen St2).
  { destruct W1 as [B1 L1], W2 as [B2 L2].
    assert (E : length (pending St1) = length (pending St2)) by congruence.
    unfold pending in E. rewrite !length_firstn in E. lia. }
  unfold final_block. unfold core_of in Hc. injection Hc as Hh H0 H1.
  rewrite <- Ho, <- Hl, <- Hp, <- Hh, <- H0, <- H1.
  assert (Hg : (cap <? outlen St1)%nat = false) by (apply Nat.ltb_ge; exact Hcap).
  rewrite Hg. split; reflexivity.
Qed.

(** C3.  For every byte string cut into chunks (empty chunks and chunks
    that cross or end on the 128-byte boundary included) and every digest
    length in 1..64: init, one update per chunk in order, then final
    returns 0 and produces what the one-shot call produces on the whole
    string, with any backend and any prior contents of the caller's state
    and output buffer. *)
Theorem incremental_equals_oneshot (St0 : tinyblake_blake2b_state)
        (n : nat) (chunks : list (list byte)) (o : list byte) :
  (1 <= n <= 64)%nat ->
  blake2b_stream get_compress St0 n chunks (Some o)
  = tinyblake_blake2b get_compress (Some o) n
      (Some (concat chunks)) (length (concat chunks)) None 0 /\
  fst (blake2b_stream get_compress St0 n chunks (Some o)) = 0.
Proof.
  intros Hn. unfold blake2b_stream, tinyblake_blake2b.
  change (0 <? 0)%nat with false. cbv iota.
  destruct (init_succeeds St0 n Hn) as (Ei & W & Bl & Ol & _).
  destruct (init_succeeds zero_state n Hn) as (Ez & _).
  rewrite Ei, Ez. cbn [Z.eqb negb].
  destruct (update_chunks_absorb get_compress chunks (fresh_state n) W)
    as (Sa & Ea & Wa & Oa & Ca & Pa).
  destruct (update_absorb get_compress (fresh_state n) (concat chunks) W)
    as (Sb & Eb & Wb & Ob & Cb & Pb).
  rewrite Ea, Eb. cbn [Z.eqb negb].
  destruct (final_same_view Sa Sb o n Wa Wb) as [E R]; try congruence.
  { rewrite Oa, Ol. lia. }
  rewrite <- E.
  destruct (tinyblake_blake2b_final get_compress Sa (Some o) n) as [[rc s] o'].
  cbn [fst] in *. split; [reflexivity|exact R].
Qed.

End Dispatch.

Lemma incremental_equals_oneshot_witness :
  (1 <= 64 <= 64)%nat /\
  blake2b_stream blake2b_compress_portable zero_state 64
    [repeat x61 100; []; repeat x62 28; repeat x63 130] (Some (zeros 64))
  = tinyblake_blake2b blake2b_compress_portable (Some (zeros 64)) 64
      (Some (concat [repeat x61 100; []; repeat x62 28; repeat x63 130]))
      (length (concat [repeat x61 100; []; repeat x62 28; repeat x63 130]))
      None 0.
Proof.
  split; [lia|].
  apply (incremental_equals_oneshot blake2b_compress_portable). lia.
Defined.


Section ErrorPaths.

Variable get_compress : blake2b_compress_fn.

(** C7.  A final whose output capacity is smaller than the digest length
    configured in the state returns -1, leaves the output buffer as it
    was (null or not) and leaves the state as it was, so that any later
    final on the state behaves as it would have on the original. *)
Theorem final_rejects_short_buffer (St : tinyblake_blake2b_state)
        (out : option (list byte)) (cap : nat) :
  (cap < outlen St)%nat ->
  tinyblake_blake2b_final get_compress St out cap = (-1, St, out) /\
  forall (out2 : option (list byte)) (cap2 : nat),
    tinyblake_blake2b_final get_compress
      (snd (fst (tinyblake_blake2b_final get_compress St out cap))) out2 cap2
    = tinyblake_blake2b_final get_compress St out2 cap2.
Proof.
  intros Hcap.
  assert (E : tinyblake_blake2b_final get_compress St out cap = (-1, St, out)).
  { unfold tinyblake_blake2b_final. destruct out as [o|]; [|reflexivity].
    apply Nat.ltb_lt in Hcap. rewrite Hcap. reflexivity. }
  split; [exact E|]. intros out2 cap2. rewrite E. reflexivity.
Qed.

Lemma update_tail_result (St : tinyblake_blake2b_state) (pin : list byte)
      (n : nat) :
  (buflen St <= 128)%nat ->
  fst (update_tail get_compress St pin n) = 0 /\
  (buflen (snd (update_tail get_compress St pin n)) <= 128)%nat /\
  ((0 < n)%nat -> (1 <= buflen (snd (update_tail get_compress St pin n)))%nat) /\
  ((n = 0)%nat -> snd (update_tail get_compress St pin n) = St).
Proof.
  intros Hbl. unfold update_tail.
  pose proof (update_loop_result get_compress n St pin) as R. cbv zeta in R.
  destruct R as (R1 & R2 & R3 & _ & _ & Rl & _).
  pose proof (update_loop_unfold get_compress St pin n) as U.
  destruct (update_loop get_compress St pin n) as [[St' pin'] n'].
  cbn [fst snd] in *.
  destruct (Nat.ltb_spec 0 n') as [Hpos|Hz]; cbn [fst snd buflen set_buflen].
  - split; [reflexivity|]. split; [exact R1|]. split; [intros _; lia|].
    intros Hn. exfalso. lia.
  - rewrite Rl. split; [reflexivity|]. split; [lia|].
    split; [intros Hn; exfalso; lia|].
    intros Hn. subst n. cbn in U. injection U as E _ _. exact E.
Qed.

(** What one update does to the residual length. *)
Lemma update_residual (St : tinyblake_blake2b_state)
      (inp : option (list byte)) (inlen : nat) :
  tinyblake_blake2b_update get_compress St inp inlen = (-1, St) \/
  (fst (tinyblake_blake2b_update get_compress St inp inlen) = 0 /\
   (buflen (snd (tinyblake_blake2b_update get_compress St inp inlen)) <= 128)%nat /\
   ((inlen = 0%nat /\
     snd (tinyblake_blake2b_update get_compress St inp inlen) = St) \/
    (1 <= buflen (snd (tinyblake_blake2b_update get_compress St inp inlen)))%nat)).
Proof.
  unfold tinyblake_blake2b_update.
  destruct (Nat.ltb_spec 128 (buflen St)) as [Hbig|Hok]; [left; reflexivity|].
  destruct (Nat.eqb_spec inlen 0) as [Hz|Hnz].
  { right. cbn [fst snd]. auto. }
  destruct inp as [pin|]; [right|left; reflexivity].
  destruct (Nat.ltb_spec 0 (buflen St)) as [Hpos|Hzero].
  - destruct (Nat.ltb_spec (128 - buflen St) inlen) as [Hover|Hfit].
    + match goal with |- context [update_tail _ ?s ?p ?k] =>
        destruct (update_tail_result s p k) as (T1 & T2 & T3 & _);
          [cbn [buflen set_buflen]; lia|]
      end.
      split; [exact T1|]. split; [exact T2|]. right. apply T3. lia.
    + cbn [fst snd buflen set_buflen set_buf]. split; [reflexivity|].
      split; [lia|]. right. lia.
  - destruct (update_tail_result St pin inlen) as (T1 & T2 & T3 & _); [lia|].
    split; [exact T1|]. split; [exact T2|]. right. apply T3. lia.
Qed.

(** What one final does to the residual length. *)
Lemma final_residual (St : tinyblake_blake2b_state)
      (out : option (list byte)) (cap : nat) :
  tinyblake_blake2b_final get_compress St out cap = (-1, St, out) \/
  (fst (fst (tinyblake_blake2b_final get_compress St out cap)) = 0 /\
   buflen (snd (fst (tinyblake_blake2b_final get_compress St out cap))) = 0%nat).
Proof.
  unfold tinyblake_blake2b_final. destruct out as [o|]; [|left; reflexivity].
  destruct (cap <? outlen St)%nat; [left; reflexivity|].
  right. cbn [fst snd]. split; reflexivity.
Qed.

(** C6 (as the code has it).  A successful final leaves the all-zero
    state, which records nowhere that it was consumed.  On that state an
    update returns 0 whenever its input pointer is non-null or its
    length is zero, so an update after final does not fail; only an
    update with a null input and a non-zero length returns -1, and it
    leaves the state as it is. *)
Theorem final_wipes_state_and_update_is_accepted
        (St : tinyblake_blake2b_state) (o : list byte) (cap : nat) :
  (outlen St <= cap)%nat ->
  fst (tinyblake_blake2b_final get_compress St (Some o) cap) = (0, zero_state) /\
  (forall (data : list byte) (n : nat),
     fst (tinyblake_blake2b_update get_compress zero_state (Some data) n) = 0) /\
  (forall inp : option (list byte),
     tinyblake_blake2b_update get_compress zero_state inp 0 = (0, zero_state)) /\
  (forall n : nat,
     tinyblake_blake2b_update get_compress zero_state None (S n)
     = (-1, zero_state)).
Proof.
  intros Hcap. split; [|split; [|split]].
  - unfold tinyblake_blake2b_final.
    apply Nat.ltb_ge in Hcap. rewrite Hcap. reflexivity.
  - intros data n. unfold tinyblake_blake2b_update.
    change (128 <? buflen zero_state)%nat with false.
    change (0 <? buflen zero_state)%nat with false. cbv iota.
    destruct (n =? 0)%nat; [reflexivity|].
    apply update_tail_result. cbn. lia.
  - intros inp. reflexivity.
  - intros n. reflexivity.
Qed.

End ErrorPaths.

Lemma final_rejects_short_buffer_witness :
  (32 < outlen (fresh_state 64))%nat /\
  tinyblake_blake2b_final blake2b_compress_portable
    (fresh_state 64) (Some (zeros 32)) 32
  = (-1, fresh_state 64, Some (zeros 32)).
Proof.
  assert (H : (32 < outlen (fresh_state 64))%nat) by (vm_compute; lia).
  split; [exact H|].
  exact (proj1 (final_rejects_short_buffer blake2b_compress_portable
                  (fresh_state 64) (Some (zeros 32)) 32 H)).
Defined.

Lemma final_wipes_state_and_update_is_accepted_witness :
  (outlen (fresh_state 64) <= 64)%nat /\
  fst (tinyblake_blake2b_final blake2b_compress_portable
         (fresh_state 64) (Some (zeros 64)) 64) = (0, zero_state).
Proof.
  assert (H : (outlen (fresh_state 64) <= 64)%nat) by (vm_compute; lia).
  split; [exact H|].
  exact (proj1 (final_wipes_state_and_update_is_accepted
                  blake2b_compress_portable (fresh_state 64) (zeros 64) 64 H)).
Defined.

(** C5, the claim as written, fails: after init(64) and a successful
    update with 128 bytes the residual length is exactly 128, and the
    operation performed next is an update, which succeeds. *)
Lemma full_buffer_before_an_update :
  let P := blake2b_compress_portable in
  let St := snd (tinyblake_blake2b_update P (fresh_state 64)
                   (Some (zeros 128)) 128) in
  tinyblake_blake2b_init zero_state 64 = (0, fresh_state 64) /\
  fst (tinyblake_blake2b_update P (fresh_state 64) (Some (zeros 128)) 128) = 0 /\
  buflen St = 128%nat /\
  fst (tinyblake_blake2b_update P St (Some (zeros 1)) 1) = 0 /\
  buflen (snd (tinyblake_blake2b_update P St (Some (zeros 1)) 1)) = 1%nat.
Proof. vm_compute. repeat split. Qed.

(** C6, the claim as written, fails: after init(64), update("abc") and a
    successful final the state is all-zero, and an update with one byte
    on it returns 0. *)
Lemma consumed_state_accepts_update :
  let P := blake2b_compress_portable in
  let St := snd (tinyblake_blake2b_update P (fresh_state 64)
                   (Some (ascii_bytes "abc")) 3) in
  let St' := snd (fst (tinyblake_blake2b_final P St (Some (zeros 64)) 64)) in
  tinyblake_blake2b_init zero_state 64 = (0, fresh_state 64) /\
  fst (tinyblake_blake2b_update P (fresh_state 64)
         (Some (ascii_bytes "abc")) 3) = 0 /\
  fst (fst (tinyblake_blake2b_final P St (Some (zeros 64)) 64)) = 0 /\
  St' = zero_state /\
  fst (tinyblake_blake2b_update P St' (Some (ascii_bytes "x")) 1) = 0.
Proof. vm_compute. repeat split. Qed.

End Blake2bClaims.

(* ===================================================================== *)
(** ** BLAKE2b: the byte counter *)
(* ===================================================================== *)

Module CounterClaims.

(** One advance of the counter by [n], on the two words. *)
Lemma counter_step (a b n : Z) :
  in_u64 a -> in_u64 b -> in_u64 n ->
  let a' := add64 a n in
  let b' := if a' <? n then add64 b 1 else b in
  in_u64 a' /\ in_u64 b' /\
  a' = (a + n) mod two64 /\
  (a' <? n) = (two64 <=? a + n) /\
  b' * two64 + a' = (b * two64 + a + n) mod 2 ^ 128.
Proof.
  intros Ha Hb Hn a' b'.
  assert (Hc : (a' <? n) = (two64 <=? a + n)) by (apply carry_test; assumption).
  split; [apply add64_range|].
  split; [unfold b'; destruct (a' <? n); [apply add64_range|exact Hb]|].
  split; [reflexivity|]. split; [exact Hc|].
  unfold b'. rewrite Hc. unfold a', add64, u64, in_u64, two64 in *.
  destruct (Z.leb_spec (2 ^ 64) (a + n)) as [Hcarry|Hnone].
  - assert (Ea : (a + n) mod 2 ^ 64 = a + n - 2 ^ 64)
      by (symmetry; apply Z.mod_unique with (q := 1); lia).
    rewrite Ea.
    destruct (Z_lt_ge_dec (b + 1) (2 ^ 64)) as [Hb1|Hb1].
    + rewrite (Z.mod_small (b + 1)) by lia.
      rewrite (Z.mod_small (b * 2 ^ 64 + a + n)) by lia. lia.
    + assert (Eb : (b + 1) mod 2 ^ 64 = 0)
        by (symmetry; apply Z.mod_unique with (q := 1); lia).
      rewrite Eb. apply Z.mod_unique with (q := 1); lia.
  - rewrite (Z.mod_small (a + n)) by lia.
    rewrite (Z.mod_small (b * 2 ^ 64 + a + n)) by lia. lia.
Qed.

Section Dispatch.

Variable get_compress : blake2b_compress_fn.

Lemma absorb_block_counter (c : core) (block : list byte) :
  core_in_range c ->
  core_in_range (absorb_block get_compress c block) /\
  core_value (absorb_block get_compress c block)
  = (core_value c + 128) mod 2 ^ 128.
Proof.
  destruct c as [[hh a] b]. unfold core_in_range, core_value, absorb_block.
  cbn [fst snd]. intros [Ha Hb].
  destruct (counter_step a b 128 Ha Hb) as (A & B & _ & _ & V).
  { unfold in_u64, two64. lia. }
  cbv zeta in *. repeat split; try apply A; try apply B. exact V.
Qed.

(** The counter after [absorb] has advanced by the bytes that left the
    pending string. *)
Lemma absorb_counter (c : core) (data : list byte) :
  core_in_range c ->
  core_in_range (fst (absorb get_compress c data)) /\
  core_value (fst (absorb get_compress c data))
  = (core_value c
     + (Z.of_nat (length data)
        - Z.of_nat (length (snd (absorb get_compress c data)))))
    mod 2 ^ 128 /\
  (core_value c < 2 ^ 128).
Proof.
  apply absorb_induction with
    (P := fun c data r =>
            core_in_range c ->
            core_in_range (fst r) /\
            core_value (fst r)
            = (core_value c
               + (Z.of_nat (length data) - Z.of_nat (length (snd r))))
              mod 2 ^ 128 /\
            core_value c < 2 ^ 128).
  - intros c0 d _ R. cbn [fst snd]. split; [exact R|].
    assert (0 <= core_value c0 < 2 ^ 128).
    { destruct R as [A B]. unfold core_value, in_u64, two64 in *. nia. }
    split; [|lia].
    rewrite Z.sub_diag, Z.add_0_r. symmetry. apply Z.mod_small. assumption.
  - intros c0 d r Hgt IH R.
    destruct (absorb_block_counter c0 d R) as [R1 V1].
    destruct (IH R1) as (R2 & V2 & _).
    split; [exact R2|].
    assert (0 <= core_value c0 < 2 ^ 128).
    { destruct R as [A B]. unfold core_value, in_u64, two64 in *. nia. }
    split; [|lia].
    rewrite V2, V1, length_skipn.
    rewrite Zplus_mod_idemp_l. f_equal. lia.
Qed.

(** The counter after a run of updates from a state whose counter words
    are 64-bit values: in range, and advanced by the bytes that left the
    buffer, modulo 2^128. *)
Lemma counter_after_chunks (S0 : tinyblake_blake2b_state)
      (chunks : list (list byte)) :
  well_formed S0 -> in_u64 (t0 S0) -> in_u64 (t1 S0) ->
  exists St,
    update_chunks get_compress S0 chunks = (0, St) /\
    well_formed St /\ outlen St = outlen S0 /\
    in_u64 (t0 St) /\ in_u64 (t1 St) /\
    (buflen St <= buflen S0 + length (concat chunks))%nat /\
    counter_value St
    = (counter_value S0
       + (Z.of_nat (buflen S0) + Z.of_nat (length (concat chunks))
          - Z.of_nat (buflen St))) mod 2 ^ 128.
Proof.
  intros W A B.
  destruct (update_chunks_absorb get_compress chunks S0 W)
    as (St & E & WS & O & C & P).
  destruct (absorb_counter (core_of S0) (pending S0 ++ concat chunks))
    as ((Ra & Rb) & V & _).
  { split; assumption. }
  pose proof (absorb_rest get_compress (core_of S0)
                          (pending S0 ++ concat chunks)) as (_ & R & _).
  cbv zeta in R. rewrite <- P in R, V. rewrite <- C in Ra, Rb, V.
  assert (L0 : length (pending S0) = buflen S0).
  { destruct W as [HB HL]. unfold pending. rewrite length_firstn. lia. }
  assert (L1 : length (pending St) = buflen St).
  { destruct WS as [HB HL]. unfold pending. rewrite length_firstn. lia. }
  rewrite length_app, L0, L1 in R, V.
  exists St. split; [exact E|]. split; [exact WS|]. split; [exact O|].
  unfold core_of in Ra, Rb, V. unfold core_value in V. cbn [fst snd] in *.
  split; [exact Ra|]. split; [exact Rb|]. split; [exact R|].
  unfold counter_value. rewrite V. f_equal. lia.
Qed.

(** One update advances the counter by the bytes that left the buffer. *)
Lemma counter_after_update (St : tinyblake_blake2b_state) (data : list byte) :
  well_formed St -> in_u64 (t0 St) -> in_u64 (t1 St) ->
  exists St',
    tinyblake_blake2b_update get_compress St (Some data) (length data)
    = (0, St') /\
    counter_value St'
    = (counter_value St
       + (Z.of_nat (buflen St) + Z.of_nat (length data)
          - Z.of_nat (buflen St'))) mod 2 ^ 128.
Proof.
  intros W A B.
  destruct (update_absorb get_compress St data W) as (St' & E & W' & O & C & P).
  exists St'. split; [exact E|].
  destruct (absorb_counter (core_of St) (pending St ++ data)) as (_ & V & _).
  { split; assumption. }
  rewrite <- C, <- P in V. unfold core_value, core_of in V. cbn [fst snd] in V.
  unfold counter_value. rewrite V.
  destruct W as [HB HL], W' as [HB' HL'].
  rewrite length_app. unfold pending. rewrite !length_firstn.
  f_equal. lia.
Qed.

End Dispatch.

(** With the tallying backend, word 0 of the chaining value after
    [absorb] has grown by the bytes that left the pending string. *)
Lemma absorb_tally (c : core) (data : list byte) :
  w (fst (fst (fst (absorb compress_tally c data)))) 0
  = w (fst (fst c)) 0
    + (Z.of_nat (length data)
       - Z.of_nat (length (snd (absorb compress_tally c data)))).
Proof.
  apply absorb_induction with
    (P := fun c data r =>
            w (fst (fst (fst r))) 0
            = w (fst (fst c)) 0
              + (Z.of_nat (length data) - Z.of_nat (length (snd r)))).
  - intros c0 d _. cbn [fst snd]. lia.
  - intros [[hh a] b] d r Hgt IH. rewrite IH, length_skipn.
    unfold absorb_block, compress_tally. cbn [fst snd w nth].
    rewrite length_firstn. unfold w. lia.
Qed.

(** With the tallying backend, a run of updates raises the tally by the
    bytes that left the buffer. *)
Lemma tally_after_chunks (S0 : tinyblake_blake2b_state)
      (chunks : list (list byte)) :
  well_formed S0 ->
  exists Stt,
    update_chunks compress_tally S0 chunks = (0, Stt) /\
    w (h Stt) 0 - w (h S0) 0
    = Z.of_nat (buflen S0) + Z.of_nat (length (concat chunks))
      - Z.of_nat (buflen Stt).
Proof.
  intros W.
  destruct (update_chunks_absorb compress_tally chunks S0 W)
    as (Stt & E & WS & _ & C & P).
  exists Stt. split; [exact E|].
  pose proof (absorb_tally (core_of S0) (pending S0 ++ concat chunks)) as T.
  rewrite <- C, <- P in T. unfold core_of in T. cbn [fst snd] in T.
  destruct W as [HB HL], WS as [HB' HL']. unfold pending in T.
  rewrite length_app, !length_firstn in T. lia.
Qed.

End CounterClaims.

(* ===================================================================== *)
(** ** Constant-time equality *)
(* ===================================================================== *)

Module ConstantTimeClaims.

(** The accumulator stays zero exactly while every visited pair of bytes
    agrees. *)
Lemma accumulate_from (pa pb : list byte) (len : nat) :
  forall (start : nat) (diff : byte),
  fold_left (fun diff i => byte_or diff (byte_xor (rd pa i) (rd pb i)))
            (seq start len) diff = x00
  <-> diff = x00 /\
      forall i, (start <= i < start + len)%nat -> rd pa i = rd pb i.
Proof.
  induction len as [|len IH]; intros start diff; cbn [seq fold_left].
  - split; [intros ->; split; [reflexivity|intros i Hi; lia]|intros [H _]; exact H].
  - rewrite IH, byte_or_zero, byte_xor_zero. split.
    + intros [[Hd Hs] Hrest]. split; [exact Hd|].
      intros i Hi. destruct (Nat.eq_dec i start) as [->|Hne]; [exact Hs|].
      apply Hrest. lia.
    + intros [Hd Hall]. split; [split; [exact Hd|apply Hall; lia]|].
      intros i Hi. apply Hall. lia.
Qed.

Lemma firstn_eq_pointwise (n : nat) : forall (a b : list byte),
  (n <= length a)%nat -> (n <= length b)%nat ->
  (firstn n a = firstn n b <-> forall i, (i < n)%nat -> rd a i = rd b i).
Proof.
  induction n as [|n IH]; intros a b Ha Hb.
  - cbn. split; [intros _ i Hi; lia|reflexivity].
  - destruct a as [|x a]; [cbn in Ha; lia|].
    destruct b as [|y b]; [cbn in Hb; lia|].
    cbn [firstn length] in *. split.
    + intros E. injection E as Exy Erest. intros [|i] Hi; [exact Exy|].
      unfold rd. cbn [nth].
      apply (proj1 (IH a b ltac:(lia) ltac:(lia)) Erest). lia.
    + intros Hall. f_equal; [exact (Hall 0%nat ltac:(lia))|].
      apply (IH a b ltac:(lia) ltac:(lia)). intros i Hi.
      exact (Hall (S i) ltac:(lia)).
Qed.

(** C9.  For two regions of at least [n] bytes,
    [tinyblake_constant_time_eq] returns 1 exactly when their first [n]
    bytes are equal and 0 otherwise; with [n = 0] it returns 1. *)
Theorem constant_time_eq_correct (a b : list byte) (n : nat) :
  (n <= length a)%nat -> (n <= length b)%nat ->
  (tinyblake_constant_time_eq a b n = 1 <-> firstn n a = firstn n b) /\
  (tinyblake_constant_time_eq a b n = 1 \/ tinyblake_constant_time_eq a b n = 0) /\
  tinyblake_constant_time_eq a b 0 = 1.
Proof.
  intros Ha Hb. unfold tinyblake_constant_time_eq.
  split; [|split; [|reflexivity]].
  - rewrite (firstn_eq_pointwise n a b Ha Hb).
    pose proof (accumulate_from a b n 0 x00) as Hacc.
    fold (accumulate_diff a b n) in Hacc.
    destruct (Z.eqb_spec (Z_of_byte (accumulate_diff a b n)) 0) as [Hz|Hnz].
    + apply Z_of_byte_zero in Hz. split; [intros _|reflexivity].
      intros i Hi. apply (proj2 (proj1 Hacc Hz)). lia.
    + split; [discriminate|]. intros Hall. exfalso. apply Hnz.
      apply Z_of_byte_zero. apply Hacc. split; [reflexivity|].
      intros i Hi. apply Hall. lia.
  - destruct (Z_of_byte (accumulate_diff a b n) =? 0); auto.
Qed.

Lemma constant_time_eq_correct_witness :
  ((3 <= length (ascii_bytes "abcd"))%nat /\
   (3 <= length (ascii_bytes "abcx"))%nat) /\
  tinyblake_constant_time_eq (ascii_bytes "abcd") (ascii_bytes "abcx") 3 = 1 /\
  tinyblake_constant_time_eq (ascii_bytes "abcd") (ascii_bytes "abcx") 4 = 0.
Proof.
  assert (Ha : (3 <= length (ascii_bytes "abcd"))%nat) by (cbn; lia).
  assert (Hb : (3 <= length (ascii_bytes "abcx"))%nat) by (cbn; lia).
  split; [split; assumption|]. split; [|reflexivity].
  apply (proj1 (constant_time_eq_correct (ascii_bytes "abcd")
                  (ascii_bytes "abcx") 3 Ha Hb)).
  reflexivity.
Defined.

End ConstantTimeClaims.

(* ===================================================================== *)
(** ** When the BLAKE2b calls succeed *)
(* ===================================================================== *)

Module Blake2bSuccess.

Section Dispatch.

Variable get_compress : blake2b_compress_fn.

Lemma update_tail_outlen (St : tinyblake_blake2b_state) (pin : list byte)
      (n : nat) :
  outlen (snd (update_tail get_compress St pin n)) = outlen St.
Proof.
  unfold update_tail.
  pose proof (update_loop_result get_compress n St pin) as R. cbv zeta in R.
  destruct R as (_ & _ & _ & _ & _ & _ & Ro).
  destruct (update_loop get_compress St pin n) as [[St' pin'] n'].
  cbn [fst snd] in *. destruct (0 <? n')%nat; cbn; exact Ro.
Qed.

(** An update on a state whose residual length is in range succeeds
    whenever its input pointer is not null. *)
Lemma update_succeeds (St : tinyblake_blake2b_state) (pin : list byte)
      (n : nat) :
  (buflen St <= 128)%nat ->
  fst (tinyblake_blake2b_update get_compress St (Some pin) n) = 0 /\
  (buflen (snd (tinyblake_blake2b_update get_compress St (Some pin) n))
   <= 128)%nat /\
  outlen (snd (tinyblake_blake2b_update get_compress St (Some pin) n))
  = outlen St.
Proof.
  intros Hbl.
  destruct (Blake2bClaims.update_residual get_compress St (Some pin) n)
    as [Hfail|(H0 & H1 & _)].
  - exfalso. unfold tinyblake_blake2b_update in Hfail.
    apply Nat.ltb_ge in Hbl. rewrite Hbl in Hfail.
    destruct (n =? 0)%nat; [discriminate Hfail|].
    destruct (0 <? buflen St)%nat.
    + destruct (128 - buflen St <? n)%nat; [|discriminate Hfail].
      match type of Hfail with update_tail _ ?s ?p ?k = _ =>
        destruct (Blake2bClaims.update_tail_result get_compress s p k)
          as (T & _); [cbn; lia|]
      end.
      rewrite Hfail in T. discriminate T.
    + destruct (Blake2bClaims.update_tail_result get_compress St pin n)
        as (T & _); [apply Nat.ltb_ge in Hbl; lia|].
      rewrite Hfail in T. discriminate T.
  - split; [exact H0|]. split; [exact H1|].
    unfold tinyblake_blake2b_update.
    destruct (128 <? buflen St)%nat; [reflexivity|].
    destruct (n =? 0)%nat; [reflexivity|].
    destruct (0 <? buflen St)%nat.
    + destruct (128 - buflen St <? n)%nat; [|reflexivity].
      rewrite update_tail_outlen. unfold compress_block.
      cbn [outlen set_buflen set_h].
      rewrite (proj2 (proj2 (proj2 (increment_counter_fields _ _)))).
      reflexivity.
    + apply update_tail_outlen.
Qed.

(** An update with a null input pointer fails exactly when its length is
    not zero, and changes nothing either way. *)
Lemma update_null (St : tinyblake_blake2b_state) (n : nat) :
  (buflen St <= 128)%nat ->
  tinyblake_blake2b_update get_compress St None n
  = (if (n =? 0)%nat then 0 else -1, St).
Proof.
  intros Hbl. unfold tinyblake_blake2b_update.
  apply Nat.ltb_ge in Hbl. rewrite Hbl.
  destruct (n =? 0)%nat; reflexivity.
Qed.

(** A final with a non-null output of enough capacity succeeds. *)
Lemma final_succeeds (St : tinyblake_blake2b_state) (o : list byte)
      (cap : nat) :
  (outlen St <= cap)%nat ->
  exists o',
    tinyblake_blake2b_final get_compress St (Some o) cap
    = (0, zero_state, Some o') /\ length o' = length o.
Proof.
  intros Hcap. unfold tinyblake_blake2b_final.
  apply Nat.ltb_ge in Hcap. rewrite Hcap.
  eexists. split; [reflexivity|]. apply memcpy_length.
Qed.

(** The unkeyed one-shot call with non-null buffers and a digest length
    in 1..64 succeeds and keeps the size of the output region. *)
Lemma oneshot_succeeds (o : list byte) (n : nat) (data : list byte)
      (len : nat) :
  (1 <= n <= 64)%nat ->
  exists o',
    tinyblake_blake2b get_compress (Some o) n (Some data) len None 0
    = (0, Some o') /\ length o' = length o.
Proof.
  intros Hn. unfold tinyblake_blake2b.
  change (0 <? 0)%nat with false. cbv iota.
  destruct (init_succeeds zero_state n Hn) as (Ei & W & Bl & Ol & _).
  rewrite Ei. cbn [Z.eqb negb].
  destruct (update_succeeds (fresh_state n) data len) as (U0 & U1 & U2);
    [lia|].
  destruct (tinyblake_blake2b_update get_compress (fresh_state n)
              (Some data) len) as [rc St]. cbn [fst snd] in *. subst rc.
  cbn [Z.eqb negb].
  destruct (final_succeeds St o n) as (o' & E & L); [lia|].
  rewrite E. exists o'. split; [reflexivity|exact L].
Qed.

End Dispatch.

End Blake2bSuccess.
Import Blake2bSuccess.

(* ===================================================================== *)
(** ** HMAC: initialisation and the hasher's reset *)
(* ===================================================================== *)

Module HmacClaims.

Section Dispatch.

Variable get_compress : blake2b_compress_fn.

Lemma key_block_length (key : list byte) (keylen : nat) :
  length (key_block get_compress key keylen) = 128%nat.
Proof.
  unfold key_block. destruct (128 <? keylen)%nat.
  - destruct (oneshot_succeeds get_compress (zeros 128) 64 key keylen)
      as (o' & E & L); [lia|].
    rewrite E. cbn [snd]. rewrite L. apply zeros_length.
  - rewrite memcpy_length. apply zeros_length.
Qed.

(** [derive_pads] never fails on a non-empty key, and its pads are those
    of the key block. *)
Lemma derive_pads_of_key (key : list byte) (keylen : nat)
      (ipad opad : list byte) :
  (1 <= keylen)%nat ->
  derive_pads get_compress key keylen ipad opad
  = (0, fst (pads_from (key_block get_compress key keylen) ipad opad),
        snd (pads_from (key_block get_compress key keylen) ipad opad)).
Proof.
  intros Hk. unfold derive_pads, key_block, HMAC_BLOCK.
  destruct (Nat.ltb_spec 128 keylen) as [Hlong|Hshort].
  - destruct (oneshot_succeeds get_compress (zeros 128) 64 key keylen)
      as (o' & E & L); [lia|].
    rewrite E. cbn [snd Z.eqb negb]. fold HMAC_BLOCK.
    fold (pads_from o' ipad opad).
    destruct (pads_from o' ipad opad). reflexivity.
  - assert (Hp : (0 <? keylen)%nat = true) by (apply Nat.ltb_lt; lia).
    rewrite Hp. cbn [Z.eqb negb]. fold HMAC_BLOCK.
    fold (pads_from (memcpy (zeros 128) 0 key keylen) ipad opad).
    destruct (pads_from (memcpy (zeros 128) 0 key keylen) ipad opad).
    reflexivity.
Qed.

(** A 128-byte block is its own key block. *)
Lemma key_block_idempotent (kb : list byte) :
  length kb = 128%nat -> key_block get_compress kb 128 = kb.
Proof.
  intros L. unfold key_block. change (128 <? 128)%nat with false. cbv iota.
  rewrite memcpy_spec by (rewrite ?zeros_length; lia).
  rewrite (@firstn_all2 _ 128 kb) by lia.
  rewrite skipn_all2 by (rewrite zeros_length; lia).
  rewrite firstn_O. cbn [app]. apply app_nil_r.
Qed.

Lemma init_and_absorb_ok (St : tinyblake_blake2b_state) (pad : list byte) :
  init_and_absorb get_compress St pad = (false, absorbed get_compress pad) /\
  (buflen (absorbed get_compress pad) <= 128)%nat /\
  outlen (absorbed get_compress pad) = 64%nat.
Proof.
  unfold init_and_absorb, absorbed.
  destruct (init_succeeds St 64 ltac:(lia)) as (Ei & _ & Bl & Ol & _).
  rewrite Ei. cbn [Z.eqb negb].
  destruct (update_succeeds get_compress (fresh_state 64) pad 128)
    as (U0 & U1 & U2); [lia|].
  destruct (tinyblake_blake2b_update get_compress (fresh_state 64)
              (Some pad) 128) as [rc S']. cbn [fst snd] in *. subst rc.
  cbn [Z.eqb negb]. rewrite U2, Ol. auto.
Qed.

(** HMAC init succeeds on every non-null, non-empty key, whatever the
    state object held, and leaves the two absorbed pads. *)
Lemma hmac_init_ok (St : tinyblake_hmac_state) (key : list byte)
      (keylen : nat) :
  (1 <= keylen)%nat ->
  tinyblake_hmac_init get_compress St (Some key) keylen
  = (0, mk_hmac
          (absorbed get_compress (fst (pads_from (key_block get_compress key keylen)
                                    (zeros 128) (zeros 128))))
          (absorbed get_compress (snd (pads_from (key_block get_compress key keylen)
                                    (zeros 128) (zeros 128))))).
Proof.
  intros Hk. unfold tinyblake_hmac_init.
  assert (Hz : (keylen =? 0)%nat = false) by (apply Nat.eqb_neq; lia).
  rewrite Hz, (derive_pads_of_key key keylen _ _ Hk). cbn [Z.eqb negb].
  destruct (init_and_absorb_ok (inner St)
              (fst (pads_from (key_block get_compress key keylen) (zeros 128) (zeros 128))))
    as (E1 & _).
  rewrite E1. cbn [outer inner].
  destruct (init_and_absorb_ok (outer St)
              (snd (pads_from (key_block get_compress key keylen) (zeros 128) (zeros 128))))
    as (E2 & _).
  rewrite E2. reflexivity.
Qed.

(** HMAC init refuses a null key and a zero key length and leaves the
    state as it was. *)
Lemma hmac_init_refuses (St : tinyblake_hmac_state)
      (key : option (list byte)) (keylen : nat) :
  key = None \/ keylen = 0%nat ->
  tinyblake_hmac_init get_compress St key keylen = (-1, St).
Proof.
  intros [->| ->]; unfold tinyblake_hmac_init; [reflexivity|].
  destruct key; reflexivity.
Qed.

Lemma hmac_init_ready (St : tinyblake_hmac_state) (key : list byte)
      (keylen : nat) :
  (1 <= keylen)%nat ->
  fst (tinyblake_hmac_init get_compress St (Some key) keylen) = 0 /\
  hmac_ready (snd (tinyblake_hmac_init get_compress St (Some key) keylen)).
Proof.
  intros Hk. rewrite (hmac_init_ok St key keylen Hk). cbn [fst snd].
  split; [reflexivity|]. unfold hmac_ready. cbn [inner outer].
  destruct (init_and_absorb_ok zero_state
              (fst (pads_from (key_block get_compress key keylen) (zeros 128) (zeros 128))))
    as (_ & A & B).
  destruct (init_and_absorb_ok zero_state
              (snd (pads_from (key_block get_compress key keylen) (zeros 128) (zeros 128))))
    as (_ & C & D).
  auto.
Qed.

Lemma hmac_update_ok (st : tinyblake_hmac_state) (data : list byte)
      (n : nat) :
  hmac_ready st ->
  fst (tinyblake_hmac_update get_compress st (Some data) n) = 0 /\
  hmac_ready (snd (tinyblake_hmac_update get_compress st (Some data) n)).
Proof.
  intros (A & B & C & D). unfold tinyblake_hmac_update.
  destruct (update_succeeds get_compress (inner st) data n A)
    as (U0 & U1 & U2).
  destruct (tinyblake_blake2b_update get_compress (inner st) (Some data) n)
    as [rc S']. cbn [fst snd] in *.
  split; [exact U0|]. unfold hmac_ready. cbn [inner outer].
  rewrite U2. auto.
Qed.

Lemma hmac_update_null (st : tinyblake_hmac_state) (n : nat) :
  hmac_ready st ->
  tinyblake_hmac_update get_compress st None n
  = (if (n =? 0)%nat then 0 else -1, st).
Proof.
  intros (A & _). unfold tinyblake_hmac_update.
  rewrite (update_null get_compress (inner st) n A).
  destruct st; reflexivity.
Qed.

Lemma hmac_final_ok (st : tinyblake_hmac_state) (o : list byte) (cap : nat) :
  hmac_ready st -> (64 <= cap)%nat ->
  exists o',
    tinyblake_hmac_final get_compress st (Some o) cap
    = (0, zero_hmac_state, Some o') /\ length o' = length o.
Proof.
  intros (A & B & C & D) Hcap. unfold tinyblake_hmac_final.
  assert (Hg : (cap <? 64)%nat = false) by (apply Nat.ltb_ge; exact Hcap).
  rewrite Hg.
  destruct (final_succeeds get_compress (inner st) (zeros 64) 64)
    as (ih & E1 & _); [lia|].
  rewrite E1. cbn [Z.eqb negb].
  destruct (update_succeeds get_compress (outer st) ih 64 C)
    as (U0 & U1 & U2).
  destruct (tinyblake_blake2b_update get_compress (outer st) (Some ih) 64)
    as [rc S']. cbn [fst snd] in *. subst rc. cbn [Z.eqb negb].
  destruct (final_succeeds get_compress S' o cap) as (o' & E2 & L); [lia|].
  rewrite E2. exists o'. split; [reflexivity|exact L].
Qed.

Lemma hasher_updates_ok (chunks : list (list byte)) : forall hs : hasher,
  hmac_ready (state_ hs) ->
  exists hs',
    hasher_updates get_compress hs chunks = Returns hs' /\
    hmac_ready (state_ hs') /\ key_pad_ hs' = key_pad_ hs.
Proof.
  induction chunks as [|c rest IH]; intros hs R; cbn [hasher_updates].
  - exists hs. auto.
  - unfold hasher_update.
    destruct (hmac_update_ok (state_ hs) c (length c) R) as (U0 & U1).
    destruct (tinyblake_hmac_update get_compress (state_ hs) (Some c)
                (length c)) as [rc st']. cbn [fst snd] in *. subst rc.
    cbn [Z.eqb negb and_then].
    destruct (IH (mk_hasher st' (key_pad_ hs)) U1) as (hs' & E & R' & K).
    exists hs'. auto.
Qed.

(** The digest that a final writes does not depend on the output
    buffer. *)
Lemma encode_h_length (hh : list Z) : length (encode_h hh) = 64%nat.
Proof.
  unfold encode_h.
  generalize (zeros_length 64). generalize (zeros 64). generalize (seq 0 8).
  intros l. induction l as [|i l IH]; intros b Hb; cbn [fold_left].
  - exact Hb.
  - apply IH. rewrite memcpy_length. exact Hb.
Qed.

Lemma final_digest (St : tinyblake_blake2b_state) (cap : nat) :
  (outlen St <= cap)%nat ->
  exists d,
    length d = 64%nat /\
    forall o, tinyblake_blake2b_final get_compress St (Some o) cap
              = (0, zero_state, Some (memcpy o 0 d (outlen St))).
Proof.
  intros Hcap. unfold tinyblake_blake2b_final.
  apply Nat.ltb_ge in Hcap. rewrite Hcap.
  pose proof (increment_counter_fields St (Z.of_nat (buflen St)))
    as (_ & _ & _ & Fo).
  set (St1 := increment_counter St (Z.of_nat (buflen St))) in *.
  set (St2 := if (buflen St1 <? 128)%nat
              then set_buf St1 (memset (buf St1) (buflen St1) x00
                                       (128 - buflen St1))
              else St1).
  assert (Ho : outlen (compress_block get_compress St2 (buf St2) true)
               = outlen St).
  { unfold compress_block, St2. destruct (buflen St1 <? 128)%nat;
      cbn [outlen set_h set_buf]; exact Fo. }
  rewrite Ho.
  exists (encode_h (h (compress_block get_compress St2 (buf St2) true))).
  split; [apply encode_h_length|]. intros o. reflexivity.
Qed.

Lemma oneshot_digest (n : nat) (data : list byte) (len : nat) :
  (1 <= n <= 64)%nat ->
  exists d,
    length d = 64%nat /\
    forall o, tinyblake_blake2b get_compress (Some o) n (Some data) len None 0
              = (0, Some (memcpy o 0 d n)).
Proof.
  intros Hn. unfold tinyblake_blake2b.
  change (0 <? 0)%nat with false. cbv iota.
  destruct (init_succeeds zero_state n Hn) as (Ei & W & Bl & Ol & _).
  rewrite Ei. cbn [Z.eqb negb].
  destruct (update_succeeds get_compress (fresh_state n) data len)
    as (U0 & U1 & U2); [lia|].
  destruct (tinyblake_blake2b_update get_compress (fresh_state n)
              (Some data) len) as [rc St]. cbn [fst snd] in *. subst rc.
  cbn [Z.eqb negb].
  destruct (final_digest St n) as (d & L & E); [lia|].
  exists d. split; [exact L|]. intros o. rewrite E, U2, Ol. reflexivity.
Qed.

(** C10.  For every non-empty key: the constructor returns a hasher
    whose key_pad_ is the key zero-padded to 128 bytes, or BLAKE2b-512
    of the key followed by 64 zero bytes when the key is longer than
    128; pad derivation from that block with length 128 gives the pads
    derived from the key; so reset(), from whatever the HMAC state has
    become, restores exactly the constructed hasher, and the MAC of any
    chunked message after reset is the MAC (64 bytes, no exception) that
    a freshly constructed hasher produces. *)
Theorem hasher_reset_equals_fresh (key : list byte)
        (st : tinyblake_hmac_state) (chunks : list (list byte)) :
  (1 <= length key)%nat ->
  exists (hs0 : hasher) (mac : list byte),
    hasher_ctor get_compress (Some key) (length key) = Returns hs0 /\
    ((length key <= 128)%nat ->
     key_pad_ hs0 = key ++ zeros (128 - length key)) /\
    ((128 < length key)%nat ->
     exists d,
       tinyblake_blake2b get_compress (Some (zeros 64)) 64
         (Some key) (length key) None 0 = (0, Some d) /\
       key_pad_ hs0 = d ++ zeros 64) /\
    derive_pads get_compress (key_pad_ hs0) 128 (zeros 128) (zeros 128)
    = derive_pads get_compress key (length key) (zeros 128) (zeros 128) /\
    hasher_reset get_compress (mk_hasher st (key_pad_ hs0)) = Returns hs0 /\
    hasher_mac get_compress
      (hasher_reset get_compress (mk_hasher st (key_pad_ hs0))) chunks
    = hasher_mac get_compress
        (hasher_ctor get_compress (Some key) (length key)) chunks /\
    hasher_mac get_compress
      (hasher_ctor get_compress (Some key) (length key)) chunks
    = Returns mac /\
    length mac = 64%nat.
Proof.
  intros Hk.
  set (kb := key_block get_compress key (length key)).
  assert (Lkb : length kb = 128%nat) by apply key_block_length.
  set (st0 := snd (tinyblake_hmac_init get_compress zero_hmac_state
                     (Some key) (length key))).
  assert (Ector : hasher_ctor get_compress (Some key) (length key)
                  = Returns (mk_hasher st0 kb)).
  { unfold hasher_ctor.
    assert (Hz : (length key =? 0)%nat = false) by (apply Nat.eqb_neq; lia).
    rewrite Hz. fold (key_block get_compress key (length key)). fold kb.
    unfold st0. rewrite (hmac_init_ok zero_hmac_state key (length key) Hk).
    reflexivity. }
  assert (Epads : derive_pads get_compress kb 128 (zeros 128) (zeros 128)
                  = derive_pads get_compress key (length key)
                      (zeros 128) (zeros 128)).
  { rewrite (derive_pads_of_key kb 128) by lia.
    rewrite (derive_pads_of_key key (length key)) by lia.
    rewrite (key_block_idempotent kb Lkb). reflexivity. }
  assert (Ereset : hasher_reset get_compress (mk_hasher st kb)
                   = Returns (mk_hasher st0 kb)).
  { unfold hasher_reset. cbn [state_ key_pad_].
    rewrite (hmac_init_ok st kb 128) by lia.
    rewrite (key_block_idempotent kb Lkb).
    unfold st0. rewrite (hmac_init_ok zero_hmac_state key (length key) Hk).
    reflexivity. }
  assert (R0 : hmac_ready st0)
    by (apply (hmac_init_ready zero_hmac_state key (length key) Hk)).
  assert (Emac : exists mac,
             hasher_mac get_compress (Returns (mk_hasher st0 kb)) chunks
             = Returns mac /\ length mac = 64%nat).
  { unfold hasher_mac. cbn [and_then].
    destruct (hasher_updates_ok chunks (mk_hasher st0 kb) R0)
      as (hs' & E & R' & _).
    rewrite E. cbn [and_then]. unfold hasher_final_.
    destruct (hmac_final_ok (state_ hs') (zeros 64) 64 R') as (o' & Ef & L);
      [lia|].
    rewrite Ef. cbn [Z.eqb negb and_then snd]. exists o'.
    split; [reflexivity|]. rewrite L. apply zeros_length. }
  destruct Emac as (mac & Emac & Lmac).
  exists (mk_hasher st0 kb), mac. cbn [key_pad_].
  split; [exact Ector|].
  split.
  { intros Hshort. unfold kb, key_block.
    assert (Hg : (128 <? length key)%nat = false) by (apply Nat.ltb_ge; lia).
    rewrite Hg. rewrite memcpy_spec by (rewrite ?zeros_length; lia).
    rewrite firstn_O, firstn_all. cbn [app Nat.add]. f_equal.
    apply skipn_zeros. }
  split.
  { intros Hlong. unfold kb, key_block.
    apply Nat.ltb_lt in Hlong. rewrite Hlong.
    destruct (oneshot_digest 64 key (length key)) as (d & Ld & Ed); [lia|].
    exists d. rewrite (Ed (zeros 64)), (Ed (zeros 128)). cbn [snd].
    rewrite !memcpy_spec by (rewrite ?zeros_length; lia).
    rewrite !firstn_O. cbn [app].
    rewrite (@firstn_all2 _ 64 d) by lia.
    rewrite !skipn_zeros. cbn [Nat.add Nat.sub zeros repeat].
    rewrite app_nil_r. split; reflexivity. }
  split; [exact Epads|]. split; [exact Ereset|].
  rewrite Ereset, Ector. split; [reflexivity|]. split; [exact Emac|exact Lmac].
Qed.

End Dispatch.

Lemma hasher_reset_equals_fresh_witness :
  (1 <= length (ascii_bytes "key"))%nat /\
  exists hs0 : hasher,
    hasher_ctor blake2b_compress_portable (Some (ascii_bytes "key")) 3
    = Returns hs0 /\
    hasher_reset blake2b_compress_portable
      (mk_hasher zero_hmac_state (key_pad_ hs0)) = Returns hs0.
Proof.
  assert (H : (1 <= length (ascii_bytes "key"))%nat) by (cbn; lia).
  split; [exact H|].
  destruct (hasher_reset_equals_fresh blake2b_compress_portable
              (ascii_bytes "key") zero_hmac_state [] H)
    as (hs0 & mac & E & _ & _ & _ & R & _).
  exists hs0. split; [exact E|exact R].
Defined.

(** The known answer of section 8 (key "key", the fox sentence), from a
    hasher that was constructed and then reset, fed in two chunks. *)
Example hmac_known_answer_after_reset :
  hasher_mac blake2b_compress_portable
    (and_then (hasher_ctor blake2b_compress_portable
                 (Some (ascii_bytes "key")) 3)
              (hasher_reset blake2b_compress_portable))
    [ascii_bytes "The quick brown fox "; ascii_bytes "jumps over the lazy dog"]
  = Returns (bytes_of_hex
      "92294f92c0dfb9b00ec9ae8bd94d7e7d8a036b885a499f149dfe2fd2199394aaaf6b8894a1730cccb2cd050f9bcf5062a38b51b0dab33207f8ef35ae2c9df51b").
Proof. vm_compute. reflexivity. Qed.

End HmacClaims.

(* ===================================================================== *)
(** ** PBKDF2: when the derivation fails *)
(* ===================================================================== *)

Module Pbkdf2Claims.

Import HmacClaims.

(** A password is refused by HMAC init or is a non-empty region. *)
Lemma classic_password (password : option (list byte)) (passlen : nat) :
  (password = None \/ passlen = 0%nat) \/
  (exists pw, password = Some pw /\ (1 <= passlen)%nat).
Proof.
  destruct password as [pw|]; [|left; left; reflexivity].
  destruct passlen as [|k]; [left; right; reflexivity|].
  right. exists pw. split; [reflexivity|lia].
Qed.

Section Dispatch.

Variable get_compress : blake2b_compress_fn.

Section Derive.

Variables (password : option (list byte)) (passlen : nat).
Variables (salt : option (list byte)) (saltlen : nat).
Variable rounds : Z.

Lemma pbkdf2_loop_step (dk : list byte) (off r : nat) (block_idx : Z) :
  pbkdf2_loop get_compress password passlen salt saltlen rounds
              dk off (S r) block_idx
  = if negb (fst (derive_block get_compress password passlen salt saltlen
                               rounds block_idx) =? 0)
    then (-1, dk)
    else pbkdf2_loop get_compress password passlen salt saltlen rounds
           (memcpy dk off
              (snd (derive_block get_compress password passlen salt saltlen
                                 rounds block_idx))
              (cplen_of (S r)))
           (off + cplen_of (S r))%nat (S r - cplen_of (S r))%nat
           (u32 (block_idx + 1)).
Proof.
  rewrite pbkdf2_loop_equation_2. unfold pbkdf2_loop_unfold_clause_2.
  destruct (derive_block get_compress password passlen salt saltlen rounds
                         block_idx) as [rc t].
  cbn [fst snd]. destruct (negb (rc =? 0)); reflexivity.
Qed.

Lemma cplen_of_bounds (r : nat) :
  (1 <= cplen_of (S r) <= S r)%nat.
Proof.
  unfold cplen_of, HLEN. destruct (Nat.ltb_spec (S r) 64); lia.
Qed.

(** When no block can fail, the loop returns 0 and keeps the size of the
    output region. *)
Lemma pbkdf2_loop_succeeds :
  (forall idx, fst (derive_block get_compress password passlen salt saltlen
                                 rounds idx) = 0) ->
  forall (dk_remaining : nat) (dk : list byte) (off : nat) (idx : Z),
    fst (pbkdf2_loop get_compress password passlen salt saltlen rounds
                     dk off dk_remaining idx) = 0 /\
    length (snd (pbkdf2_loop get_compress password passlen salt saltlen rounds
                             dk off dk_remaining idx)) = length dk.
Proof.
  intros Hok dk_remaining.
  induction dk_remaining as [n IH] using lt_wf_ind. intros dk off idx.
  destruct n as [|r].
  - rewrite pbkdf2_loop_equation_1. cbn. auto.
  - rewrite pbkdf2_loop_step, (Hok idx). cbn [Z.eqb negb].
    pose proof (cplen_of_bounds r) as Hc.
    destruct (IH (S r - cplen_of (S r))%nat ltac:(lia)
                 (memcpy dk off
                    (snd (derive_block get_compress password passlen salt
                                       saltlen rounds idx))
                    (cplen_of (S r)))
                 (off + cplen_of (S r))%nat (u32 (idx + 1))) as [A B].
    split; [exact A|]. rewrite B. apply memcpy_length.
Qed.

(** When the first block fails, the loop returns -1 and the output
    region is as it was. *)
Lemma pbkdf2_loop_fails (dk : list byte) (off r : nat) (idx : Z) :
  fst (derive_block get_compress password passlen salt saltlen rounds idx)
  = -1 ->
  pbkdf2_loop get_compress password passlen salt saltlen rounds
              dk off (S r) idx = (-1, dk).
Proof.
  intros Hf. rewrite pbkdf2_loop_step, Hf. reflexivity.
Qed.

Lemma rounds_loop_ok (pw : list byte) :
  password = Some pw -> (1 <= passlen)%nat ->
  forall (n : nat) (u t : list byte),
    fst (fst (rounds_loop get_compress password passlen n u t)) = 0.
Proof.
  intros Hpw Hlen n. induction n as [|n IH]; intros u t; cbn [rounds_loop].
  - reflexivity.
  - rewrite Hpw.
    destruct (hmac_init_ready get_compress zero_hmac_state pw passlen Hlen)
      as [I0 I1].
    destruct (tinyblake_hmac_init get_compress zero_hmac_state (Some pw)
                passlen) as [rc st]. cbn [fst snd] in *. subst rc.
    cbn [Z.eqb negb].
    destruct (hmac_update_ok get_compress st u 64 I1) as [U0 U1].
    destruct (tinyblake_hmac_update get_compress st (Some u) 64)
      as [rc st']. cbn [fst snd] in *. subst rc. cbn [Z.eqb negb].
    destruct (hmac_final_ok get_compress st' u 64 U1) as (o' & E & _); [lia|].
    rewrite E. cbn [Z.eqb negb]. rewrite <- Hpw. apply IH.
Qed.

(** A block succeeds when the password is a non-null, non-empty region
    and the salt is not a null pointer with a non-zero length. *)
Lemma derive_block_ok (pw : list byte) (idx : Z) :
  password = Some pw -> (1 <= passlen)%nat ->
  (salt <> None \/ saltlen = 0%nat) ->
  fst (derive_block get_compress password passlen salt saltlen rounds idx) = 0.
Proof.
  intros Hpw Hlen Hsalt. unfold derive_block. rewrite Hpw.
  destruct (hmac_init_ready get_compress zero_hmac_state pw passlen Hlen)
    as [I0 I1].
  destruct (tinyblake_hmac_init get_compress zero_hmac_state (Some pw)
              passlen) as [rc st]. cbn [fst snd] in *. subst rc.
  cbn [Z.eqb negb].
  assert (Hs : fst (tinyblake_hmac_update get_compress st salt saltlen) = 0 /\
               hmac_ready (snd (tinyblake_hmac_update get_compress st salt
                                                      saltlen))).
  { destruct salt as [s|].
    - apply hmac_update_ok. exact I1.
    - destruct Hsalt as [Hs|Hs]; [congruence|]. subst saltlen.
      rewrite (hmac_update_null get_compress st 0 I1). cbn. auto. }
  destruct Hs as [S0 S1].
  destruct (tinyblake_hmac_update get_compress st salt saltlen) as [rc st1].
  cbn [fst snd] in *. subst rc. cbn [Z.eqb negb].
  destruct (hmac_update_ok get_compress st1 (store_be32 idx) 4 S1) as [B0 B1].
  destruct (tinyblake_hmac_update get_compress st1 (Some (store_be32 idx)) 4)
    as [rc st2]. cbn [fst snd] in *. subst rc. cbn [Z.eqb negb].
  destruct (hmac_final_ok get_compress st2 (zeros 64) 64 B1) as (o' & E & _);
    [lia|].
  rewrite E. cbn [Z.eqb negb].
  rewrite <- Hpw.
  pose proof (rounds_loop_ok pw Hpw Hlen (Z.to_nat (rounds - 1))
                (contents (zeros 64) (Some o'))
                (memcpy (zeros 64) 0 (contents (zeros 64) (Some o')) 64)) as R.
  destruct (rounds_loop get_compress password passlen (Z.to_nat (rounds - 1))
              (contents (zeros 64) (Some o'))
              (memcpy (zeros 64) 0 (contents (zeros 64) (Some o')) 64))
    as [[rc u'] t']. exact R.
Qed.

(** A block fails when HMAC init refuses the password, or when the salt
    is a null pointer with a non-zero length. *)
Lemma derive_block_fails (idx : Z) :
  (password = None \/ passlen = 0%nat) \/ (salt = None /\ saltlen <> 0%nat) ->
  fst (derive_block get_compress password passlen salt saltlen rounds idx) = -1.
Proof.
  intros Hbad. unfold derive_block.
  destruct (classic_password password passlen) as [Hrefuse|(pw & Hpw & Hlen)].
  - rewrite (hmac_init_refuses get_compress zero_hmac_state password passlen
               Hrefuse). reflexivity.
  - destruct Hbad as [[Hn|Hz]|[Hs Hl]]; [congruence|lia|].
    rewrite Hpw.
    destruct (hmac_init_ready get_compress zero_hmac_state pw passlen Hlen)
      as [I0 I1].
    destruct (tinyblake_hmac_init get_compress zero_hmac_state (Some pw)
                passlen) as [rc st]. cbn [fst snd] in *. subst rc.
    cbn [Z.eqb negb]. rewrite Hs.
    rewrite (hmac_update_null get_compress st saltlen I1).
    apply Nat.eqb_neq in Hl. rewrite Hl. reflexivity.
Qed.

End Derive.

(** C8 (as the code has it).  With a non-null output pointer,
    [tinyblake_pbkdf2] returns -1 and leaves the output region as it was
    when outlen = 0, or rounds = 0, or outlen > (2^32 - 1) * 64, or the
    password is null or empty (HMAC init refuses exactly these), or the
    salt is a null pointer with a non-zero length; for all other
    arguments it returns 0 and the output region keeps its size.  With a
    null output pointer it returns -1. *)
Theorem pbkdf2_fails_exactly_when
        (dk : list byte) (outlen_arg : nat)
        (password : option (list byte)) (passlen : nat)
        (salt : option (list byte)) (saltlen : nat) (rounds : Z) :
  let r := tinyblake_pbkdf2 get_compress (Some dk) outlen_arg
             password passlen salt saltlen rounds in
  let refused :=
    outlen_arg = 0%nat \/ rounds = 0 \/
    Z.of_nat outlen_arg > (2 ^ 32 - 1) * 64 \/
    (password = None \/ passlen = 0%nat) \/
    (salt = None /\ saltlen <> 0%nat) in
  (refused -> r = (-1, Some dk)) /\
  (~ refused ->
   fst r = 0 /\ exists dk', snd r = Some dk' /\ length dk' = length dk) /\
  (refused \/ ~ refused) /\
  (fst (tinyblake_hmac_init get_compress zero_hmac_state password passlen) = -1
   <-> password = None \/ passlen = 0%nat) /\
  tinyblake_pbkdf2 get_compress None outlen_arg
    password passlen salt saltlen rounds = (-1, None).
Proof.
  cbv zeta. unfold tinyblake_pbkdf2.
  change (UINT32_MAX * Z.of_nat HLEN) with ((2 ^ 32 - 1) * 64).
  split; [|split; [|split; [|split; [|reflexivity]]]].
  - (* refused arguments *)
    intros Href.
    destruct (Nat.eqb_spec outlen_arg 0) as [Ho|Ho]; [reflexivity|].
    destruct (Z.eqb_spec rounds 0) as [Hr|Hr]; [reflexivity|].
    destruct (Z.gtb_spec (Z.of_nat outlen_arg) ((2 ^ 32 - 1) * 64))
      as [Hbig|Hfit]; [reflexivity|].
    destruct Href as [H|[H|[H|H]]]; [congruence|congruence|lia|].
    destruct outlen_arg as [|r]; [congruence|].
    rewrite pbkdf2_loop_fails; [reflexivity|].
    apply derive_block_fails. exact H.
  - (* accepted arguments *)
    intros Hacc.
    destruct (Nat.eqb_spec outlen_arg 0) as [Ho|Ho];
      [exfalso; apply Hacc; auto|].
    destruct (Z.eqb_spec rounds 0) as [Hr|Hr];
      [exfalso; apply Hacc; auto|].
    destruct (Z.gtb_spec (Z.of_nat outlen_arg) ((2 ^ 32 - 1) * 64))
      as [Hbig|Hfit]; [exfalso; apply Hacc; right; right; left; lia|].
    destruct (classic_password password passlen) as [Hp|(pw & Hpw & Hlen)];
      [exfalso; apply Hacc; auto|].
    assert (Hsalt : salt <> None \/ saltlen = 0%nat).
    { destruct salt as [s|]; [left; discriminate|].
      destruct (Nat.eq_dec saltlen 0) as [Hz|Hnz]; [right; exact Hz|].
      exfalso. apply Hacc. right. right. right. right. auto. }
    destruct (pbkdf2_loop_succeeds password passlen salt saltlen rounds
                (fun idx => derive_block_ok password passlen salt saltlen
                              rounds pw idx Hpw Hlen Hsalt)
                outlen_arg dk 0%nat 1) as [A B].
    destruct (pbkdf2_loop get_compress password passlen salt saltlen rounds
                          dk 0 outlen_arg 1) as [rc dk'].
    cbn [fst snd] in *. split; [exact A|]. exists dk'. auto.
  - (* the refusal condition is decidable *)
    destruct (Nat.eq_dec outlen_arg 0) as [Ho|Ho]; [left; auto|].
    destruct (Z.eq_dec rounds 0) as [Hr|Hr]; [left; auto|].
    destruct (Z_gt_le_dec (Z.of_nat outlen_arg) ((2 ^ 32 - 1) * 64))
      as [Hbig|Hfit]; [left; auto|].
    destruct (classic_password password passlen) as [Hp|(pw & Hpw & Hlen)];
      [left; auto|].
    destruct salt as [s|].
    + right. intros [H|[H|[H|[[H|H]|[H _]]]]];
        try congruence; try lia; try discriminate.
    + destruct (Nat.eq_dec saltlen 0) as [Hz|Hnz].
      * right. intros [H|[H|[H|[[H|H]|[_ H]]]]];
          try congruence; try lia.
      * left. right. right. right. right. auto.
  - (* HMAC init refuses exactly the null and the empty password *)
    destruct (classic_password password passlen) as [Hp|(pw & Hpw & Hlen)].
    + rewrite (hmac_init_refuses get_compress zero_hmac_state password
                 passlen Hp). cbn. split; auto.
    + rewrite Hpw.
      destruct (hmac_init_ready get_compress zero_hmac_state pw passlen Hlen)
        as [I0 _].
      rewrite I0. split; [discriminate|].
      intros [H|H]; [discriminate|lia].
Qed.

End Dispatch.

(** C8, the claim as written, fails: with outlen = 64, rounds = 1, the
    password "p" (on which HMAC init succeeds) and a valid output
    pointer, a null salt pointer with saltlen = 4 makes the call return
    -1, although none of the listed conditions holds. *)
Lemma pbkdf2_null_salt_is_refused :
  let P := blake2b_compress_portable in
  tinyblake_pbkdf2 P (Some (zeros 64)) 64 (Some (ascii_bytes "p")) 1 None 4 1
  = (-1, Some (zeros 64)) /\
  fst (tinyblake_hmac_init P zero_hmac_state (Some (ascii_bytes "p")) 1) = 0 /\
  (64 =? 0)%nat = false /\ (1 =? 0) = false /\
  (Z.of_nat 64 >? UINT32_MAX * Z.of_nat HLEN) = false.
Proof. vm_compute. repeat split. Qed.

(** The end-to-end vectors of section 8: password "password", salt
    "salt", 64 bytes, one and two rounds. *)
Example pbkdf2_known_answers :
  tinyblake_pbkdf2 blake2b_compress_portable (Some (zeros 64)) 64
    (Some (ascii_bytes "password")) 8 (Some (ascii_bytes "salt")) 4 1
  = (0, Some (bytes_of_hex
      "684e7cc1dd9b241d2c977f38a896645da49b85eb13cf8f5c021efc167aad799343c06f50e2959de06a0bca80a154457d8e92e70ebdcdb3722dcf9badd6ff1dfb")) /\
  tinyblake_pbkdf2 blake2b_compress_portable (Some (zeros 64)) 64
    (Some (ascii_bytes "password")) 8 (Some (ascii_bytes "salt")) 4 2
  = (0, Some (bytes_of_hex
      "40b77cc2ee4b4c44eeb5babc299be14af5670e39ea3ce14c0fe70e6c99369886ab4d693bad8bd811ed64c5cf65a4cc5260993e17bbf2423c77164752fcbf5a60")).
Proof. vm_compute. split; reflexivity. Qed.

End Pbkdf2Claims.

(* ===================================================================== *)
(** ** The portable backend against the compression function of 4.3 *)
(* ===================================================================== *)

Module CompressClaims.

Create HintDb u64 discriminated.

(** The shift-or of [rotr64] is the rotation. *)
Lemma rotr64_is_rotr (x n : Z) :
  in_u64 x -> 0 < n < 64 -> rotr64 x n = rotr x n /\ in_u64 (rotr x n).
Proof.
  unfold in_u64, two64. intros Hx Hn.
  unfold rotr64, shr64, shl64, u64, two64, rotr.
  rewrite Z.shiftr_div_pow2, Z.shiftl_mul_pow2 by lia.
  assert (HP : 0 < 2 ^ n) by (apply Z.pow_pos_nonneg; lia).
  assert (HQ : 0 < 2 ^ (64 - n)) by (apply Z.pow_pos_nonneg; lia).
  assert (HPQ : 2 ^ n * 2 ^ (64 - n) = 2 ^ 64)
    by (rewrite <- Z.pow_add_r by lia; f_equal; lia).
  pose proof (Z.div_mod x (2 ^ n) ltac:(lia)) as Hdm.
  pose proof (Z.mod_pos_bound x (2 ^ n) HP) as Hr.
  assert (Hq : 0 <= x / 2 ^ n < 2 ^ (64 - n)).
  { split; [apply Z.div_pos; lia|].
    apply Z.div_lt_upper_bound; [lia|]. rewrite HPQ. lia. }
  set (P := 2 ^ n) in *. set (Q := 2 ^ (64 - n)) in *.
  set (q := x / P) in *. set (r := x mod P) in *.
  assert (Hhigh : (x * Q) mod 2 ^ 64 = r * Q).
  { symmetry. apply Z.mod_unique with (q := q); [nia|].
    rewrite <- HPQ. rewrite Hdm at 1. ring. }
  rewrite Hhigh. unfold Q at 1. rewrite lor_disjoint by (fold Q; lia).
  fold Q. split; [reflexivity|]. nia.
Qed.

Lemma rotr64_eq (x n : Z) :
  in_u64 x -> 0 < n < 64 -> rotr64 x n = rotr x n.
Proof. intros Hx Hn. apply rotr64_is_rotr; assumption. Qed.

Lemma rotr_range (x n : Z) : in_u64 x -> 0 < n < 64 -> in_u64 (rotr x n).
Proof. intros Hx Hn. apply rotr64_is_rotr; assumption. Qed.

Lemma plus_range (a b : Z) : in_u64 (plus a b).
Proof. apply add64_range. Qed.

Lemma add64_is_plus (a b : Z) : add64 a b = plus a b.
Proof. reflexivity. Qed.

#[local] Hint Resolve add64_range plus_range lxor64_range rotr_range : u64.
#[local] Hint Extern 1 (_ < _ < _) => lia : u64.

(** Every bit of the rotated word is the bit [n] places up, cyclically. *)
Lemma rotr_testbit (x n i : Z) :
  in_u64 x -> 0 < n < 64 -> 0 <= i < 64 ->
  Z.testbit (rotr64 x n) i = Z.testbit x ((i + n) mod 64).
Proof.
  intros Hx Hn Hi. unfold rotr64, shr64, shl64, u64, two64.
  rewrite Z.lor_spec, Z.shiftr_spec by lia.
  unfold in_u64, two64 in Hx.
  assert (Habove : forall j, 64 <= j -> Z.testbit x j = false).
  { intros j Hj. destruct (Z.eq_dec x 0) as [->|Hx0]; [apply Z.bits_0|].
    apply Z.bits_above_log2; [lia|].
    assert (Z.log2 x < 64) by (apply Z.log2_lt_pow2; lia). lia. }
  rewrite Z.mod_pow2_bits_low by lia.
  rewrite Z.shiftl_spec by lia.
  destruct (Z_lt_ge_dec (i + n) 64) as [Hlow|Hwrap].
  - rewrite (Z.mod_small (i + n)) by lia.
    rewrite (Z.testbit_neg_r x (i - (64 - n))) by lia.
    apply orb_false_r.
  - rewrite (Habove (i + n)) by lia. cbn [orb].
    f_equal. apply Z.mod_unique with (q := 1); lia.
Qed.

(** The macro G on four distinct positions of a 16-word vector is the
    mixing function of the specification at those positions. *)
Lemma G_is_mix (r i : nat) (pos : nat * nat * nat * nat) (m v : list Z) :
  In pos (columns ++ diagonals) ->
  length v = 16%nat -> Forall in_u64 v ->
  let '(ia, ib, ic, id) := pos in
  G r i ia ib ic id m v
  = mix v pos (w m (sigma r (2 * i + 0))) (w m (sigma r (2 * i + 1))) /\
  length (G r i ia ib ic id m v) = 16%nat /\
  Forall in_u64 (G r i ia ib ic id m v).
Proof.
  intros Hpos Hlen Hrange.
  do 16 (destruct v as [|? v]; [discriminate Hlen|]).
  destruct v; [|discriminate Hlen]. clear Hlen.
  repeat match goal with
         | H : Forall _ (_ :: _) |- _ => inversion H; subst; clear H
         end.
  cbn [columns diagonals app In] in Hpos.
  repeat (destruct Hpos as [<-|Hpos]);
    [ .. | contradiction ];
    (unfold G, mix, G_spec; cbn [upd w nth];
     repeat rewrite rotr64_eq by auto 12 with u64;
     repeat rewrite add64_is_plus;
     split; [reflexivity|]; split; [reflexivity|];
     repeat (apply Forall_cons || apply Forall_nil); auto 12 with u64).
Qed.

(** Rows 10 and 11 of the code's table repeat rows 0 and 1: the code's
    row r is the specification's row r mod 10. *)
Lemma sigma_row (r k : nat) :
  (r < 12)%nat -> sigma r k = nth k (nth (r mod 10) SIGMA10 []) 0%nat.
Proof.
  intros Hr. unfold sigma.
  do 12 (destruct r as [|r]; [reflexivity|]).
  exfalso. lia.
Qed.

(** One application of [G_is_mix], to the vector [v] reached so far. *)
Ltac mix_step r i pos m v E L F :=
  let H := fresh in
  pose proof (G_is_mix r i pos m v) as H;
  cbv beta iota in H;
  destruct H as (E & L & F);
  [ cbn [columns diagonals app In]; auto 10 | assumption | assumption | ].

(** The macro ROUND(r), for each of the twelve rounds, is the round of
    the specification with SIGMA taken at r mod 10. *)
Lemma ROUND_is_round_spec (r : nat) (m v : list Z) :
  (r < 12)%nat -> length v = 16%nat -> Forall in_u64 v ->
  ROUND r m v = round_spec m v r /\
  length (ROUND r m v) = 16%nat /\ Forall in_u64 (ROUND r m v).
Proof.
  intros Hr L0 F0. unfold ROUND. cbv zeta.
  mix_step r 0%nat (0, 4, 8, 12)%nat m v E1 L1 F1.
  mix_step r 1%nat (1, 5, 9, 13)%nat m (G r 0 0 4 8 12 m v) E2 L2 F2.
  mix_step r 2%nat (2, 6, 10, 14)%nat m
           (G r 1 1 5 9 13 m (G r 0 0 4 8 12 m v)) E3 L3 F3.
  mix_step r 3%nat (3, 7, 11, 15)%nat m
           (G r 2 2 6 10 14 m (G r 1 1 5 9 13 m (G r 0 0 4 8 12 m v)))
           E4 L4 F4.
  mix_step r 4%nat (0, 5, 10, 15)%nat m
           (G r 3 3 7 11 15 m
              (G r 2 2 6 10 14 m (G r 1 1 5 9 13 m (G r 0 0 4 8 12 m v))))
           E5 L5 F5.
  mix_step r 5%nat (1, 6, 11, 12)%nat m
           (G r 4 0 5 10 15 m
              (G r 3 3 7 11 15 m
                 (G r 2 2 6 10 14 m
                    (G r 1 1 5 9 13 m (G r 0 0 4 8 12 m v)))))
           E6 L6 F6.
  mix_step r 6%nat (2, 7, 8, 13)%nat m
           (G r 5 1 6 11 12 m
              (G r 4 0 5 10 15 m
                 (G r 3 3 7 11 15 m
                    (G r 2 2 6 10 14 m
                       (G r 1 1 5 9 13 m (G r 0 0 4 8 12 m v))))))
           E7 L7 F7.
  mix_step r 7%nat (3, 4, 9, 14)%nat m
           (G r 6 2 7 8 13 m
              (G r 5 1 6 11 12 m
                 (G r 4 0 5 10 15 m
                    (G r 3 3 7 11 15 m
                       (G r 2 2 6 10 14 m
                          (G r 1 1 5 9 13 m (G r 0 0 4 8 12 m v)))))))
           E8 L8 F8.
  split; [|split; assumption].
  rewrite E8, E7, E6, E5, E4, E3, E2, E1.
  unfold round_spec.
  cbn [fold_left combine seq columns diagonals app].
  unfold w. rewrite !(sigma_row r) by exact Hr.
  cbn [Nat.mul Nat.add]. reflexivity.
Qed.

(** [load_le64] at the i-th word of a block is the little-endian word of
    the specification. *)
Lemma load_le64_is_message_word (block : list byte) (i : nat) :
  load_le64 (skipn (i * 8) block) = message_word block i.
Proof.
  unfold load_le64, load_le64_on, memcpy_to_u64, message_word, rd.
  cbn [seq map le_value fold_right].
  rewrite !nth_skipn.
  replace (i * 8 + 0)%nat with (8 * i + 0)%nat by lia.
  replace (i * 8 + 1)%nat with (8 * i + 1)%nat by lia.
  replace (i * 8 + 2)%nat with (8 * i + 2)%nat by lia.
  replace (i * 8 + 3)%nat with (8 * i + 3)%nat by lia.
  replace (i * 8 + 4)%nat with (8 * i + 4)%nat by lia.
  replace (i * 8 + 5)%nat with (8 * i + 5)%nat by lia.
  replace (i * 8 + 6)%nat with (8 * i + 6)%nat by lia.
  replace (i * 8 + 7)%nat with (8 * i + 7)%nat by lia.
  change (2 ^ (8 * Z.of_nat 0)) with 1.
  change (2 ^ (8 * Z.of_nat 1)) with 256.
  change (2 ^ (8 * Z.of_nat 2)) with 65536.
  change (2 ^ (8 * Z.of_nat 3)) with 16777216.
  change (2 ^ (8 * Z.of_nat 4)) with 4294967296.
  change (2 ^ (8 * Z.of_nat 5)) with 1099511627776.
  change (2 ^ (8 * Z.of_nat 6)) with 281474976710656.
  change (2 ^ (8 * Z.of_nat 7)) with 72057594037927936.
  ring.
Qed.

Lemma nth_in_u64 (v : list Z) (i : nat) :
  Forall in_u64 v -> in_u64 (nth i v 0).
Proof.
  intros F. destruct (Nat.lt_ge_cases i (length v)) as [Hlt|Hge].
  - apply Forall_nth; assumption.
  - rewrite nth_overflow by exact Hge. unfold in_u64, two64. lia.
Qed.

(** One round of the unrolled sequence, on the vector reached so far. *)
Ltac round_step r m v E L F :=
  let H := fresh in
  pose proof (ROUND_is_round_spec r m v) as H;
  destruct H as (E & L & F); [ lia | assumption | assumption | ].

(** C1.  On every chaining value of eight 64-bit words, every block,
    two 64-bit counter words and either flag, the portable backend
    computes the compression function of section 4.3: little-endian
    message words, v = H, IV[0..3], IV[4] xor t0, IV[5] xor t1, IV[6]
    complemented exactly when the flag is set, IV[7]; twelve rounds of G
    on columns then diagonals with the ten-row SIGMA indexed by the
    round modulo 10; H[i] xor v[i] xor v[i+8].  The result is again
    eight words below 2^64. *)
Theorem compress_portable_is_spec (H : list Z) (block : list byte)
        (t0 t1 : Z) (last : bool) :
  length H = 8%nat -> Forall in_u64 H -> in_u64 t0 -> in_u64 t1 ->
  blake2b_compress_portable H block t0 t1 last
  = compress_spec H block t0 t1 last /\
  length (blake2b_compress_portable H block t0 t1 last) = 8%nat /\
  Forall in_u64 (blake2b_compress_portable H block t0 t1 last).
Proof.
  intros LH FH Ht0 Ht1.
  do 8 (destruct H as [|? H]; [discriminate LH|]).
  destruct H; [|discriminate LH]. clear LH.
  unfold blake2b_compress_portable, compress_spec. cbv zeta.
  rewrite (map_ext _ (message_word block) (load_le64_is_message_word block)).
  set (m := map (message_word block) (seq 0 16)).
  match goal with |- context [ROUND 0 m ?v] => set (v0 := v) end.
  assert (Ev0 : v0 = [z; z0; z1; z2; z3; z4; z5; z6] ++ firstn 4 IV_spec
                     ++ [ Z.lxor (nth 4 IV_spec 0) t0;
                          Z.lxor (nth 5 IV_spec 0) t1;
                          (if last then complement (nth 6 IV_spec 0)
                           else nth 6 IV_spec 0);
                          nth 7 IV_spec 0 ])
    by (unfold v0; destruct last; reflexivity).
  rewrite <- Ev0.
  assert (L0 : length v0 = 16%nat) by reflexivity.
  assert (F0 : Forall in_u64 v0).
  { assert (Hc : forall c, 0 <= c < two64 -> in_u64 c) by (intros c Hc; exact Hc).
    unfold v0. cbn [map seq app w nth].
    repeat match goal with
           | F : Forall _ (_ :: _) |- _ => inversion F; subst; clear F
           end.
    repeat (apply Forall_cons || apply Forall_nil);
      try assumption;
      try (apply lxor64_range; [|assumption]);
      try (destruct last; [apply lxor64_range|]);
      apply Hc; unfold IV, two64; cbn; lia. }
  clearbody v0.
  round_step 0%nat m v0 E1 L1 F1.
  round_step 1%nat m (ROUND 0 m v0) E2 L2 F2.
  round_step 2%nat m (ROUND 1 m (ROUND 0 m v0)) E3 L3 F3.
  round_step 3%nat m (ROUND 2 m (ROUND 1 m (ROUND 0 m v0))) E4 L4 F4.
  round_step 4%nat m (ROUND 3 m (ROUND 2 m (ROUND 1 m (ROUND 0 m v0))))
             E5 L5 F5.
  round_step 5%nat m
             (ROUND 4 m (ROUND 3 m (ROUND 2 m (ROUND 1 m (ROUND 0 m v0)))))
             E6 L6 F6.
  round_step 6%nat m
             (ROUND 5 m
                (ROUND 4 m (ROUND 3 m (ROUND 2 m (ROUND 1 m (ROUND 0 m v0))))))
             E7 L7 F7.
  round_step 7%nat m
             (ROUND 6 m
                (ROUND 5 m
                   (ROUND 4 m
                      (ROUND 3 m (ROUND 2 m (ROUND 1 m (ROUND 0 m v0)))))))
             E8 L8 F8.
  round_step 8%nat m
             (ROUND 7 m
                (ROUND 6 m
                   (ROUND 5 m
                      (ROUND 4 m
                         (ROUND 3 m (ROUND 2 m (ROUND 1 m (ROUND 0 m v0))))))))
             E9 L9 F9.
  round_step 9%nat m
             (ROUND 8 m
                (ROUND 7 m
                   (ROUND 6 m
                      (ROUND 5 m
                         (ROUND 4 m
                            (ROUND 3 m
                               (ROUND 2 m (ROUND 1 m (ROUND 0 m v0)))))))))
             E10 L10 F10.
  round_step 10%nat m
             (ROUND 9 m
                (ROUND 8 m
                   (ROUND 7 m
                      (ROUND 6 m
                         (ROUND 5 m
                            (ROUND 4 m
                               (ROUND 3 m
                                  (ROUND 2 m (ROUND 1 m (ROUND 0 m v0))))))))))
             E11 L11 F11.
  round_step 11%nat m
             (ROUND 10 m
                (ROUND 9 m
                   (ROUND 8 m
                      (ROUND 7 m
                         (ROUND 6 m
                            (ROUND 5 m
                               (ROUND 4 m
                                  (ROUND 3 m
                                     (ROUND 2 m
                                        (ROUND 1 m (ROUND 0 m v0)))))))))))
             E12 L12 F12.
  assert (Erounds :
    ROUND 11 m
      (ROUND 10 m
         (ROUND 9 m
            (ROUND 8 m
               (ROUND 7 m
                  (ROUND 6 m
                     (ROUND 5 m
                        (ROUND 4 m
                           (ROUND 3 m
                              (ROUND 2 m (ROUND 1 m (ROUND 0 m v0)))))))))))
    = fold_left (round_spec m) (seq 0 12) v0).
  { cbn [fold_left seq].
    rewrite E12, E11, E10, E9, E8, E7, E6, E5, E4, E3, E2, E1. reflexivity. }
  rewrite <- Erounds.
  match goal with |- context [ROUND 11 m ?v] => set (v12 := ROUND 11 m v) in * end.
  clearbody v12.
  repeat match goal with
         | F : Forall _ (_ :: _) |- _ => inversion F; subst; clear F
         end.
  cbn [fold_left seq upd w nth map Nat.add].
  split; [|split; [reflexivity|]].
  - rewrite !Z.lxor_assoc. reflexivity.
  - repeat (apply Forall_cons || apply Forall_nil);
      apply lxor64_range; try assumption;
      apply lxor64_range; apply nth_in_u64; assumption.
Qed.

Lemma compress_portable_is_spec_witness :
  (length IV = 8%nat /\ Forall in_u64 IV /\ in_u64 3 /\ in_u64 0) /\
  blake2b_compress_portable IV (zeros 128) 3 0 true
  = compress_spec IV (zeros 128) 3 0 true.
Proof.
  assert (HL : length IV = 8%nat) by reflexivity.
  assert (HF : Forall in_u64 IV)
    by (repeat (apply Forall_cons || apply Forall_nil);
        unfold in_u64, two64; lia).
  assert (H3 : in_u64 3) by (unfold in_u64, two64; lia).
  assert (H0 : in_u64 0) by (unfold in_u64, two64; lia).
  split; [auto|].
  exact (proj1 (compress_portable_is_spec IV (zeros 128) 3 0 true
                  HL HF H3 H0)).
Defined.

End CompressClaims.

(* ===================================================================== *)
(** ** The known-answer vectors of section 8, on the embedding *)
(* ===================================================================== *)

Module KnownAnswers.

(** BLAKE2b-512 of the empty message. *)
Example blake2b_512_empty :
  tinyblake_blake2b blake2b_compress_portable (Some (zeros 64)) 64 None 0 None 0
  = (0, Some (bytes_of_hex
      "786a02f742015903c6c6fd852552d272912f4740e15847618a86e217f71f5419d25e1031afee585313896444934eb04b903a685b1448b755d56f701afe9be2ce")).
Proof. vm_compute. reflexivity. Qed.

(** Keyed BLAKE2b-512: key 00..3f, input 00..7f. *)
Example blake2b_512_keyed :
  tinyblake_blake2b blake2b_compress_portable (Some (zeros 64)) 64
    (Some (map byte_of_nat (seq 0 128))) 128
    (Some (map byte_of_nat (seq 0 64))) 64
  = (0, Some (bytes_of_hex
      "72065ee4dd91c2d8509fa1fc28a37c7fc9fa7d5b3f8ad3d0d7a25626b57b1b44788d4caf806290425f9890a3a2a35a905ab4b37acfd0da6e4517b2525c9651e4")).
Proof. vm_compute. reflexivity. Qed.

(** HMAC-BLAKE2b-512 with key "key": the fox sentence and the empty
    message. *)
Example hmac_known_answers :
  tinyblake_hmac blake2b_compress_portable (Some (zeros 64)) 64
    (Some (ascii_bytes "key")) 3
    (Some (ascii_bytes "The quick brown fox jumps over the lazy dog")) 43
  = (0, Some (bytes_of_hex
      "92294f92c0dfb9b00ec9ae8bd94d7e7d8a036b885a499f149dfe2fd2199394aaaf6b8894a1730cccb2cd050f9bcf5062a38b51b0dab33207f8ef35ae2c9df51b")) /\
  tinyblake_hmac blake2b_compress_portable (Some (zeros 64)) 64
    (Some (ascii_bytes "key")) 3 None 0
  = (0, Some (bytes_of_hex
      "019fe04bf010b8d72772e6b46897ecf74b4878c394ff2c4d5cfa0b7cc9bbefcb28c36de23cef03089db9c3d900468c89804f135e9fdef7ec9b3c7abe50ed33d3")).
Proof. vm_compute. split; reflexivity. Qed.

(** The digest length is mixed into the chaining value: BLAKE2b-256 of
    "abc", set up through a parameter block, is not the first half of
    BLAKE2b-512 of "abc". *)
Example blake2b_256_is_not_a_prefix :
  let P := blake2b_compress_portable in
  let St := snd (tinyblake_blake2b_init_param zero_state
                   (Some (build_default_param (byte_of_nat 32) x00))) in
  let St := snd (tinyblake_blake2b_update P St (Some (ascii_bytes "abc")) 3) in
  let d256 := snd (tinyblake_blake2b_final P St (Some (zeros 32)) 32) in
  let d512 := snd (tinyblake_blake2b P (Some (zeros 64)) 64
                     (Some (ascii_bytes "abc")) 3 None 0) in
  option_map (firstn 8) d256
  = Some (bytes_of_hex "bddd813c63423972") /\
  option_map (firstn 8) d512
  = Some (bytes_of_hex "ba80a53f981c4d0d").
Proof. vm_compute. split; reflexivity. Qed.

End KnownAnswers.

Import Endian32.
Import KeyedScenario.
Import KdfSpec.

(* ===================================================================== *)
(** ** endian.h: byte order of loads and stores on either host *)
(* ===================================================================== *)

Module EndianExtras.

Lemma skipn_cons_nth {A : Type} (d : A) (l : list A) : forall k : nat,
  (k < length l)%nat -> skipn k l = nth k l d :: skipn (S k) l.
Proof.
  induction l as [|a l IH]; intros k Hk; cbn [length] in Hk; [lia|].
  destruct k as [|k]; [reflexivity|].
  cbn [skipn nth]. rewrite (IH k) by lia. reflexivity.
Qed.

(** Reading [n] consecutive bytes from position [k] on. *)
Lemma map_rd_seq (src : list byte) : forall (n k : nat),
  (k + n <= length src)%nat -> map (rd src) (seq k n) = firstn n (skipn k src).
Proof.
  induction n as [|n IH]; intros k Hk; [reflexivity|].
  cbn [seq map]. rewrite (IH (S k)) by lia.
  rewrite (skipn_cons_nth x00 src k) by lia. reflexivity.
Qed.

(** X1.  On a host of either byte order, [load_le64] of a region of at
    least eight bytes returns the little-endian value of its first eight
    bytes, src[0] + 256 * src[1] + ... + 256^7 * src[7], which is a
    64-bit value. *)
Theorem load_le64_reads_little_endian (big_endian_host : bool)
        (src : list byte) :
  (8 <= length src)%nat ->
  load_le64_on big_endian_host src = le_value (firstn 8 src) /\
  in_u64 (load_le64_on big_endian_host src).
Proof.
  intros Hlen. rewrite load_le64_host_independent.
  assert (Hval : load_le64 src = le_value (firstn 8 src)).
  { unfold load_le64, load_le64_on, memcpy_to_u64.
    rewrite (map_rd_seq src 8 0) by lia. reflexivity. }
  split; [exact Hval|]. rewrite Hval.
  pose proof (le_value_range (firstn 8 src)) as Hr.
  rewrite length_firstn in Hr.
  replace (Nat.min 8 (length src)) with 8%nat in Hr by lia.
  exact Hr.
Qed.

Lemma load_le64_reads_little_endian_witness :
  (8 <= length [x01; x02; x03; x04; x05; x06; x07; x08; xff])%nat /\
  load_le64_on true [x01; x02; x03; x04; x05; x06; x07; x08; xff]
  = 0x0807060504030201.
Proof.
  assert (H : (8 <= length [x01; x02; x03; x04; x05; x06; x07; x08; xff])%nat)
    by (cbn; lia).
  split; [exact H|].
  rewrite (proj1 (load_le64_reads_little_endian true _ H)). reflexivity.
Defined.

Lemma store_load_le64 (bs : list byte) :
  length bs = 8%nat -> store_le64 (load_le64 bs) = bs.
Proof.
  intros Hlen.
  destruct bs as [|b0 [|b1 [|b2 [|b3 [|b4 [|b5 [|b6 [|b7 [|b8 bs]]]]]]]]];
    try discriminate Hlen.
  unfold load_le64, load_le64_on, memcpy_to_u64, store_le64, store_le64_on,
    memcpy_from_u64, rd.
  cbn [seq map nth]. rewrite !byte_of_shiftr.
  rewrite !byte_at_le_value by (cbn; lia).
  cbn [nth]. rewrite !byte_of_Z_of_byte. reflexivity.
Qed.

(** X2.  What [store_le64] writes on a host of one byte order,
    [load_le64] reads back on a host of either byte order, and the eight
    bytes that were loaded are the eight bytes that are stored again:
    stored words are portable. *)
Theorem le64_round_trip (host1 host2 : bool) (v : Z) (bs : list byte) :
  in_u64 v -> length bs = 8%nat ->
  length (store_le64_on host1 v) = 8%nat /\
  load_le64_on host2 (store_le64_on host1 v) = v /\
  store_le64_on host1 (load_le64_on host2 bs) = bs.
Proof.
  intros Hv Hlen.
  rewrite !store_le64_host_independent, !load_le64_host_independent.
  split; [reflexivity|]. split.
  - apply load_store_le64. exact Hv.
  - apply store_load_le64. exact Hlen.
Qed.

Lemma le64_round_trip_witness :
  (in_u64 0x0123456789ABCDEF /\
   length [x01; x02; x03; x04; x05; x06; x07; x08] = 8%nat) /\
  store_le64_on true 0x0123456789ABCDEF
  = [xef; xcd; xab; x89; x67; x45; x23; x01] /\
  load_le64_on false (store_le64_on true 0x0123456789ABCDEF)
  = 0x0123456789ABCDEF.
Proof.
  assert (Hv : in_u64 0x0123456789ABCDEF) by (unfold in_u64, two64; lia).
  assert (Hb : length [x01; x02; x03; x04; x05; x06; x07; x08] = 8%nat)
    by reflexivity.
  split; [split; assumption|]. split; [vm_compute; reflexivity|].
  exact (proj1 (proj2 (le64_round_trip true false _ _ Hv Hb))).
Defined.

(** The 32-bit byte swap moves the byte at position k to position
    3 - k. *)
Lemma bswap32_bytes (v : Z) :
  bswap32 v
  = byte_at v 0 * 2 ^ 24 + byte_at v 1 * 2 ^ 16 + byte_at v 2 * 2 ^ 8
    + byte_at v 3.
Proof.
  unfold bswap32.
  change 0x000000FF with (255 * 2 ^ 0).
  change 0x0000FF00 with (255 * 2 ^ 8).
  change 0x00FF0000 with (255 * 2 ^ 16).
  change 0xFF000000 with (255 * 2 ^ 24).
  rewrite !land_byte_mask by lia.
  change (v / 2 ^ 0 mod 256) with (byte_at v 0).
  change (v / 2 ^ 8 mod 256) with (byte_at v 1).
  change (v / 2 ^ 16 mod 256) with (byte_at v 2).
  change (v / 2 ^ 24 mod 256) with (byte_at v 3).
  pose proof (byte_at_range v 0) as R0. pose proof (byte_at_range v 1) as R1.
  pose proof (byte_at_range v 2) as R2. pose proof (byte_at_range v 3) as R3.
  generalize dependent (byte_at v 0). generalize dependent (byte_at v 1).
  generalize dependent (byte_at v 2). generalize dependent (byte_at v 3).
  intros B3 R3 B2 R2 B1 R1 B0 R0.
  unfold shl32, shr32, u32.
  rewrite !Z.shiftl_mul_pow2, !Z.shiftr_div_pow2 by lia.
  rewrite (Z.mod_small (B0 * 2 ^ 0 * 2 ^ 24)) by lia.
  rewrite (Z.mod_small (B1 * 2 ^ 8 * 2 ^ 8)) by lia.
  replace (B2 * 2 ^ 16 / 2 ^ 8) with (B2 * 2 ^ 8)
    by (apply Z.div_unique with (r := 0); lia).
  replace (B3 * 2 ^ 24 / 2 ^ 24) with B3
    by (apply Z.div_unique with (r := 0); lia).
  replace (B0 * 2 ^ 0 * 2 ^ 24) with (B0 * 2 ^ 24) by lia.
  replace (B1 * 2 ^ 8 * 2 ^ 8) with (B1 * 2 ^ 16) by lia.
  rewrite (lor_high_low B0 (B1 * 2 ^ 16) 24) by lia.
  replace (B0 * 2 ^ 24 + B1 * 2 ^ 16)
    with ((B0 * 2 ^ 8 + B1) * 2 ^ 16) by lia.
  rewrite (lor_high_low _ (B2 * 2 ^ 8) 16) by lia.
  replace ((B0 * 2 ^ 8 + B1) * 2 ^ 16 + B2 * 2 ^ 8)
    with ((B0 * 2 ^ 16 + B1 * 2 ^ 8 + B2) * 2 ^ 8) by lia.
  rewrite (lor_high_low _ B3 8) by lia.
  lia.
Qed.

Lemma load_le32_host_independent (big_endian_host : bool) (src : list byte) :
  load_le32_on big_endian_host src = load_le32 src.
Proof.
  destruct big_endian_host; [|reflexivity].
  unfold load_le32, load_le32_on, memcpy_to_u32.
  cbn [seq map rev app].
  set (b0 := rd src 0). set (b1 := rd src 1). set (b2 := rd src 2).
  set (b3 := rd src 3).
  rewrite bswap32_bytes.
  pose proof (fun k H => byte_at_le_value [b3; b2; b1; b0] k H) as Hb.
  cbn [length] in Hb.
  pose proof (Hb 0%nat ltac:(lia)) as H0. pose proof (Hb 1%nat ltac:(lia)) as H1.
  pose proof (Hb 2%nat ltac:(lia)) as H2. pose proof (Hb 3%nat ltac:(lia)) as H3.
  change (Z.of_nat 0) with 0 in H0. change (Z.of_nat 1) with 1 in H1.
  change (Z.of_nat 2) with 2 in H2. change (Z.of_nat 3) with 3 in H3.
  rewrite H0, H1, H2, H3.
  cbn [nth le_value]. ring.
Qed.

Lemma store_le32_host_independent (big_endian_host : bool) (v : Z) :
  store_le32_on big_endian_host v = store_le32 v.
Proof.
  destruct big_endian_host; [|reflexivity].
  unfold store_le32, store_le32_on, memcpy_from_u32.
  cbn [seq map rev app]. rewrite !byte_of_shiftr.
  assert (Hsw : bswap32 v
                = le_value [ byte_of_Z (byte_at v 3); byte_of_Z (byte_at v 2);
                             byte_of_Z (byte_at v 1); byte_of_Z (byte_at v 0) ]).
  { rewrite bswap32_bytes. cbn [le_value].
    rewrite !Z_of_byte_of_Z by apply byte_at_range. ring. }
  rewrite Hsw.
  rewrite !byte_at_le_value by (cbn; lia).
  cbn [nth]. rewrite !byte_of_Z_of_byte. reflexivity.
Qed.

Lemma load_store_le32 (v : Z) :
  0 <= v < 2 ^ 32 -> load_le32 (store_le32 v) = v.
Proof.
  intros Hv.
  unfold load_le32, load_le32_on, memcpy_to_u32, store_le32, store_le32_on,
    memcpy_from_u32, rd.
  cbn [seq map nth le_value]. rewrite !byte_of_shiftr.
  rewrite !Z_of_byte_of_Z by apply byte_at_range.
  unfold byte_at.
  change (2 ^ (8 * Z.of_nat 0)) with 1.
  change (2 ^ (8 * Z.of_nat 1)) with (2 ^ 8).
  change (2 ^ (8 * Z.of_nat 2)) with (2 ^ 16).
  change (2 ^ (8 * Z.of_nat 3)) with (2 ^ 24).
  rewrite Z.div_1_r.
  pose proof (Z.div_mod v 256 ltac:(lia)) as D0.
  pose proof (Z.div_mod (v / 256) 256 ltac:(lia)) as D1.
  pose proof (Z.div_mod (v / 256 / 256) 256 ltac:(lia)) as D2.
  pose proof (Z.div_mod (v / 256 / 256 / 256) 256 ltac:(lia)) as D3.
  assert (Htop : v / 256 / 256 / 256 / 256 = 0).
  { rewrite !Z.div_div by lia. apply Z.div_small. lia. }
  rewrite Htop in D3.
  change (2 ^ 8) with 256. change (2 ^ 16) with (256 * 256).
  change (2 ^ 24) with (256 * 256 * 256).
  rewrite <- !Z.div_div by lia.
  lia.
Qed.

Lemma store_load_le32 (bs : list byte) :
  length bs = 4%nat -> store_le32 (load_le32 bs) = bs.
Proof.
  intros Hlen.
  destruct bs as [|b0 [|b1 [|b2 [|b3 [|b4 bs]]]]]; try discriminate Hlen.
  unfold load_le32, load_le32_on, memcpy_to_u32, store_le32, store_le32_on,
    memcpy_from_u32, rd.
  cbn [seq map nth]. rewrite !byte_of_shiftr.
  rewrite !byte_at_le_value by (cbn; lia).
  cbn [nth]. rewrite !byte_of_Z_of_byte. reflexivity.
Qed.

(** X3.  [load_le32] and [store_le32] behave alike on hosts of either
    byte order: a load returns the little-endian value of the four
    bytes, a 32-bit value that was stored is read back, and four bytes
    that were loaded are stored again as they were. *)
Theorem le32_round_trip (host1 host2 : bool) (v : Z) (bs : list byte) :
  0 <= v < 2 ^ 32 -> length bs = 4%nat ->
  load_le32_on host2 bs = le_value bs /\
  load_le32_on host2 (store_le32_on host1 v) = v /\
  store_le32_on host1 (load_le32_on host2 bs) = bs.
Proof.
  intros Hv Hlen.
  rewrite !store_le32_host_independent, !load_le32_host_independent.
  split; [|split].
  - destruct bs as [|b0 [|b1 [|b2 [|b3 [|b4 bs]]]]]; try discriminate Hlen.
    reflexivity.
  - apply load_store_le32. exact Hv.
  - apply store_load_le32. exact Hlen.
Qed.

Lemma le32_round_trip_witness :
  (0 <= 0x01234567 < 2 ^ 32 /\ length [x01; x02; x03; x04] = 4%nat) /\
  load_le32_on true [x01; x02; x03; x04] = 0x04030201 /\
  store_le32_on true 0x01234567 = [x67; x45; x23; x01].
Proof.
  assert (Hv : 0 <= 0x01234567 < 2 ^ 32) by lia.
  assert (Hb : length [x01; x02; x03; x04] = 4%nat) by reflexivity.
  split; [split; assumption|]. split; [|vm_compute; reflexivity].
  rewrite (proj1 (le32_round_trip true true _ _ Hv Hb)). reflexivity.
Defined.

End EndianExtras.

(* ===================================================================== *)
(** ** blake2b_portable.cpp: the rotation *)
(* ===================================================================== *)

Module RotationExtras.

(** X4.  For a 64-bit word and a distance n in 1..63, [rotr64] is the
    cyclic rotation: the result is a 64-bit word whose bit i is bit
    (i + n) mod 64 of the argument, and rotating on by 64 - n gives the
    word back. *)
Theorem rotr64_is_a_rotation (x n : Z) :
  in_u64 x -> 0 < n < 64 ->
  in_u64 (rotr64 x n) /\
  (forall i, 0 <= i < 64 ->
     Z.testbit (rotr64 x n) i = Z.testbit x ((i + n) mod 64)) /\
  rotr64 (rotr64 x n) (64 - n) = x.
Proof.
  intros Hx Hn.
  assert (Hr : in_u64 (rotr64 x n)).
  { destruct (CompressClaims.rotr64_is_rotr x n Hx Hn) as [-> H]. exact H. }
  split; [exact Hr|]. split.
  - intros i Hi. apply CompressClaims.rotr_testbit; assumption.
  - assert (Hr2 : in_u64 (rotr64 (rotr64 x n) (64 - n))).
    { destruct (CompressClaims.rotr64_is_rotr (rotr64 x n) (64 - n) Hr
                  ltac:(lia)) as [-> H]. exact H. }
    assert (Habove : forall y j, in_u64 y -> 64 <= j -> Z.testbit y j = false).
    { intros y j Hy Hj. unfold in_u64, two64 in Hy.
      destruct (Z.eq_dec y 0) as [->|Hy0]; [apply Z.bits_0|].
      apply Z.bits_above_log2; [lia|].
      assert (Z.log2 y < 64) by (apply Z.log2_lt_pow2; lia). lia. }
    apply Z.bits_inj'. intros i Hi.
    destruct (Z_lt_ge_dec i 64) as [Hlt|Hge].
    + rewrite CompressClaims.rotr_testbit by (try assumption; lia).
      rewrite CompressClaims.rotr_testbit
        by (try assumption; try lia; apply Z.mod_pos_bound; lia).
      f_equal. rewrite Z.add_mod_idemp_l by lia.
      replace (i + (64 - n) + n) with (i + 1 * 64) by lia.
      rewrite Z.mod_add by lia. apply Z.mod_small. lia.
    + rewrite !Habove by (try assumption; lia). reflexivity.
Qed.

Lemma rotr64_is_a_rotation_witness :
  (in_u64 0x0123456789ABCDEF /\ 0 < 24 < 64) /\
  rotr64 0x0123456789ABCDEF 24 = 0xABCDEF0123456789 /\
  rotr64 (rotr64 0x0123456789ABCDEF 24) (64 - 24) = 0x0123456789ABCDEF.
Proof.
  assert (Hx : in_u64 0x0123456789ABCDEF) by (unfold in_u64, two64; lia).
  assert (Hn : 0 < 24 < 64) by lia.
  split; [split; assumption|]. split; [vm_compute; reflexivity|].
  exact (proj2 (proj2 (rotr64_is_a_rotation _ _ Hx Hn))).
Defined.

End RotationExtras.

(* ===================================================================== *)
(** ** secure_zero.cpp and the big-endian store of pbkdf2.cpp *)
(* ===================================================================== *)

Module SmallExtras.

(** X5.  [tinyblake_secure_zero] on a region of at least [len] bytes
    clears exactly the first [len] bytes: they read zero afterwards, the
    bytes behind them and the size of the region are as before, and a
    second call changes nothing.  A null pointer stays null. *)
Theorem secure_zero_clears_exactly (p : list byte) (len : nat) :
  (len <= length p)%nat ->
  tinyblake_secure_zero (Some p) len = Some (zeros len ++ skipn len p) /\
  length (zeros len ++ skipn len p) = length p /\
  tinyblake_secure_zero (tinyblake_secure_zero (Some p) len) len
  = tinyblake_secure_zero (Some p) len /\
  tinyblake_secure_zero None len = None.
Proof.
  intros Hlen.
  assert (Hz : forall q, (len <= length q)%nat ->
             tinyblake_secure_zero (Some q) len
             = Some (zeros len ++ skipn len q)).
  { intros q Hq. unfold tinyblake_secure_zero.
    destruct (Nat.eqb_spec len 0) as [->|Hne]; [reflexivity|].
    rewrite memset_spec by lia. reflexivity. }
  assert (Hl : length (zeros len ++ skipn len p) = length p).
  { rewrite length_app, zeros_length, length_skipn. lia. }
  split; [apply Hz; exact Hlen|]. split; [exact Hl|]. split; [|reflexivity].
  rewrite (Hz p Hlen). rewrite Hz by lia. f_equal. f_equal.
  rewrite skipn_app, zeros_length.
  rewrite skipn_zeros. replace (len - len)%nat with 0%nat by lia.
  reflexivity.
Qed.

Lemma secure_zero_clears_exactly_witness :
  (2 <= length [x61; x62; x63])%nat /\
  tinyblake_secure_zero (Some [x61; x62; x63]) 2 = Some [x00; x00; x63].
Proof.
  assert (H : (2 <= length [x61; x62; x63])%nat) by (cbn; lia).
  split; [exact H|].
  rewrite (proj1 (secure_zero_clears_exactly _ _ H)). reflexivity.
Defined.

(** X6.  [store_be32] writes the four bytes of a 32-bit value with the
    most significant byte first: read back in that order they give the
    value, so distinct block indices are encoded differently. *)
Theorem store_be32_is_big_endian (v v' : Z) :
  0 <= v < 2 ^ 32 -> 0 <= v' < 2 ^ 32 ->
  length (store_be32 v) = 4%nat /\
  be_value (store_be32 v) = v /\
  (store_be32 v = store_be32 v' -> v = v').
Proof.
  intros Hv Hv'.
  assert (Hbe : forall x, 0 <= x < 2 ^ 32 -> be_value (store_be32 x) = x).
  { clear. intros v Hv. unfold be_value, store_be32.
    cbn [rev app le_value].
    change 0xFF with (Z.ones 8). rewrite !Z.land_ones by lia.
    rewrite !Z.shiftr_div_pow2 by lia.
    rewrite !Z_of_byte_of_Z by (apply Z.mod_pos_bound; lia).
    change (2 ^ 8) with 256. change (2 ^ 16) with (256 * 256).
    change (2 ^ 24) with (256 * 256 * 256).
    rewrite <- !Z.div_div by lia.
    pose proof (Z.div_mod v 256 ltac:(lia)) as D0.
    pose proof (Z.div_mod (v / 256) 256 ltac:(lia)) as D1.
    pose proof (Z.div_mod (v / 256 / 256) 256 ltac:(lia)) as D2.
    pose proof (Z.div_mod (v / 256 / 256 / 256) 256 ltac:(lia)) as D3.
    assert (Htop : v / 256 / 256 / 256 / 256 = 0).
    { rewrite !Z.div_div by lia. apply Z.div_small. lia. }
    rewrite Htop in D3. lia. }
  split; [reflexivity|]. split; [apply Hbe; exact Hv|].
  intros Heq. rewrite <- (Hbe v Hv), <- (Hbe v' Hv'), Heq. reflexivity.
Qed.

Lemma store_be32_is_big_endian_witness :
  (0 <= 0x01020304 < 2 ^ 32 /\ 0 <= 1 < 2 ^ 32) /\
  store_be32 0x01020304 = [x01; x02; x03; x04] /\
  be_value (store_be32 0x01020304) = 0x01020304.
Proof.
  assert (Hv : 0 <= 0x01020304 < 2 ^ 32) by lia.
  assert (Hw : 0 <= 1 < 2 ^ 32) by lia.
  split; [split; assumption|]. split; [vm_compute; reflexivity|].
  exact (proj1 (proj2 (store_be32_is_big_endian _ _ Hv Hw))).
Defined.

End SmallExtras.

(* ===================================================================== *)
(** ** blake2b.cpp: initialisation, keyed hashing, the one-shot call *)
(* ===================================================================== *)

Module Blake2bExtras.

Lemma init_from_param_accepts (St : tinyblake_blake2b_state)
      (param : list byte) :
  1 <= Z_of_byte (rd param 0) <= 64 ->
  init_from_param St param = (0, param_state param).
Proof.
  intros Hb. unfold init_from_param.
  assert (Hc : (Z_of_byte (rd param 0) =? 0) || (Z_of_byte (rd param 0) >? 64)
               = false).
  { apply orb_false_iff. split; [apply Z.eqb_neq; lia|].
    rewrite Z.gtb_ltb. apply Z.ltb_ge. lia. }
  rewrite Hc. unfold param_state.
  cbn [seq fold_left map set_h set_outlen h t0 t1 buf buflen outlen zero_state
       repeat upd].
  reflexivity.
Qed.

Lemma init_from_param_refuses (St : tinyblake_blake2b_state)
      (param : list byte) :
  Z_of_byte (rd param 0) = 0 \/ 64 < Z_of_byte (rd param 0) ->
  init_from_param St param = (-1, St).
Proof.
  intros Hb. unfold init_from_param.
  assert (Hc : (Z_of_byte (rd param 0) =? 0) || (Z_of_byte (rd param 0) >? 64)
               = true).
  { apply orb_true_iff. destruct Hb as [Hb|Hb];
      [left; apply Z.eqb_eq; exact Hb|right].
    rewrite Z.gtb_ltb. apply Z.ltb_lt. exact Hb. }
  rewrite Hc. reflexivity.
Qed.

Lemma param_state_well_formed (param : list byte) :
  well_formed (param_state param) /\ pending (param_state param) = [] /\
  buflen (param_state param) = 0%nat.
Proof.
  unfold well_formed, pending, param_state. cbn [buf buflen firstn].
  rewrite zeros_length. repeat split; lia.
Qed.

(** The chaining value for the default parameter block: only word 0
    differs from the IV. *)
Lemma default_param_h (a b : byte) :
  h (param_state (build_default_param a b))
  = upd IV 0 (Z.lxor (w IV 0) (0x01010000 + 256 * Z_of_byte b + Z_of_byte a)).
Proof.
  unfold param_state, build_default_param, zeros.
  cbn [h repeat upd seq map Nat.mul Nat.add skipn].
  unfold load_le64, load_le64_on, memcpy_to_u64, rd.
  cbn [seq map nth le_value].
  change (Z_of_byte x01) with 1. change (Z_of_byte x00) with 0.
  unfold IV. cbn [upd].
  apply (f_equal2 cons); [apply f_equal; lia|reflexivity].
Qed.

Lemma default_param_outlen (n k : nat) :
  (n < 256)%nat ->
  Z_of_byte (rd (build_default_param (byte_of_nat n) (byte_of_nat k)) 0)
  = Z.of_nat n.
Proof.
  intros Hn.
  change (rd (build_default_param (byte_of_nat n) (byte_of_nat k)) 0)
    with (byte_of_nat n).
  apply byte_of_nat_value. exact Hn.
Qed.

(** The state for the default block with digest length n and key
    length k. *)
Lemma default_param_state (n k : nat) :
  (n < 256)%nat -> (k < 256)%nat ->
  param_state (build_default_param (byte_of_nat n) (byte_of_nat k))
  = mk_state
      (upd IV 0 (Z.lxor (w IV 0) (0x01010000 + 256 * Z.of_nat k + Z.of_nat n)))
      0 0 (zeros 128) 0 n.
Proof.
  intros Hn Hk.
  pose proof (default_param_h (byte_of_nat n) (byte_of_nat k)) as Hh.
  rewrite !byte_of_nat_value in Hh by assumption.
  pose proof (default_param_outlen n k Hn) as Ho.
  unfold param_state in *. cbn [h] in Hh. rewrite Hh.
  unfold nat_of_byte. rewrite Ho, Nat2Z.id. reflexivity.
Qed.

Lemma init_refuses (St : tinyblake_blake2b_state) (n : nat) :
  (n = 0 \/ 64 < n)%nat -> tinyblake_blake2b_init St n = (-1, St).
Proof.
  intros Hn. unfold tinyblake_blake2b_init.
  assert (Hg : (n =? 0)%nat || (64 <? n)%nat = true).
  { apply orb_true_iff. destruct Hn as [Hn|Hn];
      [left; apply Nat.eqb_eq|right; apply Nat.ltb_lt]; exact Hn. }
  rewrite Hg. reflexivity.
Qed.

(** X7.  [tinyblake_blake2b_init] returns -1 and leaves the state as it
    was exactly when outlen is 0 or above 64.  Otherwise it returns 0 and
    the state it leaves does not depend on what the state held before:
    the chaining value is the IV with word 0 xored with
    0x01010000 + outlen (depth 1, fanout 1, no key), the counter is 0,
    the buffer is empty and zeroed, and the digest length is outlen. *)
Theorem init_accepts_exactly (St : tinyblake_blake2b_state) (n : nat) :
  ((n = 0 \/ 64 < n)%nat -> tinyblake_blake2b_init St n = (-1, St)) /\
  ((1 <= n <= 64)%nat ->
   tinyblake_blake2b_init St n
   = (0, mk_state
           (upd IV 0 (Z.lxor (w IV 0) (0x01010000 + Z.of_nat n)))
           0 0 (zeros 128) 0 n)).
Proof.
  split; intros Hn; [apply init_refuses; exact Hn|].
  unfold tinyblake_blake2b_init.
  assert (Hg : (n =? 0)%nat || (64 <? n)%nat = false).
  { apply orb_false_iff. split; [apply Nat.eqb_neq|apply Nat.ltb_ge]; lia. }
  rewrite Hg.
  change x00 with (byte_of_nat 0).
  rewrite init_from_param_accepts
    by (rewrite default_param_outlen by lia; lia).
  rewrite default_param_state by lia.
  repeat f_equal.
Qed.

(** X8.  [tinyblake_blake2b_init_param] returns -1 and leaves the state
    as it was for a null block and for a block whose byte 0 (the digest
    length) is 0 or above 64.  For any other block it returns 0 and the
    state it leaves depends on the block alone: word i of the chaining
    value is IV[i] xor the little-endian word i of the block, the
    counter is 0, the buffer is empty and the digest length is byte 0.
    [tinyblake_blake2b_init] with outlen up to 64 is init_param on the
    block (outlen, 0, 1, 1, 0, ..., 0). *)
Theorem init_param_accepts_exactly (St : tinyblake_blake2b_state)
        (p : list byte) (n : nat) :
  tinyblake_blake2b_init_param St None = (-1, St) /\
  (Z_of_byte (rd p 0) = 0 \/ 64 < Z_of_byte (rd p 0) ->
   tinyblake_blake2b_init_param St (Some p) = (-1, St)) /\
  (1 <= Z_of_byte (rd p 0) <= 64 ->
   tinyblake_blake2b_init_param St (Some p) = (0, param_state p) /\
   (forall i, (i < 8)%nat ->
      w (h (param_state p)) i
      = Z.lxor (w IV i) (le_value (map (rd p) (seq (i * 8) 8)))) /\
   t0 (param_state p) = 0 /\ t1 (param_state p) = 0 /\
   buflen (param_state p) = 0%nat /\
   Z.of_nat (outlen (param_state p)) = Z_of_byte (rd p 0)) /\
  ((n <= 64)%nat ->
   tinyblake_blake2b_init St n
   = tinyblake_blake2b_init_param St
       (Some (build_default_param (byte_of_nat n) x00))).
Proof.
  split; [reflexivity|]. split; [|split].
  - intros Hb. apply init_from_param_refuses. exact Hb.
  - intros Hb. split; [apply init_from_param_accepts; exact Hb|].
    split; [|repeat split].
    + intros i Hi. unfold param_state. cbn [h].
      do 8 (destruct i as [|i];
            [cbn [seq map w nth Nat.mul Nat.add];
             unfold load_le64, load_le64_on, memcpy_to_u64, rd;
             cbn [seq map]; rewrite ?nth_skipn; reflexivity|]).
      lia.
    + unfold param_state, nat_of_byte. cbn [outlen].
      rewrite Z2Nat.id by lia. reflexivity.
  - intros Hn. unfold tinyblake_blake2b_init, tinyblake_blake2b_init_param.
    destruct (Nat.eqb_spec n 0) as [->|Hn0].
    + cbn [orb]. symmetry. apply init_from_param_refuses. left. reflexivity.
    + assert (Hg : (64 <? n)%nat = false) by (apply Nat.ltb_ge; lia).
      rewrite Hg. reflexivity.
Qed.

Section Dispatch.

Variable get_compress : blake2b_compress_fn.

(** One update of a whole block on a state with an empty buffer keeps
    the block in the buffer. *)
Lemma update_block_on_empty (St : tinyblake_blake2b_state)
      (block : list byte) :
  buflen St = 0%nat -> length (buf St) = 128%nat -> length block = 128%nat ->
  tinyblake_blake2b_update get_compress St (Some block) 128
  = (0, set_buflen (set_buf St block) 128).
Proof.
  intros Hbl Hbuf Hblock. unfold tinyblake_blake2b_update.
  rewrite Hbl.
  change (128 <? 0)%nat with false. change (128 =? 0)%nat with false.
  change (0 <? 0)%nat with false. cbv iota.
  unfold update_tail. rewrite update_loop_unfold.
  change (128 <=? 128)%nat with true. cbv iota.
  change (0 <? 128)%nat with true. cbv iota.
  rewrite memcpy_spec by lia.
  change (firstn 0 (buf St)) with (@nil byte).
  rewrite (firstn_all2 (n := 128) block) by lia.
  rewrite (skipn_all2 (n := 0 + 128) (buf St)) by (rewrite Hbuf; lia).
  rewrite app_nil_l, app_nil_r. reflexivity.
Qed.

Lemma key_block_value (key : list byte) (keylen : nat) :
  (keylen <= 128)%nat -> (keylen <= length key)%nat ->
  memcpy (zeros 128) 0 key keylen = firstn keylen key ++ zeros (128 - keylen).
Proof.
  intros Hk Hlen. rewrite memcpy_spec by (rewrite ?zeros_length; lia).
  cbn [firstn app Nat.add]. rewrite skipn_zeros. reflexivity.
Qed.

Lemma init_key_ok (St : tinyblake_blake2b_state) (n : nat) (key : list byte)
      (keylen : nat) :
  (1 <= n <= 64)%nat -> (1 <= keylen <= 64)%nat ->
  tinyblake_blake2b_init_key get_compress St n (Some key) keylen
  = (0, keyed_state n key keylen) /\
  well_formed (keyed_state n key keylen) /\
  outlen (keyed_state n key keylen) = n.
Proof.
  intros Hn Hk. unfold tinyblake_blake2b_init_key.
  assert (Hg : (n =? 0)%nat || (64 <? n)%nat = false).
  { apply orb_false_iff. split; [apply Nat.eqb_neq|apply Nat.ltb_ge]; lia. }
  assert (Hg' : (keylen =? 0)%nat || (64 <? keylen)%nat = false).
  { apply orb_false_iff. split; [apply Nat.eqb_neq|apply Nat.ltb_ge]; lia. }
  rewrite Hg, Hg'.
  rewrite init_from_param_accepts
    by (rewrite default_param_outlen by lia; lia).
  cbn [Z.eqb negb].
  rewrite default_param_state by lia.
  rewrite update_block_on_empty
    by (cbn [buflen buf]; rewrite ?zeros_length, ?memcpy_length; reflexivity).
  split; [reflexivity|]. split; [|reflexivity].
  unfold well_formed, keyed_state. cbn [buf buflen].
  rewrite memcpy_length, zeros_length. lia.
Qed.

Lemma init_key_refuses (St : tinyblake_blake2b_state) (n : nat)
      (key : option (list byte)) (keylen : nat) :
  (n = 0 \/ 64 < n)%nat \/ key = None \/ (keylen = 0 \/ 64 < keylen)%nat ->
  tinyblake_blake2b_init_key get_compress St n key keylen = (-1, St).
Proof.
  intros H. unfold tinyblake_blake2b_init_key.
  destruct ((n =? 0)%nat || (64 <? n)%nat) eqn:Hg; [reflexivity|].
  apply orb_false_iff in Hg. destruct Hg as [G1 G2].
  apply Nat.eqb_neq in G1. apply Nat.ltb_ge in G2.
  destruct key as [key|]; [|reflexivity].
  destruct ((keylen =? 0)%nat || (64 <? keylen)%nat) eqn:Hg'; [reflexivity|].
  apply orb_false_iff in Hg'. destruct Hg' as [G3 G4].
  apply Nat.eqb_neq in G3. apply Nat.ltb_ge in G4.
  destruct H as [H|[H|H]]; [lia|discriminate H|lia].
Qed.

(** X9.  [tinyblake_blake2b_init_key] returns -1 and leaves the state as
    it was when outlen is not in 1..64, the key pointer is null, or
    keylen is not in 1..64.  Otherwise it returns 0 without calling the
    compression function: the chaining value is the IV with word 0 xored
    with 0x01010000 + 256 * keylen + outlen, the counter is 0, and the
    key, zero-padded to 128 bytes, waits in the buffer as a full block
    (buflen = 128), so that it becomes the final block when no message
    follows. *)
Theorem init_key_accepts_exactly (St : tinyblake_blake2b_state) (n : nat)
        (key : list byte) (keylen : nat) :
  ((n = 0 \/ 64 < n)%nat \/ (keylen = 0 \/ 64 < keylen)%nat ->
   tinyblake_blake2b_init_key get_compress St n (Some key) keylen = (-1, St)) /\
  tinyblake_blake2b_init_key get_compress St n None keylen = (-1, St) /\
  ((1 <= n <= 64)%nat -> (1 <= keylen <= 64)%nat ->
   (keylen <= length key)%nat ->
   tinyblake_blake2b_init_key get_compress St n (Some key) keylen
   = (0, mk_state
           (upd IV 0
              (Z.lxor (w IV 0)
                      (0x01010000 + 256 * Z.of_nat keylen + Z.of_nat n)))
           0 0 (firstn keylen key ++ zeros (128 - keylen)) 128 n)).
Proof.
  split; [|split].
  - intros H. apply init_key_refuses. tauto.
  - apply init_key_refuses. right. left. reflexivity.
  - intros Hn Hk Hlen. destruct (init_key_ok St n key keylen Hn Hk) as (E & _).
    rewrite E. unfold keyed_state. rewrite key_block_value by lia.
    reflexivity.
Qed.

(** From a usable state, feeding a message chunk by chunk and feeding
    it whole lead to the same digest. *)
Lemma chunks_then_final (K : tinyblake_blake2b_state)
      (chunks : list (list byte)) (o : list byte) (cap : nat) :
  well_formed K -> (outlen K <= cap)%nat ->
  exists Sa Sb o',
    update_chunks get_compress K chunks = (0, Sa) /\
    tinyblake_blake2b_update get_compress K (Some (concat chunks))
      (length (concat chunks)) = (0, Sb) /\
    tinyblake_blake2b_final get_compress Sa (Some o) cap
    = (0, zero_state, Some o') /\
    tinyblake_blake2b_final get_compress Sb (Some o) cap
    = (0, zero_state, Some o') /\
    length o' = length o /\ outlen Sa = outlen K.
Proof.
  intros W Hcap.
  destruct (update_chunks_absorb get_compress chunks K W)
    as (Sa & Ea & Wa & Oa & Ca & Pa).
  destruct (update_absorb get_compress K (concat chunks) W)
    as (Sb & Eb & Wb & Ob & Cb & Pb).
  destruct (Blake2bClaims.final_same_view get_compress Sa Sb o cap Wa Wb)
    as [E _]; try congruence; try lia.
  destruct (final_succeeds get_compress Sa o cap) as (o' & Ef & Lf); [lia|].
  exists Sa, Sb, o'. rewrite <- E. repeat split; assumption.
Qed.

(** X10.  Keyed hashing is incremental: for every key of 1..64 bytes,
    digest length in 1..64 and message cut into chunks, init_key, one
    update per chunk and final return 0 and produce what the keyed
    one-shot call produces on the whole message, with any backend and
    any prior contents of the state and the output buffer. *)
Theorem keyed_incremental_equals_oneshot (St0 : tinyblake_blake2b_state)
        (n : nat) (key : list byte) (keylen : nat)
        (chunks : list (list byte)) (o : list byte) :
  (1 <= n <= 64)%nat -> (1 <= keylen <= 64)%nat ->
  (keylen <= length key)%nat ->
  blake2b_keyed_stream get_compress St0 n (Some key) keylen chunks (Some o)
  = tinyblake_blake2b get_compress (Some o) n
      (Some (concat chunks)) (length (concat chunks)) (Some key) keylen /\
  fst (blake2b_keyed_stream get_compress St0 n (Some key) keylen chunks
         (Some o)) = 0.
Proof.
  intros Hn Hk _. unfold blake2b_keyed_stream, tinyblake_blake2b.
  assert (Hpos : (0 <? keylen)%nat = true) by (apply Nat.ltb_lt; lia).
  rewrite Hpos.
  destruct (init_key_ok St0 n key keylen Hn Hk) as (E0 & W & Ol).
  destruct (init_key_ok zero_state n key keylen Hn Hk) as (Ez & _).
  rewrite E0, Ez. cbn [Z.eqb negb].
  destruct (chunks_then_final (keyed_state n key keylen) chunks o n W)
    as (Sa & Sb & o' & Ea & Eb & Fa & Fb & _); [lia|].
  rewrite Ea, Eb. cbn [Z.eqb negb]. rewrite Fa, Fb.
  split; reflexivity.
Qed.

(** X11.  Keyed hashing is hashing with the key block in front: the
    keyed one-shot call returns 0 and produces what init_param on the
    block (outlen, keylen, 1, 1, 0, ..., 0), one update with the key
    zero-padded to 128 bytes followed by the message, and final
    produce. *)
Theorem keyed_hash_is_hash_of_key_block (n : nat) (key : list byte)
        (keylen : nat) (msg o : list byte) :
  (1 <= n <= 64)%nat -> (1 <= keylen <= 64)%nat ->
  (keylen <= length key)%nat ->
  tinyblake_blake2b get_compress (Some o) n (Some msg) (length msg)
    (Some key) keylen
  = blake2b_with_param get_compress
      (build_default_param (byte_of_nat n) (byte_of_nat keylen))
      ((firstn keylen key ++ zeros (128 - keylen)) ++ msg) (Some o) n /\
  fst (tinyblake_blake2b get_compress (Some o) n (Some msg) (length msg)
         (Some key) keylen) = 0.
Proof.
  intros Hn Hk Hlen. unfold blake2b_with_param, tinyblake_blake2b.
  assert (Hpos : (0 <? keylen)%nat = true) by (apply Nat.ltb_lt; lia).
  rewrite Hpos.
  destruct (init_key_ok zero_state n key keylen Hn Hk) as (Ez & W & Ol).
  rewrite Ez. cbn [Z.eqb negb].
  unfold tinyblake_blake2b_init_param.
  rewrite init_from_param_accepts
    by (rewrite default_param_outlen by lia; lia).
  cbn [Z.eqb negb].
  set (P := param_state (build_default_param (byte_of_nat n)
                                             (byte_of_nat keylen))).
  destruct (param_state_well_formed
              (build_default_param (byte_of_nat n) (byte_of_nat keylen)))
    as (WP & PP & BP). fold P in WP, PP, BP.
  set (block := firstn keylen key ++ zeros (128 - keylen)).
  assert (Lb : length block = 128%nat).
  { unfold block. rewrite length_app, length_firstn, zeros_length. lia. }
  (* the keyed state is P after the update with the key block *)
  assert (EK : keyed_state n key keylen = set_buflen (set_buf P block) 128).
  { unfold keyed_state, P. rewrite default_param_state by lia.
    rewrite key_block_value by lia. reflexivity. }
  assert (CK : core_of (keyed_state n key keylen) = core_of P).
  { rewrite EK. reflexivity. }
  assert (PK : pending (keyed_state n key keylen) = block).
  { rewrite EK. unfold pending. cbn [buf buflen set_buf set_buflen].
    apply firstn_all2. lia. }
  assert (OK : outlen (keyed_state n key keylen) = outlen P).
  { rewrite EK. reflexivity. }
  destruct (update_absorb get_compress (keyed_state n key keylen) msg W)
    as (Sa & Ea & Wa & Oa & Ca & Pa).
  destruct (update_absorb get_compress P (block ++ msg) WP)
    as (Sb & Eb & Wb & Ob & Cb & Pb).
  rewrite Ea, Eb. cbn [Z.eqb negb].
  rewrite PP in Cb, Pb. cbn [app] in Cb, Pb.
  rewrite CK, PK in Ca, Pa.
  destruct (Blake2bClaims.final_same_view get_compress Sa Sb o n Wa Wb)
    as [E R]; try congruence; try lia.
  rewrite <- E.
  destruct (tinyblake_blake2b_final get_compress Sa (Some o) n) as [[rc s] o'].
  cbn [fst] in *. split; [reflexivity|exact R].
Qed.

Lemma final_digest_any (St : tinyblake_blake2b_state) :
  exists d,
    length d = 64%nat /\
    forall o cap, (outlen St <= cap)%nat ->
      tinyblake_blake2b_final get_compress St (Some o) cap
      = (0, zero_state, Some (memcpy o 0 d (outlen St))).
Proof.
  pose proof (increment_counter_fields St (Z.of_nat (buflen St)))
    as (_ & _ & _ & Fo).
  set (St1 := increment_counter St (Z.of_nat (buflen St))) in *.
  set (St2 := if (buflen St1 <? 128)%nat
              then set_buf St1 (memset (buf St1) (buflen St1) x00
                                       (128 - buflen St1))
              else St1).
  assert (Ho : outlen (compress_block get_compress St2 (buf St2) true)
               = outlen St).
  { unfold compress_block, St2. destruct (buflen St1 <? 128)%nat;
      cbn [outlen set_h set_buf]; exact Fo. }
  exists (encode_h (h (compress_block get_compress St2 (buf St2) true))).
  split; [apply HmacClaims.encode_h_length|]. intros o cap Hcap.
  unfold tinyblake_blake2b_final.
  apply Nat.ltb_ge in Hcap. rewrite Hcap.
  fold St1. fold St2. rewrite Ho. reflexivity.
Qed.

(** X12.  A final that is given enough room writes the digest and
    nothing else: for a state with digest length up to 64 there is one
    digest of exactly that many bytes such that, for every output buffer
    and every capacity that are not smaller, final returns 0, wipes the
    state, puts the digest at the front of the buffer and leaves every
    byte behind it as it was. *)
Theorem final_writes_only_the_digest (St : tinyblake_blake2b_state) :
  (outlen St <= 64)%nat ->
  exists d,
    length d = outlen St /\
    forall (o : list byte) (cap : nat),
      (outlen St <= cap)%nat -> (outlen St <= length o)%nat ->
      tinyblake_blake2b_final get_compress St (Some o) cap
      = (0, zero_state, Some (d ++ skipn (outlen St) o)).
Proof.
  intros Hn. destruct (final_digest_any St) as (dd & Ld & Ed).
  exists (firstn (outlen St) dd). split.
  - rewrite length_firstn. lia.
  - intros o cap Hcap Ho. rewrite Ed by exact Hcap.
    rewrite memcpy_spec by lia. reflexivity.
Qed.

(** X13.  The one-shot call [tinyblake_blake2b] returns -1 and writes
    nothing exactly when outlen is not in 1..64, or keylen is above 64,
    or keylen is non-zero with a null key, or the input is null with a
    non-zero length, or the output pointer is null.  For all other
    arguments it returns 0 and the output region keeps its size.  A key
    pointer given with keylen = 0 is ignored. *)
Theorem oneshot_fails_exactly_when
        (out : option (list byte)) (n : nat)
        (inp : option (list byte)) (inlen : nat)
        (key : option (list byte)) (keylen : nat) :
  let r := tinyblake_blake2b get_compress out n inp inlen key keylen in
  let refused :=
    (n = 0 \/ 64 < n)%nat \/ (64 < keylen)%nat \/
    (key = None /\ keylen <> 0%nat) \/
    (inp = None /\ inlen <> 0%nat) \/ out = None in
  (refused -> r = (-1, out)) /\
  (~ refused ->
   fst r = 0 /\
   exists o o', out = Some o /\ snd r = Some o' /\ length o' = length o) /\
  (refused \/ ~ refused) /\
  tinyblake_blake2b get_compress out n inp inlen key 0
  = tinyblake_blake2b get_compress out n inp inlen None 0.
Proof.
  cbv zeta.
  assert (Hdec : ((n = 0 \/ 64 < n)%nat \/ (64 < keylen)%nat \/
                  (key = None /\ keylen <> 0%nat) \/
                  (inp = None /\ inlen <> 0%nat) \/ out = None) \/
                 ~ ((n = 0 \/ 64 < n)%nat \/ (64 < keylen)%nat \/
                    (key = None /\ keylen <> 0%nat) \/
                    (inp = None /\ inlen <> 0%nat) \/ out = None)).
  { destruct (Nat.eq_dec n 0); [tauto|].
    destruct (le_lt_dec n 64); [|tauto].
    destruct (le_lt_dec keylen 64); [|tauto].
    destruct (Nat.eq_dec keylen 0), (Nat.eq_dec inlen 0),
      key, inp, out; try tauto;
      right; intros [H|[H|[[H1 H2]|[[H1 H2]|H]]]];
      try discriminate; try lia. }
  (* the state after init, when init accepts *)
  assert (Hinit :
    (n = 0 \/ 64 < n)%nat \/ (64 < keylen)%nat \/
    (key = None /\ keylen <> 0%nat) \/
    exists K,
      (if (0 <? keylen)%nat
       then tinyblake_blake2b_init_key get_compress zero_state n key keylen
       else tinyblake_blake2b_init zero_state n) = (0, K) /\
      (buflen K <= 128)%nat /\ outlen K = n).
  { destruct (Nat.eq_dec n 0); [tauto|].
    destruct (le_lt_dec n 64); [|tauto].
    destruct (le_lt_dec keylen 64); [|tauto].
    destruct (Nat.eq_dec keylen 0) as [->|Hk].
    - right. right. right. exists (fresh_state n).
      destruct (init_succeeds zero_state n) as (E & W & _ & O & _); [lia|].
      change (0 <? 0)%nat with false. cbv iota.
      split; [exact E|]. split; [apply W|exact O].
    - destruct key as [key|]; [|tauto].
      right. right. right. exists (keyed_state n key keylen).
      assert (Hpos : (0 <? keylen)%nat = true) by (apply Nat.ltb_lt; lia).
      rewrite Hpos.
      destruct (init_key_ok zero_state n key keylen) as (E & W & O);
        [lia|lia|].
      split; [exact E|]. split; [apply W|exact O]. }
  assert (Hrefuse_init :
    (n = 0 \/ 64 < n)%nat \/ (64 < keylen)%nat \/
    (key = None /\ keylen <> 0%nat) ->
    (if (0 <? keylen)%nat
     then tinyblake_blake2b_init_key get_compress zero_state n key keylen
     else tinyblake_blake2b_init zero_state n) = (-1, zero_state)).
  { intros H. destruct (Nat.ltb_spec 0 keylen) as [Hpos|Hzero].
    - apply init_key_refuses.
      destruct H as [H|[H|[H _]]]; [tauto|right; right; right; exact H|tauto].
    - apply init_refuses.
      destruct H as [H|[H|[_ H]]]; [exact H|lia|lia]. }
  split; [|split; [|split; [exact Hdec|reflexivity]]].
  - intros Href. unfold tinyblake_blake2b.
    destruct Hinit as [H|[H|[H|(K & EK & BK & OK)]]];
      try (rewrite Hrefuse_init by tauto; reflexivity).
    rewrite EK. cbn [Z.eqb negb].
    destruct Href as [H|[H|[H|[[Hi Hl]|Ho]]]];
      try (rewrite Hrefuse_init in EK by tauto; discriminate EK).
    + subst inp. rewrite update_null by exact BK.
      apply Nat.eqb_neq in Hl. rewrite Hl. reflexivity.
    + subst out.
      destruct (tinyblake_blake2b_update get_compress K inp inlen)
        as [rc St] eqn:Eu.
      destruct inp as [data|].
      * destruct (update_succeeds get_compress K data inlen BK) as (U0 & _).
        rewrite Eu in U0. cbn [fst] in U0. subst rc. reflexivity.
      * rewrite update_null in Eu by exact BK.
        destruct (inlen =? 0)%nat; injection Eu as <- <-; reflexivity.
  - intros Hok. unfold tinyblake_blake2b.
    destruct Hinit as [H|[H|[H|(K & EK & BK & OK)]]]; try tauto.
    rewrite EK. cbn [Z.eqb negb].
    destruct out as [o|]; [|tauto].
    assert (Hupd : exists St,
              tinyblake_blake2b_update get_compress K inp inlen = (0, St) /\
              outlen St = n).
    { destruct inp as [data|].
      - destruct (update_succeeds get_compress K data inlen BK)
          as (U0 & _ & U2).
        destruct (tinyblake_blake2b_update get_compress K (Some data) inlen)
          as [rc St]. cbn [fst snd] in *. subst rc.
        exists St. split; [reflexivity|congruence].
      - destruct (Nat.eq_dec inlen 0) as [->|Hl]; [|tauto].
        rewrite update_null by exact BK. exists K. split; [reflexivity|exact OK]. }
    destruct Hupd as (St & Eu & Ou). rewrite Eu. cbn [Z.eqb negb].
    destruct (final_succeeds get_compress St o n) as (o' & Ef & Lf); [lia|].
    rewrite Ef. cbn [fst snd]. split; [reflexivity|].
    exists o, o'. repeat split; assumption.
Qed.

End Dispatch.

Lemma keyed_incremental_equals_oneshot_witness :
  ((1 <= 32 <= 64)%nat /\ (1 <= 3 <= 64)%nat /\
   (3 <= length (ascii_bytes "key"))%nat) /\
  blake2b_keyed_stream blake2b_compress_portable zero_state 32
    (Some (ascii_bytes "key")) 3 [repeat x61 100; []; repeat x62 158]
    (Some (zeros 32))
  = tinyblake_blake2b blake2b_compress_portable (Some (zeros 32)) 32
      (Some (concat [repeat x61 100; []; repeat x62 158]))
      (length (concat [repeat x61 100; []; repeat x62 158]))
      (Some (ascii_bytes "key")) 3.
Proof.
  assert (Hn : (1 <= 32 <= 64)%nat) by lia.
  assert (Hk : (1 <= 3 <= 64)%nat) by lia.
  assert (Hl : (3 <= length (ascii_bytes "key"))%nat) by (cbn; lia).
  split; [repeat split; try assumption; lia|].
  exact (proj1 (keyed_incremental_equals_oneshot blake2b_compress_portable
                  zero_state 32 (ascii_bytes "key") 3
                  [repeat x61 100; []; repeat x62 158] (zeros 32) Hn Hk Hl)).
Defined.

Lemma keyed_hash_is_hash_of_key_block_witness :
  ((1 <= 64 <= 64)%nat /\ (1 <= 3 <= 64)%nat /\
   (3 <= length (ascii_bytes "key"))%nat) /\
  tinyblake_blake2b blake2b_compress_portable (Some (zeros 64)) 64
    (Some (ascii_bytes "abc")) (length (ascii_bytes "abc"))
    (Some (ascii_bytes "key")) 3
  = blake2b_with_param blake2b_compress_portable
      (build_default_param (byte_of_nat 64) (byte_of_nat 3))
      ((firstn 3 (ascii_bytes "key") ++ zeros (128 - 3)) ++ ascii_bytes "abc")
      (Some (zeros 64)) 64.
Proof.
  assert (Hn : (1 <= 64 <= 64)%nat) by lia.
  assert (Hk : (1 <= 3 <= 64)%nat) by lia.
  assert (Hl : (3 <= length (ascii_bytes "key"))%nat) by (cbn; lia).
  split; [repeat split; try assumption; lia|].
  exact (proj1 (keyed_hash_is_hash_of_key_block blake2b_compress_portable
                  64 (ascii_bytes "key") 3 (ascii_bytes "abc") (zeros 64)
                  Hn Hk Hl)).
Defined.

Lemma final_writes_only_the_digest_witness :
  (outlen (fresh_state 32) <= 64)%nat /\
  exists d,
    length d = 32%nat /\
    tinyblake_blake2b_final blake2b_compress_portable (fresh_state 32)
      (Some (repeat xff 40)) 64
    = (0, zero_state, Some (d ++ repeat xff 8)).
Proof.
  assert (H : (outlen (fresh_state 32) <= 64)%nat) by (cbn; lia).
  split; [exact H|].
  destruct (final_writes_only_the_digest blake2b_compress_portable
              (fresh_state 32) H) as (d & L & E).
  exists d. split; [exact L|].
  apply (E (repeat xff 40) 64%nat); cbn; lia.
Defined.

End Blake2bExtras.

(* ===================================================================== *)
(** ** blake2b.cpp: the C++ hasher and the free functions *)
(* ===================================================================== *)

Module Blake2bCppExtras.

Import Blake2bExtras.

Lemma vector_data_nonempty (b : bool) (v : list byte) :
  (1 <= length v)%nat -> vector_data b v = Some v.
Proof. destruct v; cbn [length]; [lia|reflexivity]. Qed.

Section Dispatch.

Variable get_compress : blake2b_compress_fn.

Variable empty_data_is_null : bool.

Lemma hasher_ctor_ok (n : nat) :
  (1 <= n <= 64)%nat ->
  Blake2bCpp.hasher_ctor n
  = Returns (Blake2bCpp.mk_hasher (fresh_state n)
               (build_default_param (byte_of_nat n) x00) false (zeros 128)) /\
  init_from_param zero_state (build_default_param (byte_of_nat n) x00)
  = (0, fresh_state n).
Proof.
  intros Hn.
  assert (Hg : (n =? 0)%nat || (64 <? n)%nat = false).
  { apply orb_false_iff. split; [apply Nat.eqb_neq|apply Nat.ltb_ge]; lia. }
  assert (Hi : init_from_param zero_state
                 (build_default_param (byte_of_nat n) x00)
               = (0, fresh_state n)).
  { destruct (init_succeeds zero_state n Hn) as (E & _).
    unfold tinyblake_blake2b_init in E. rewrite Hg in E. exact E. }
  split; [|exact Hi].
  unfold Blake2bCpp.hasher_ctor. rewrite Hg, Hi. reflexivity.
Qed.

Lemma hasher_ctor_key_ok (n : nat) (key : list byte) (keylen : nat) :
  (1 <= n <= 64)%nat -> (1 <= keylen <= 64)%nat ->
  Blake2bCpp.hasher_ctor_key get_compress (Some key) keylen n
  = Returns (Blake2bCpp.mk_hasher (keyed_state n key keylen)
               (build_default_param (byte_of_nat n) (byte_of_nat keylen))
               true (memcpy (zeros 128) 0 key keylen)).
Proof.
  intros Hn Hk. unfold Blake2bCpp.hasher_ctor_key.
  assert (Hg : (n =? 0)%nat || (64 <? n)%nat = false).
  { apply orb_false_iff. split; [apply Nat.eqb_neq|apply Nat.ltb_ge]; lia. }
  assert (Hg' : (keylen =? 0)%nat || (64 <? keylen)%nat = false).
  { apply orb_false_iff. split; [apply Nat.eqb_neq|apply Nat.ltb_ge]; lia. }
  rewrite Hg, Hg'.
  rewrite init_from_param_accepts
    by (rewrite default_param_outlen by lia; lia).
  cbn [Z.eqb negb].
  rewrite default_param_state by lia.
  rewrite update_block_on_empty
    by (cbn [buflen buf]; rewrite ?zeros_length, ?memcpy_length; reflexivity).
  reflexivity.
Qed.

(** X14.  [blake2b::hasher::reset()] restores the constructed hasher:
    for each of the three constructors given valid arguments (digest
    length in 1..64; key of 1..64 bytes; a 64-byte parameter block whose
    byte 0 is in 1..64) the constructor returns a hasher, and reset(),
    from whatever the hash state has become through updates or a final,
    returns without an exception and leaves exactly that hasher, key
    block absorbed again for the keyed one. *)
Theorem blake2b_hasher_reset_equals_fresh (n : nat) (key : list byte)
        (keylen : nat) (p : list byte) (st : tinyblake_blake2b_state) :
  (1 <= n <= 64)%nat -> (1 <= keylen <= 64)%nat ->
  length p = 64%nat -> 1 <= Z_of_byte (rd p 0) <= 64 ->
  (exists hs,
     Blake2bCpp.hasher_ctor n = Returns hs /\
     Blake2bCpp.hasher_reset get_compress (Blake2bCpp.set_state_ hs st)
     = Returns hs) /\
  (exists hs,
     Blake2bCpp.hasher_ctor_key get_compress (Some key) keylen n = Returns hs /\
     Blake2bCpp.hasher_reset get_compress (Blake2bCpp.set_state_ hs st)
     = Returns hs) /\
  (exists hs,
     Blake2bCpp.hasher_ctor_param (Some p) = Returns hs /\
     Blake2bCpp.hasher_reset get_compress (Blake2bCpp.set_state_ hs st)
     = Returns hs).
Proof.
  intros Hn Hk Hp Hb. split; [|split].
  - destruct (hasher_ctor_ok n Hn) as (E & Hi). eexists. split; [exact E|].
    unfold Blake2bCpp.hasher_reset, Blake2bCpp.set_state_.
    cbn [Blake2bCpp.state_ Blake2bCpp.param_ Blake2bCpp.keyed_
         Blake2bCpp.key_block_].
    change x00 with (byte_of_nat 0) in *.
    rewrite init_from_param_accepts
      by (rewrite default_param_outlen by lia; lia).
    rewrite init_from_param_accepts in Hi
      by (rewrite default_param_outlen by lia; lia).
    injection Hi as Hi. rewrite Hi. reflexivity.
  - eexists. split; [apply hasher_ctor_key_ok; assumption|].
    unfold Blake2bCpp.hasher_reset, Blake2bCpp.set_state_.
    cbn [Blake2bCpp.state_ Blake2bCpp.param_ Blake2bCpp.keyed_
         Blake2bCpp.key_block_].
    rewrite init_from_param_accepts
      by (rewrite default_param_outlen by lia; lia).
    cbn [Z.eqb negb].
    rewrite default_param_state by lia.
    rewrite update_block_on_empty
      by (cbn [buflen buf]; rewrite ?zeros_length, ?memcpy_length; reflexivity).
    reflexivity.
  - assert (Hm : memcpy (zeros 64) 0 p 64 = p).
    { rewrite memcpy_spec by (rewrite ?zeros_length; lia).
      change (firstn 0 (zeros 64)) with (@nil byte).
      rewrite firstn_all2 by lia.
      rewrite skipn_all2 by (rewrite zeros_length; lia).
      rewrite app_nil_r. reflexivity. }
    unfold Blake2bCpp.hasher_ctor_param. rewrite Hm.
    rewrite init_from_param_accepts by exact Hb.
    cbn [Z.eqb negb]. eexists. split; [reflexivity|].
    unfold Blake2bCpp.hasher_reset, Blake2bCpp.set_state_.
    cbn [Blake2bCpp.state_ Blake2bCpp.param_ Blake2bCpp.keyed_
         Blake2bCpp.key_block_].
    rewrite init_from_param_accepts by exact Hb.
    reflexivity.
Qed.

Lemma hasher_updates_chunks (chunks : list (list byte)) :
  forall hs : Blake2bCpp.hasher,
  well_formed (Blake2bCpp.state_ hs) ->
  exists St',
    update_chunks get_compress (Blake2bCpp.state_ hs) chunks = (0, St') /\
    Blake2bCpp.hasher_updates get_compress hs chunks
    = Returns (Blake2bCpp.set_state_ hs St').
Proof.
  induction chunks as [|c rest IH]; intros hs W.
  - exists (Blake2bCpp.state_ hs). split; [reflexivity|].
    destruct hs. reflexivity.
  - cbn [update_chunks Blake2bCpp.hasher_updates].
    unfold Blake2bCpp.hasher_update.
    destruct (update_absorb get_compress (Blake2bCpp.state_ hs) c W)
      as (S1 & E1 & W1 & _).
    rewrite E1. cbn [Z.eqb negb and_then].
    destruct (IH (Blake2bCpp.set_state_ hs S1) W1) as (St' & E' & H').
    exists St'. split; [exact E'|]. rewrite H'. reflexivity.
Qed.

(** The digest of a hasher whose state is usable. *)
Lemma hasher_digest_from (hs : Blake2bCpp.hasher)
      (chunks : list (list byte)) (n : nat) :
  well_formed (Blake2bCpp.state_ hs) ->
  outlen (Blake2bCpp.state_ hs) = n -> (1 <= n)%nat ->
  exists Sb d,
    tinyblake_blake2b_update get_compress (Blake2bCpp.state_ hs)
      (Some (concat chunks)) (length (concat chunks)) = (0, Sb) /\
    tinyblake_blake2b_final get_compress Sb (Some (zeros n)) n
    = (0, zero_state, Some d) /\
    length d = n /\
    Blake2bCpp.hasher_digest get_compress empty_data_is_null
      (Returns hs) chunks = Returns d.
Proof.
  intros W Ho Hn.
  destruct (chunks_then_final get_compress (Blake2bCpp.state_ hs) chunks
              (zeros n) n W) as (Sa & Sb & d & Ea & Eb & Fa & Fb & Ld & Oa);
    [lia|].
  exists Sb, d. split; [exact Eb|]. split; [exact Fb|].
  rewrite zeros_length in Ld. split; [exact Ld|].
  unfold Blake2bCpp.hasher_digest. cbn [and_then].
  destruct (hasher_updates_chunks chunks hs W) as (St' & E' & H').
  rewrite Ea in E'. injection E' as <-.
  rewrite H'. cbn [and_then].
  unfold Blake2bCpp.hasher_final_, Blake2bCpp.set_state_.
  cbn [Blake2bCpp.state_]. rewrite Oa, Ho.
  rewrite vector_data_nonempty by (rewrite zeros_length; exact Hn).
  rewrite zeros_length, Fa. reflexivity.
Qed.

(** X15.  The C++ streaming hasher agrees with the free functions: for
    a digest length n in 1..64 and a message cut into chunks, a
    hasher(n) fed chunk by chunk returns from final_() a vector of
    exactly n bytes, the one that hash() returns for the whole message;
    for a key of 1..64 bytes, the keyed hasher returns the vector that
    keyed_hash() returns.  No call throws. *)
Theorem blake2b_hasher_matches_hash (n : nat) (key : list byte)
        (keylen : nat) (chunks : list (list byte)) :
  (1 <= n <= 64)%nat -> (1 <= keylen <= 64)%nat ->
  (keylen <= length key)%nat ->
  (exists d,
     length d = n /\
     Blake2bCpp.hasher_digest get_compress empty_data_is_null
       (Blake2bCpp.hasher_ctor n) chunks = Returns d /\
     Blake2bCpp.hash get_compress empty_data_is_null
       (Some (concat chunks)) (length (concat chunks)) n = Returns d) /\
  (exists d,
     length d = n /\
     Blake2bCpp.hasher_digest get_compress empty_data_is_null
       (Blake2bCpp.hasher_ctor_key get_compress (Some key) keylen n) chunks
     = Returns d /\
     Blake2bCpp.keyed_hash get_compress empty_data_is_null
       (Some key) keylen (Some (concat chunks)) (length (concat chunks)) n
     = Returns d).
Proof.
  intros Hn Hk _.
  assert (Hv : vector_data empty_data_is_null (zeros n) = Some (zeros n)).
  { apply vector_data_nonempty. rewrite zeros_length. lia. }
  split.
  - destruct (hasher_ctor_ok n Hn) as (Ec & _).
    destruct (init_succeeds zero_state n Hn) as (Ei & W & _ & Ol & _).
    rewrite Ec.
    destruct (hasher_digest_from
                (Blake2bCpp.mk_hasher (fresh_state n)
                   (build_default_param (byte_of_nat n) x00) false (zeros 128))
                chunks n W Ol) as (Sb & d & Eu & Ef & Ld & Ed); [lia|].
    cbn [Blake2bCpp.state_] in Eu.
    exists d. split; [exact Ld|]. split; [exact Ed|].
    unfold Blake2bCpp.hash, tinyblake_blake2b. rewrite Hv.
    change (0 <? 0)%nat with false. cbv iota.
    rewrite Ei. cbn [Z.eqb negb]. rewrite Eu. cbn [Z.eqb negb].
    rewrite Ef. reflexivity.
  - rewrite (hasher_ctor_key_ok n key keylen Hn Hk).
    destruct (init_key_ok get_compress zero_state n key keylen Hn Hk)
      as (Ei & W & Ol).
    destruct (hasher_digest_from
                (Blake2bCpp.mk_hasher (keyed_state n key keylen)
                   (build_default_param (byte_of_nat n) (byte_of_nat keylen))
                   true (memcpy (zeros 128) 0 key keylen))
                chunks n W Ol) as (Sb & d & Eu & Ef & Ld & Ed); [lia|].
    cbn [Blake2bCpp.state_] in Eu.
    exists d. split; [exact Ld|]. split; [exact Ed|].
    unfold Blake2bCpp.keyed_hash, tinyblake_blake2b. rewrite Hv.
    assert (Hpos : (0 <? keylen)%nat = true) by (apply Nat.ltb_lt; lia).
    rewrite Hpos, Ei. cbn [Z.eqb negb]. rewrite Eu. cbn [Z.eqb negb].
    rewrite Ef. reflexivity.
Qed.

End Dispatch.

Lemma blake2b_hasher_reset_equals_fresh_witness :
  ((1 <= 64 <= 64)%nat /\ (1 <= 4 <= 64)%nat /\
   length (build_default_param x20 x00) = 64%nat /\
   1 <= Z_of_byte (rd (build_default_param x20 x00) 0) <= 64) /\
  exists hs,
    Blake2bCpp.hasher_ctor_key blake2b_compress_portable
      (Some [xde; xad; xbe; xef]) 4 64 = Returns hs /\
    Blake2bCpp.hasher_reset blake2b_compress_portable
      (Blake2bCpp.set_state_ hs zero_state) = Returns hs.
Proof.
  assert (Hn : (1 <= 64 <= 64)%nat) by lia.
  assert (Hk : (1 <= 4 <= 64)%nat) by lia.
  assert (Hp : length (build_default_param x20 x00) = 64%nat) by reflexivity.
  assert (Hb : 1 <= Z_of_byte (rd (build_default_param x20 x00) 0) <= 64)
    by (vm_compute; split; discriminate).
  split; [repeat split; try assumption; try lia; apply Hb|].
  exact (proj1 (proj2 (blake2b_hasher_reset_equals_fresh
                         blake2b_compress_portable 64 [xde; xad; xbe; xef] 4
                         (build_default_param x20 x00) zero_state
                         Hn Hk Hp Hb))).
Defined.

Lemma blake2b_hasher_matches_hash_witness :
  ((1 <= 32 <= 64)%nat /\ (1 <= 4 <= 64)%nat /\
   (4 <= length [xde; xad; xbe; xef])%nat) /\
  exists d,
    length d = 32%nat /\
    Blake2bCpp.hasher_digest blake2b_compress_portable true
      (Blake2bCpp.hasher_ctor 32) [ascii_bytes "ab"; ascii_bytes "c"]
    = Returns d /\
    Blake2bCpp.hash blake2b_compress_portable true
      (Some (concat [ascii_bytes "ab"; ascii_bytes "c"]))
      (length (concat [ascii_bytes "ab"; ascii_bytes "c"])) 32 = Returns d.
Proof.
  assert (Hn : (1 <= 32 <= 64)%nat) by lia.
  assert (Hk : (1 <= 4 <= 64)%nat) by lia.
  assert (Hl : (4 <= length [xde; xad; xbe; xef])%nat) by (cbn; lia).
  split; [repeat split; try assumption; lia|].
  exact (proj1 (blake2b_hasher_matches_hash blake2b_compress_portable true
                  32 [xde; xad; xbe; xef] 4
                  [ascii_bytes "ab"; ascii_bytes "c"] Hn Hk Hl)).
Defined.

End Blake2bCppExtras.

(* ===================================================================== *)
(** ** hmac.cpp: the construction, streaming, keys, error paths *)
(* ===================================================================== *)

Module HmacExtras.

Import HmacClaims.
Import Blake2bExtras.

Lemma firstn_S_nth {A : Type} (d : A) (l : list A) (n : nat) :
  (n < length l)%nat -> firstn (S n) l = firstn n l ++ [nth n l d].
Proof.
  intros Hn. rewrite (split_at l n d Hn) at 1.
  rewrite firstn_app, length_firstn.
  replace (Nat.min n (length l)) with n by lia.
  replace (S n - n)%nat with 1%nat by lia.
  rewrite firstn_all2 by (rewrite length_firstn; lia).
  reflexivity.
Qed.

(** The pad loop of [derive_pads] after [n] iterations. *)
Lemma pads_fold (kb : list byte) : forall (n : nat) (ip op : list byte),
  (n <= length kb)%nat -> (n <= length ip)%nat -> (n <= length op)%nat ->
  fold_left
    (fun '(ip, op) i =>
       (upd ip i (byte_xor (rd kb i) x36),
        upd op i (byte_xor (rd kb i) x5c)))
    (seq 0 n) (ip, op)
  = (xor_pad x36 (firstn n kb) ++ skipn n ip,
     xor_pad x5c (firstn n kb) ++ skipn n op).
Proof.
  induction n as [|n IH]; intros ip op Hk Hi Ho; [reflexivity|].
  rewrite seq_S, fold_left_app, IH by lia.
  cbn [fold_left Nat.add].
  rewrite (EndianExtras.skipn_cons_nth x00 ip n) by lia.
  rewrite (EndianExtras.skipn_cons_nth x00 op n) by lia.
  rewrite !upd_app
    by (unfold xor_pad; rewrite length_map, length_firstn; lia).
  rewrite (firstn_S_nth x00 kb n) by lia.
  unfold xor_pad. rewrite !map_app, <- !app_assoc. reflexivity.
Qed.

Lemma pads_closed (kb : list byte) :
  length kb = 128%nat ->
  pads_from kb (zeros 128) (zeros 128) = (xor_pad x36 kb, xor_pad x5c kb).
Proof.
  intros L. unfold pads_from, HMAC_BLOCK.
  rewrite pads_fold by (rewrite ?zeros_length; lia).
  rewrite firstn_all2 by lia.
  rewrite skipn_all2 by (rewrite zeros_length; lia).
  rewrite !app_nil_r. reflexivity.
Qed.

Lemma xor_pad_length (c : byte) (kb : list byte) :
  length (xor_pad c kb) = length kb.
Proof. unfold xor_pad. apply length_map. Qed.

Section Dispatch.

Variable get_compress : blake2b_compress_fn.

Lemma fresh_view :
  well_formed (fresh_state 64) /\ outlen (fresh_state 64) = 64%nat /\
  pending (fresh_state 64) = [] /\ buflen (fresh_state 64) = 0%nat.
Proof.
  destruct (init_succeeds zero_state 64 ltac:(lia)) as (_ & W & Bl & Ol & _).
  split; [exact W|]. split; [exact Ol|].
  split; [unfold pending; rewrite Bl; reflexivity|exact Bl].
Qed.

(** The state after init(64) and the absorption of a whole pad: nothing
    compressed, the pad pending. *)
Lemma absorbed_view (pad : list byte) :
  length pad = 128%nat ->
  well_formed (absorbed get_compress pad) /\
  outlen (absorbed get_compress pad) = 64%nat /\
  core_of (absorbed get_compress pad) = core_of (fresh_state 64) /\
  pending (absorbed get_compress pad) = pad.
Proof.
  intros L. destruct fresh_view as (W & Ol & _ & Bl).
  unfold absorbed.
  rewrite update_block_on_empty by (try apply W; assumption).
  cbn [snd]. unfold well_formed, pending, core_of.
  cbn [buf buflen outlen h t0 t1 set_buf set_buflen].
  repeat split; try lia; try assumption.
  apply firstn_all2. lia.
Qed.

(** A state that holds the view of a message hashed from a fresh
    64-byte state finalises to what the one-shot call writes. *)
Lemma oneshot_by_view (St : tinyblake_blake2b_state) (data o : list byte)
      (cap : nat) :
  well_formed St -> outlen St = 64%nat -> (64 <= cap)%nat ->
  core_of St
  = fst (absorb get_compress (core_of (fresh_state 64)) data) ->
  pending St
  = snd (absorb get_compress (core_of (fresh_state 64)) data) ->
  exists o',
    tinyblake_blake2b get_compress (Some o) 64 (Some data) (length data) None 0
    = (0, Some o') /\
    tinyblake_blake2b_final get_compress St (Some o) cap
    = (0, zero_state, Some o') /\
    length o' = length o.
Proof.
  intros W Ol Hcap Hc Hp.
  destruct fresh_view as (Wf & Of & Pf & _).
  unfold tinyblake_blake2b. change (0 <? 0)%nat with false. cbv iota.
  destruct (init_succeeds zero_state 64 ltac:(lia)) as (Ei & _).
  rewrite Ei. cbn [Z.eqb negb].
  destruct (update_absorb get_compress (fresh_state 64) data Wf)
    as (Sb & Eb & Wb & Ob & Cb & Pb).
  rewrite Eb. cbn [Z.eqb negb].
  rewrite Pf in Cb, Pb. cbn [app] in Cb, Pb.
  destruct (final_digest_any get_compress St) as (d & Ld & Ed).
  destruct (Blake2bClaims.final_same_view get_compress St Sb o 64 W Wb)
    as [E _]; try congruence; try lia.
  rewrite <- E. rewrite !Ed by lia.
  eexists. split; [reflexivity|]. split; [reflexivity|].
  apply memcpy_length.
Qed.

Lemma blake2b_512_length (msg : list byte) :
  length (blake2b_512 get_compress msg) = 64%nat.
Proof.
  unfold blake2b_512.
  destruct (oneshot_succeeds get_compress (zeros 64) 64 msg (length msg))
    as (o' & E & L); [lia|].
  rewrite E. cbn [snd contents]. rewrite L. apply zeros_length.
Qed.

(** The heart of HMAC: from an inner state that holds ipad || msg and
    the outer state that holds opad, final produces the nested hash. *)
Lemma hmac_final_nested (Sa : tinyblake_blake2b_state)
      (K msg o : list byte) (cap : nat) :
  length K = 128%nat -> (64 <= cap)%nat ->
  well_formed Sa -> outlen Sa = 64%nat ->
  core_of Sa
  = fst (absorb get_compress (core_of (fresh_state 64))
           (xor_pad x36 K ++ msg)) ->
  pending Sa
  = snd (absorb get_compress (core_of (fresh_state 64))
           (xor_pad x36 K ++ msg)) ->
  exists o',
    tinyblake_hmac_final get_compress
      (mk_hmac Sa (absorbed get_compress (xor_pad x5c K))) (Some o) cap
    = (0, zero_hmac_state, Some o') /\
    hmac_nested get_compress K msg o = (0, Some o') /\
    length o' = length o.
Proof.
  intros LK Hcap W Ol Hc Hp.
  unfold tinyblake_hmac_final, hmac_nested.
  assert (Hg : (cap <? 64)%nat = false) by (apply Nat.ltb_ge; exact Hcap).
  rewrite Hg. cbn [inner outer].
  destruct (oneshot_by_view Sa (xor_pad x36 K ++ msg) (zeros 64) 64
              W Ol ltac:(lia) Hc Hp) as (dI & E1 & F1 & L1).
  rewrite zeros_length in L1.
  rewrite F1. cbn [Z.eqb negb].
  assert (HdI : blake2b_512 get_compress (xor_pad x36 K ++ msg) = dI).
  { unfold blake2b_512. rewrite E1. reflexivity. }
  rewrite HdI.
  destruct (absorbed_view (xor_pad x5c K)) as (Wo & Oo & Co & Po);
    [rewrite xor_pad_length; exact LK|].
  destruct (update_absorb get_compress (absorbed get_compress (xor_pad x5c K))
              dI Wo) as (Sd & Ed & Wd & Od & Cd & Pd).
  rewrite L1 in Ed. rewrite Ed. cbn [Z.eqb negb].
  rewrite Co, Po in Cd, Pd.
  destruct (oneshot_by_view Sd (xor_pad x5c K ++ dI) o cap Wd
              ltac:(congruence) Hcap Cd Pd) as (o' & E2 & F2 & L2).
  rewrite length_app, xor_pad_length, LK, L1 in E2.
  change (128 + 64)%nat with 192%nat in E2.
  rewrite F2, E2. exists o'. repeat split. exact L2.
Qed.

(** The state that HMAC init leaves, in closed form. *)
Lemma hmac_init_closed (St : tinyblake_hmac_state) (key : list byte)
      (keylen : nat) :
  (1 <= keylen)%nat ->
  tinyblake_hmac_init get_compress St (Some key) keylen
  = (0, mk_hmac
          (absorbed get_compress
             (xor_pad x36 (key_block get_compress key keylen)))
          (absorbed get_compress
             (xor_pad x5c (key_block get_compress key keylen)))).
Proof.
  intros Hk. rewrite hmac_init_ok by exact Hk.
  rewrite pads_closed by apply key_block_length. reflexivity.
Qed.

(** Init, the message in chunks, final: the nested hash. *)
Lemma hmac_stream_nested (st : tinyblake_hmac_state) (key : list byte)
      (keylen : nat) (chunks : list (list byte)) (o : list byte) (cap : nat) :
  (1 <= keylen)%nat -> (64 <= cap)%nat ->
  hmac_stream get_compress st (Some key) keylen chunks (Some o) cap
  = hmac_nested get_compress (key_block get_compress key keylen)
      (concat chunks) o /\
  exists o',
    hmac_nested get_compress (key_block get_compress key keylen)
      (concat chunks) o = (0, Some o') /\ length o' = length o.
Proof.
  intros Hk Hcap. unfold hmac_stream.
  rewrite hmac_init_closed by exact Hk. cbn [Z.eqb negb].
  set (K := key_block get_compress key keylen).
  assert (LK : length K = 128%nat) by apply key_block_length.
  destruct (absorbed_view (xor_pad x36 K)) as (Wi & Oi & Ci & Pi);
    [rewrite xor_pad_length; exact LK|].
  assert (Hchunks : forall cs Si,
            well_formed Si ->
            exists Sa,
              hmac_update_chunks get_compress
                (mk_hmac Si (absorbed get_compress (xor_pad x5c K))) cs
              = (0, mk_hmac Sa (absorbed get_compress (xor_pad x5c K))) /\
              update_chunks get_compress Si cs = (0, Sa)).
  { induction cs as [|c cs IH]; intros Si WSi.
    - exists Si. split; reflexivity.
    - cbn [hmac_update_chunks update_chunks].
      unfold tinyblake_hmac_update. cbn [inner outer].
      destruct (update_absorb get_compress Si c WSi) as (S1 & E1 & W1 & _).
      rewrite E1. cbn [Z.eqb negb]. apply IH. exact W1. }
  destruct (Hchunks chunks (absorbed get_compress (xor_pad x36 K)) Wi)
    as (Sa & Eh & Eu).
  rewrite Eh. cbn [Z.eqb negb].
  destruct (update_chunks_absorb get_compress chunks
              (absorbed get_compress (xor_pad x36 K)) Wi)
    as (Sa' & Ea & Wa & Oa & Ca & Pa).
  rewrite Eu in Ea. injection Ea as <-.
  rewrite Ci, Pi in Ca, Pa.
  destruct (hmac_final_nested Sa K (concat chunks) o cap LK Hcap Wa
              ltac:(congruence) Ca Pa) as (o' & Ef & En & Lo).
  rewrite Ef, En. split; [reflexivity|]. exists o'. split; [reflexivity|exact Lo].
Qed.

(** Init, the message whole, final: the nested hash. *)
Lemma hmac_oneshot_nested (key : list byte) (keylen : nat)
      (msg o : list byte) (cap : nat) :
  (1 <= keylen)%nat -> (64 <= cap)%nat ->
  tinyblake_hmac get_compress (Some o) cap (Some key) keylen
    (Some msg) (length msg)
  = hmac_nested get_compress (key_block get_compress key keylen) msg o.
Proof.
  intros Hk Hcap.
  destruct (hmac_stream_nested zero_hmac_state key keylen [msg] o cap Hk Hcap)
    as (E & _).
  cbn [concat] in E. rewrite app_nil_r in E. rewrite <- E.
  unfold hmac_stream, tinyblake_hmac. cbn [hmac_update_chunks].
  destruct (tinyblake_hmac_init get_compress zero_hmac_state (Some key) keylen)
    as [rc st].
  destruct (negb (rc =? 0)); [reflexivity|].
  destruct (tinyblake_hmac_update get_compress st (Some msg) (length msg))
    as [rc' st'].
  destruct (negb (rc' =? 0)) eqn:Hr; cbn [Z.eqb negb]; rewrite ?Hr;
    reflexivity.
Qed.

(** The key block of a key that fits the block, and of one that does
    not. *)
Lemma key_block_short (key : list byte) (keylen : nat) :
  (keylen <= 128)%nat -> (keylen <= length key)%nat ->
  key_block get_compress key keylen
  = firstn keylen key ++ zeros (128 - keylen).
Proof.
  intros Hk Hl. unfold key_block.
  assert (Hg : (128 <? keylen)%nat = false) by (apply Nat.ltb_ge; exact Hk).
  rewrite Hg. apply key_block_value; assumption.
Qed.

Lemma key_block_long (key : list byte) :
  (128 < length key)%nat ->
  key_block get_compress key (length key)
  = blake2b_512 get_compress key ++ zeros 64.
Proof.
  intros Hk. unfold key_block, blake2b_512.
  assert (Hg : (128 <? length key)%nat = true) by (apply Nat.ltb_lt; exact Hk).
  rewrite Hg.
  destruct (oneshot_digest get_compress 64 key (length key) ltac:(lia))
    as (d & Ld & Ed).
  rewrite !Ed. cbn [snd contents].
  rewrite !memcpy_spec by (rewrite ?zeros_length; lia).
  change (firstn 0 (zeros 128)) with (@nil byte).
  change (firstn 0 (zeros 64)) with (@nil byte).
  change (0 + 64)%nat with 64%nat. rewrite !app_nil_l.
  rewrite (firstn_all2 (n := 64) d) by lia.
  rewrite !skipn_zeros.
  change (zeros (64 - 64)) with (@nil byte). rewrite app_nil_r.
  reflexivity.
Qed.

(** X16.  [tinyblake_hmac] computes
    BLAKE2b-512(opad || BLAKE2b-512(ipad || message)), each hash taken
    by the one-shot BLAKE2b call, with ipad and opad the key block
    xored bytewise with 0x36 and 0x5c.  The key block is the key
    zero-padded to 128 bytes, or the BLAKE2b-512 digest of the key
    followed by 64 zero bytes when the key is longer than 128 bytes.
    The call returns 0 for every non-empty key and every capacity of at
    least 64. *)
Theorem hmac_is_nested_blake2b (key msg o : list byte) (cap : nat) :
  (1 <= length key)%nat -> (64 <= cap)%nat ->
  let K := if (128 <? length key)%nat
           then blake2b_512 get_compress key ++ zeros 64
           else key ++ zeros (128 - length key) in
  tinyblake_hmac get_compress (Some o) cap (Some key) (length key)
    (Some msg) (length msg)
  = tinyblake_blake2b get_compress (Some o) 64
      (Some (xor_pad x5c K
             ++ blake2b_512 get_compress (xor_pad x36 K ++ msg)))
      192 None 0 /\
  fst (tinyblake_hmac get_compress (Some o) cap (Some key) (length key)
         (Some msg) (length msg)) = 0.
Proof.
  intros Hk Hcap K.
  assert (HK : key_block get_compress key (length key) = K).
  { unfold K. destruct (Nat.ltb_spec 128 (length key)) as [Hl|Hs].
    - apply key_block_long. exact Hl.
    - rewrite key_block_short by lia. rewrite firstn_all. reflexivity. }
  rewrite hmac_oneshot_nested by assumption.
  rewrite HK. split; [reflexivity|].
  destruct (hmac_stream_nested zero_hmac_state key (length key) [msg] o cap
              Hk Hcap) as (_ & o' & E & _).
  cbn [concat] in E. rewrite app_nil_r, HK in E. rewrite E. reflexivity.
Qed.

(** X17.  HMAC is incremental: for every non-empty key, every message
    cut into chunks and every output capacity of at least 64, init, one
    update per chunk and final return 0 and produce what the one-shot
    [tinyblake_hmac] produces on the whole message, whatever the state
    object held before. *)
Theorem hmac_incremental_equals_oneshot (st : tinyblake_hmac_state)
        (key : list byte) (keylen : nat) (chunks : list (list byte))
        (o : list byte) (cap : nat) :
  (1 <= keylen)%nat -> (keylen <= length key)%nat -> (64 <= cap)%nat ->
  hmac_stream get_compress st (Some key) keylen chunks (Some o) cap
  = tinyblake_hmac get_compress (Some o) cap (Some key) keylen
      (Some (concat chunks)) (length (concat chunks)) /\
  fst (hmac_stream get_compress st (Some key) keylen chunks (Some o) cap) = 0.
Proof.
  intros Hk _ Hcap.
  destruct (hmac_stream_nested st key keylen chunks o cap Hk Hcap)
    as (E & o' & En & _).
  rewrite hmac_oneshot_nested by assumption.
  rewrite E, En. split; reflexivity.
Qed.

(** X18.  The C++ HMAC hasher agrees with the free function: a hasher
    constructed on a non-empty key and fed a message chunk by chunk
    returns from final_() the 64-byte vector that mac() returns for the
    whole message, and neither throws. *)
Theorem hmac_hasher_matches_mac (key : list byte)
        (chunks : list (list byte)) :
  (1 <= length key)%nat ->
  exists m,
    length m = 64%nat /\
    hasher_mac get_compress
      (hasher_ctor get_compress (Some key) (length key)) chunks = Returns m /\
    HmacCpp.mac get_compress (Some key) (length key)
      (Some (concat chunks)) (length (concat chunks)) = Returns m.
Proof.
  intros Hk.
  destruct (hmac_stream_nested zero_hmac_state key (length key) chunks
              (zeros 64) 64 Hk ltac:(lia)) as (Es & m & En & Lm).
  rewrite zeros_length in Lm.
  exists m. split; [exact Lm|]. split.
  - unfold hasher_mac, hasher_ctor.
    assert (Hz : (length key =? 0)%nat = false) by (apply Nat.eqb_neq; lia).
    rewrite Hz.
    unfold hmac_stream in Es.
    destruct (tinyblake_hmac_init get_compress zero_hmac_state (Some key)
                (length key)) as [rc st0] eqn:Ei.
    pose proof (hmac_init_ready get_compress zero_hmac_state key (length key) Hk)
      as (R0 & Rdy).
    rewrite Ei in R0, Rdy. cbn [fst snd] in R0, Rdy. subst rc.
    cbn [Z.eqb negb and_then] in *.
    set (kp := if (128 <? length key)%nat then _ else _).
    assert (Hup : forall cs (hs : hasher),
              hmac_ready (state_ hs) ->
              exists st',
                hmac_update_chunks get_compress (state_ hs) cs = (0, st') /\
                hasher_updates get_compress hs cs
                = Returns (mk_hasher st' (key_pad_ hs))).
    { induction cs as [|c cs IH]; intros hs Rh.
      - exists (state_ hs). split; [reflexivity|]. destruct hs. reflexivity.
      - cbn [hmac_update_chunks hasher_updates]. unfold hasher_update.
        destruct (hmac_update_ok get_compress (state_ hs) c (length c) Rh)
          as (U0 & U1).
        destruct (tinyblake_hmac_update get_compress (state_ hs) (Some c)
                    (length c)) as [rc st']. cbn [fst snd] in *. subst rc.
        cbn [Z.eqb negb and_then].
        destruct (IH (mk_hasher st' (key_pad_ hs)) U1) as (st'' & A & B).
        exists st''. split; [exact A|exact B]. }
    destruct (Hup chunks (mk_hasher st0 kp) Rdy) as (st' & A & B).
    cbn [state_] in A. rewrite A in Es. cbn [Z.eqb negb] in Es.
    rewrite B. cbn [and_then].
    unfold hasher_final_. cbn [state_ key_pad_].
    rewrite En in Es.
    destruct (tinyblake_hmac_final get_compress st' (Some (zeros 64)) 64)
      as [[rc s] o']. injection Es as -> ->.
    reflexivity.
  - unfold HmacCpp.mac.
    rewrite hmac_oneshot_nested by (try assumption; lia).
    rewrite En. reflexivity.
Qed.

Lemma hmac_final_refuses (st : tinyblake_hmac_state)
      (out : option (list byte)) (cap : nat) :
  out = None \/ (cap < 64)%nat ->
  tinyblake_hmac_final get_compress st out cap = (-1, st, out).
Proof.
  intros H. unfold tinyblake_hmac_final. destruct out as [o1|]; [|reflexivity].
  destruct H as [H|H]; [discriminate H|].
  apply Nat.ltb_lt in H. rewrite H. reflexivity.
Qed.

(** X19.  [tinyblake_hmac_final] either refuses its arguments and
    changes nothing, or wipes the whole HMAC state: with a null output
    pointer or a capacity below 64 it returns -1 and leaves the state
    and the output as they were, so the call can be repeated; with a
    non-null output and a capacity of at least 64 the state is all zero
    afterwards, whatever it held and whatever the result. *)
Theorem hmac_final_refuses_or_wipes (st : tinyblake_hmac_state)
        (out : option (list byte)) (o : list byte) (cap : nat) :
  (out = None \/ (cap < 64)%nat ->
   tinyblake_hmac_final get_compress st out cap = (-1, st, out)) /\
  ((64 <= cap)%nat ->
   snd (fst (tinyblake_hmac_final get_compress st (Some o) cap))
   = zero_hmac_state).
Proof.
  split.
  - apply hmac_final_refuses.
  - intros Hcap. unfold tinyblake_hmac_final.
    apply Nat.ltb_ge in Hcap. rewrite Hcap.
    destruct (tinyblake_blake2b_final get_compress (inner st)
                (Some (zeros 64)) 64) as [[rc s] ih].
    destruct (negb (rc =? 0)); [reflexivity|].
    destruct (tinyblake_blake2b_update get_compress (outer st) ih 64)
      as [rc' s'].
    destruct (negb (rc' =? 0)); [reflexivity|].
    destruct (tinyblake_blake2b_final get_compress s' (Some o) cap)
      as [[rc'' s''] o'']. reflexivity.
Qed.

(** X20.  The one-shot [tinyblake_hmac] returns -1 and writes nothing
    exactly when the key is null or empty, or the input is null with a
    non-zero length, or the output pointer is null, or the capacity is
    below 64.  For all other arguments, keys longer than the block
    included, it returns 0 and the output region keeps its size. *)
Theorem hmac_fails_exactly_when
        (out : option (list byte)) (cap : nat)
        (key : option (list byte)) (keylen : nat)
        (inp : option (list byte)) (inlen : nat) :
  let r := tinyblake_hmac get_compress out cap key keylen inp inlen in
  let refused :=
    (key = None \/ keylen = 0%nat) \/
    (inp = None /\ inlen <> 0%nat) \/ out = None \/ (cap < 64)%nat in
  (refused -> r = (-1, out)) /\
  (~ refused ->
   fst r = 0 /\
   exists o o', out = Some o /\ snd r = Some o' /\ length o' = length o) /\
  (refused \/ ~ refused).
Proof.
  cbv zeta.
  assert (Hdec : ((key = None \/ keylen = 0%nat) \/
                  (inp = None /\ inlen <> 0%nat) \/ out = None \/
                  (cap < 64)%nat) \/
                 ~ ((key = None \/ keylen = 0%nat) \/
                    (inp = None /\ inlen <> 0%nat) \/ out = None \/
                    (cap < 64)%nat)).
  { destruct (le_lt_dec 64 cap); [|tauto].
    destruct (Nat.eq_dec keylen 0); [tauto|].
    destruct (Nat.eq_dec inlen 0), key, inp, out; try tauto;
      right; intros [[H|H]|[[H1 H2]|[H|H]]]; try discriminate; lia. }
  split; [|split; [|exact Hdec]].
  - intros Href. unfold tinyblake_hmac.
    destruct (Nat.eq_dec keylen 0) as [Hk0|Hk0];
      [rewrite hmac_init_refuses by tauto; reflexivity|].
    destruct key as [k|];
      [|rewrite hmac_init_refuses by tauto; reflexivity].
    pose proof (hmac_init_ready get_compress zero_hmac_state k keylen
                  ltac:(lia)) as (R0 & Rdy).
    destruct (tinyblake_hmac_init get_compress zero_hmac_state (Some k) keylen)
      as [rc st]. cbn [fst snd] in R0, Rdy. subst rc. cbn [Z.eqb negb].
    destruct inp as [data|].
    + destruct (hmac_update_ok get_compress st data inlen Rdy) as (U0 & U1).
      destruct (tinyblake_hmac_update get_compress st (Some data) inlen)
        as [rc st']. cbn [fst snd] in U0, U1. subst rc. cbn [Z.eqb negb].
      rewrite hmac_final_refuses; [reflexivity|].
      destruct Href as [[H|H]|[[H _]|[H|H]]];
        try discriminate; try tauto; lia.
    + rewrite hmac_update_null by exact Rdy.
      destruct (Nat.eqb_spec inlen 0) as [Hi|Hi]; [|reflexivity].
      cbn [Z.eqb negb].
      rewrite hmac_final_refuses; [reflexivity|].
      destruct Href as [[H|H]|[[_ H]|[H|H]]];
        try discriminate; try tauto; lia.
  - intros Hok. unfold tinyblake_hmac.
    destruct key as [k|]; [|tauto].
    destruct out as [o|]; [|tauto].
    pose proof (hmac_init_ready get_compress zero_hmac_state k keylen
                  ltac:(lia)) as (R0 & Rdy).
    destruct (tinyblake_hmac_init get_compress zero_hmac_state (Some k) keylen)
      as [rc st]. cbn [fst snd] in R0, Rdy. subst rc. cbn [Z.eqb negb].
    assert (Hupd : exists st',
              tinyblake_hmac_update get_compress st inp inlen = (0, st') /\
              hmac_ready st').
    { destruct inp as [data|].
      - destruct (hmac_update_ok get_compress st data inlen Rdy) as (U0 & U1).
        destruct (tinyblake_hmac_update get_compress st (Some data) inlen)
          as [rc st']. cbn [fst snd] in U0, U1. subst rc.
        exists st'. split; [reflexivity|exact U1].
      - destruct (Nat.eq_dec inlen 0) as [->|Hi]; [|tauto].
        rewrite hmac_update_null by exact Rdy. exists st.
        split; [reflexivity|exact Rdy]. }
    destruct Hupd as (st' & Eu & Rdy'). rewrite Eu. cbn [Z.eqb negb].
    destruct (hmac_final_ok get_compress st' o cap Rdy') as (o' & Ef & Lf);
      [lia|].
    rewrite Ef. cbn [fst snd]. split; [reflexivity|].
    exists o, o'. repeat split. exact Lf.
Qed.

(** X21.  A key longer than the 128-byte block is replaced by its
    BLAKE2b-512 digest: HMAC under such a key and HMAC under the 64
    bytes of its digest give the same result for every message, output
    region and capacity. *)
Theorem hmac_long_key_is_hashed (key : list byte)
        (out : option (list byte)) (cap : nat)
        (inp : option (list byte)) (inlen : nat) :
  (128 < length key)%nat ->
  length (blake2b_512 get_compress key) = 64%nat /\
  tinyblake_hmac get_compress out cap (Some key) (length key) inp inlen
  = tinyblake_hmac get_compress out cap
      (Some (blake2b_512 get_compress key)) 64 inp inlen.
Proof.
  intros Hk. split; [apply blake2b_512_length|].
  unfold tinyblake_hmac.
  rewrite !hmac_init_closed by lia.
  rewrite key_block_long by exact Hk.
  rewrite (key_block_short (blake2b_512 get_compress key) 64)
    by (rewrite ?blake2b_512_length; lia).
  rewrite firstn_all2 by (rewrite blake2b_512_length; lia).
  reflexivity.
Qed.

(** X22.  Keys are zero-padded to the block, so a key of at most 128
    bytes and the same key extended by zero bytes (up to 128 bytes in
    all) are the same HMAC key: the two calls give the same result for
    every message, output region and capacity. *)
Theorem hmac_key_zero_padding (key : list byte) (n : nat)
        (out : option (list byte)) (cap : nat)
        (inp : option (list byte)) (inlen : nat) :
  (1 <= length key)%nat -> (length key + n <= 128)%nat ->
  tinyblake_hmac get_compress out cap
    (Some (key ++ zeros n)) (length key + n) inp inlen
  = tinyblake_hmac get_compress out cap (Some key) (length key) inp inlen.
Proof.
  intros Hk Hn. unfold tinyblake_hmac.
  rewrite !hmac_init_closed by lia.
  rewrite !key_block_short
    by (rewrite ?length_app, ?zeros_length; lia).
  rewrite firstn_all.
  replace (length key + n)%nat with (length (key ++ zeros n))
    by (rewrite length_app, zeros_length; reflexivity).
  rewrite firstn_all, length_app, zeros_length, <- app_assoc.
  unfold zeros. rewrite <- repeat_app.
  replace (n + (128 - (length key + n)))%nat with (128 - length key)%nat
    by lia.
  reflexivity.
Qed.

End Dispatch.

Lemma hmac_is_nested_blake2b_witness :
  ((1 <= length (ascii_bytes "key"))%nat /\ (64 <= 64)%nat) /\
  tinyblake_hmac blake2b_compress_portable (Some (zeros 64)) 64
    (Some (ascii_bytes "key")) (length (ascii_bytes "key"))
    (Some (ascii_bytes "abc")) (length (ascii_bytes "abc"))
  = tinyblake_blake2b blake2b_compress_portable (Some (zeros 64)) 64
      (Some (xor_pad x5c (ascii_bytes "key" ++ zeros 125)
             ++ blake2b_512 blake2b_compress_portable
                  (xor_pad x36 (ascii_bytes "key" ++ zeros 125)
                   ++ ascii_bytes "abc")))
      192 None 0.
Proof.
  assert (Hk : (1 <= length (ascii_bytes "key"))%nat) by (cbn; lia).
  assert (Hc : (64 <= 64)%nat) by lia.
  split; [split; assumption|].
  exact (proj1 (hmac_is_nested_blake2b blake2b_compress_portable
                  (ascii_bytes "key") (ascii_bytes "abc") (zeros 64) 64
                  Hk Hc)).
Defined.

Lemma hmac_incremental_equals_oneshot_witness :
  ((1 <= 3)%nat /\ (3 <= length (ascii_bytes "key"))%nat /\ (64 <= 64)%nat) /\
  hmac_stream blake2b_compress_portable zero_hmac_state
    (Some (ascii_bytes "key")) 3
    [ascii_bytes "The quick brown fox "; ascii_bytes "jumps over the lazy dog"]
    (Some (zeros 64)) 64
  = tinyblake_hmac blake2b_compress_portable (Some (zeros 64)) 64
      (Some (ascii_bytes "key")) 3
      (Some (concat [ascii_bytes "The quick brown fox ";
                     ascii_bytes "jumps over the lazy dog"]))
      (length (concat [ascii_bytes "The quick brown fox ";
                       ascii_bytes "jumps over the lazy dog"])).
Proof.
  assert (Hk : (1 <= 3)%nat) by lia.
  assert (Hl : (3 <= length (ascii_bytes "key"))%nat) by (cbn; lia).
  assert (Hc : (64 <= 64)%nat) by lia.
  split; [repeat split; try assumption; lia|].
  exact (proj1 (hmac_incremental_equals_oneshot blake2b_compress_portable
                  zero_hmac_state (ascii_bytes "key") 3
                  [ascii_bytes "The quick brown fox ";
                   ascii_bytes "jumps over the lazy dog"]
                  (zeros 64) 64 Hk Hl Hc)).
Defined.

Lemma hmac_hasher_matches_mac_witness :
  (1 <= length (ascii_bytes "key"))%nat /\
  exists m,
    length m = 64%nat /\
    hasher_mac blake2b_compress_portable
      (hasher_ctor blake2b_compress_portable (Some (ascii_bytes "key"))
         (length (ascii_bytes "key")))
      [ascii_bytes "ab"; ascii_bytes "c"] = Returns m /\
    HmacCpp.mac blake2b_compress_portable (Some (ascii_bytes "key"))
      (length (ascii_bytes "key"))
      (Some (concat [ascii_bytes "ab"; ascii_bytes "c"]))
      (length (concat [ascii_bytes "ab"; ascii_bytes "c"])) = Returns m.
Proof.
  assert (Hk : (1 <= length (ascii_bytes "key"))%nat) by (cbn; lia).
  split; [exact Hk|].
  exact (hmac_hasher_matches_mac blake2b_compress_portable
           (ascii_bytes "key") [ascii_bytes "ab"; ascii_bytes "c"] Hk).
Defined.

Lemma hmac_long_key_is_hashed_witness :
  (128 < length (repeat x6b 200))%nat /\
  tinyblake_hmac blake2b_compress_portable (Some (zeros 64)) 64
    (Some (repeat x6b 200)) (length (repeat x6b 200))
    (Some (ascii_bytes "abc")) 3
  = tinyblake_hmac blake2b_compress_portable (Some (zeros 64)) 64
      (Some (blake2b_512 blake2b_compress_portable (repeat x6b 200))) 64
      (Some (ascii_bytes "abc")) 3.
Proof.
  assert (Hk : (128 < length (repeat x6b 200))%nat)
    by (rewrite repeat_length; lia).
  split; [exact Hk|].
  exact (proj2 (hmac_long_key_is_hashed blake2b_compress_portable
                  (repeat x6b 200) (Some (zeros 64)) 64
                  (Some (ascii_bytes "abc")) 3 Hk)).
Defined.

Lemma hmac_key_zero_padding_witness :
  ((1 <= length (ascii_bytes "key"))%nat /\
   (length (ascii_bytes "key") + 2 <= 128)%nat) /\
  tinyblake_hmac blake2b_compress_portable (Some (zeros 64)) 64
    (Some (ascii_bytes "key" ++ zeros 2)) (length (ascii_bytes "key") + 2)
    (Some (ascii_bytes "abc")) 3
  = tinyblake_hmac blake2b_compress_portable (Some (zeros 64)) 64
      (Some (ascii_bytes "key")) (length (ascii_bytes "key"))
      (Some (ascii_bytes "abc")) 3.
Proof.
  assert (Hk : (1 <= length (ascii_bytes "key"))%nat) by (cbn; lia).
  assert (Hn : (length (ascii_bytes "key") + 2 <= 128)%nat) by (cbn; lia).
  split; [split; assumption|].
  exact (hmac_key_zero_padding blake2b_compress_portable
           (ascii_bytes "key") 2 (Some (zeros 64)) 64
           (Some (ascii_bytes "abc")) 3 Hk Hn).
Defined.

End HmacExtras.

(* ===================================================================== *)
(** ** pbkdf2.cpp: the derived key against the formulas of RFC 8018 *)
(* ===================================================================== *)

Module Pbkdf2Extras.

Import HmacClaims.
Import Pbkdf2Claims.
Import Blake2bExtras.
Import HmacExtras.

Lemma memcpy_whole (o d : list byte) (n : nat) :
  length o = n -> length d = n -> memcpy o 0 d n = d.
Proof.
  intros Lo Ld. rewrite memcpy_spec by lia.
  rewrite firstn_O, firstn_all2, skipn_all2 by lia.
  cbn [app]. apply app_nil_r.
Qed.

(** The loop [t[k] ^= u[k]] after [n] iterations. *)
Lemma xor_fold (u : list byte) : forall (n : nat) (t : list byte),
  (n <= length t)%nat ->
  fold_left (fun t k => upd t k (byte_xor (rd t k) (rd u k))) (seq 0 n) t
  = map (fun k => byte_xor (rd t k) (rd u k)) (seq 0 n) ++ skipn n t.
Proof.
  induction n as [|n IH]; intros t Hn; [reflexivity|].
  rewrite seq_S, fold_left_app, IH by lia. cbn [fold_left Nat.add].
  rewrite map_app. cbn [map].
  rewrite (EndianExtras.skipn_cons_nth x00 t n) by lia.
  set (A := map (fun k => byte_xor (rd t k) (rd u k)) (seq 0 n)).
  assert (LA : length A = n)
    by (unfold A; rewrite length_map, length_seq; reflexivity).
  assert (Hr : rd (A ++ nth n t x00 :: skipn (S n) t) n = rd t n).
  { unfold rd. rewrite app_nth2 by lia. rewrite LA, Nat.sub_diag.
    reflexivity. }
  rewrite Hr. rewrite upd_app by (symmetry; exact LA).
  rewrite <- app_assoc. reflexivity.
Qed.

Lemma pair_some_inj {A : Type} (a b : Z) (x y : A) :
  (a, Some x) = (b, Some y) -> x = y.
Proof. intros H. injection H as _ H. exact H. Qed.

Lemma contents_snd (a : Z) (f x : list byte) :
  contents f (snd (a, Some x)) = x.
Proof. reflexivity. Qed.

Lemma xor_bytes_length (a b : list byte) :
  length (xor_bytes a b) = length a.
Proof. unfold xor_bytes. rewrite length_map, length_seq. reflexivity. Qed.

Section Dispatch.

Variable get_compress : blake2b_compress_fn.

Lemma hmac_update_chunks_ok (cs : list (list byte)) :
  forall st : tinyblake_hmac_state,
  hmac_ready st ->
  exists st',
    hmac_update_chunks get_compress st cs = (0, st') /\ hmac_ready st'.
Proof.
  induction cs as [|c cs IH]; intros st R.
  - exists st. split; [reflexivity|exact R].
  - cbn [hmac_update_chunks].
    destruct (hmac_update_ok get_compress st c (length c) R) as (U0 & U1).
    destruct (tinyblake_hmac_update get_compress st (Some c) (length c))
      as [rc st1]. cbn [fst snd] in U0, U1. subst rc. cbn [Z.eqb negb].
    apply IH. exact U1.
Qed.

(** The streaming sequence when init and the updates have returned 0. *)
Lemma hmac_stream_steps (st : tinyblake_hmac_state)
      (key : option (list byte)) (keylen : nat) (chunks : list (list byte))
      (out : option (list byte)) (cap : nat)
      (st1 st2 : tinyblake_hmac_state) :
  tinyblake_hmac_init get_compress st key keylen = (0, st1) ->
  hmac_update_chunks get_compress st1 chunks = (0, st2) ->
  hmac_stream get_compress st key keylen chunks out cap
  = (fst (fst (tinyblake_hmac_final get_compress st2 out cap)),
     snd (tinyblake_hmac_final get_compress st2 out cap)).
Proof.
  intros E1 E2. unfold hmac_stream. rewrite E1. cbn [Z.eqb negb].
  rewrite E2. cbn [Z.eqb negb].
  destruct (tinyblake_hmac_final get_compress st2 out cap) as [[rc s'] o'].
  reflexivity.
Qed.

Section Prf.

Variable pw : list byte.

Hypothesis pw_nonempty : (1 <= length pw)%nat.

Lemma PRF_length (msg : list byte) : length (PRF get_compress pw msg) = 64%nat.
Proof.
  unfold PRF. rewrite hmac_oneshot_nested by (try assumption; lia).
  destruct (hmac_stream_nested get_compress zero_hmac_state pw (length pw)
              [msg] (zeros 64) 64 pw_nonempty ltac:(lia)) as (_ & o' & E & L).
  cbn [concat] in E. rewrite app_nil_r in E. rewrite E. cbn [snd contents].
  rewrite L. apply zeros_length.
Qed.

(** Init on the password, the message in chunks, final into any 64-byte
    region: the region then holds PRF(P, message). *)
Lemma hmac_calls (chunks : list (list byte)) (o : list byte) :
  length o = 64%nat ->
  exists st1 st2,
    tinyblake_hmac_init get_compress zero_hmac_state (Some pw) (length pw)
    = (0, st1) /\ hmac_ready st1 /\
    hmac_update_chunks get_compress st1 chunks = (0, st2) /\
    tinyblake_hmac_final get_compress st2 (Some o) 64
    = (0, zero_hmac_state, Some (PRF get_compress pw (concat chunks))).
Proof.
  intros Lo.
  pose proof (hmac_init_ready get_compress zero_hmac_state pw (length pw)
                pw_nonempty) as (R0 & Rdy).
  destruct (tinyblake_hmac_init get_compress zero_hmac_state (Some pw)
              (length pw)) as [rc st1] eqn:Ei.
  cbn [fst snd] in R0, Rdy. subst rc.
  destruct (hmac_update_chunks_ok chunks st1 Rdy) as (st2 & Eu & Rdy2).
  exists st1, st2. split; [reflexivity|]. split; [exact Rdy|].
  split; [exact Eu|].
  destruct (hmac_final_ok get_compress st2 o 64 Rdy2 ltac:(lia))
    as (o' & Ef & Lf).
  rewrite Ef. do 2 f_equal.
  (* the stream into [o] and the one-shot call into zeros *)
  destruct (hmac_stream_nested get_compress zero_hmac_state pw (length pw)
              chunks o 64 pw_nonempty ltac:(lia)) as (Es & _).
  rewrite (hmac_stream_steps _ _ _ _ _ _ _ _ Ei Eu), Ef in Es.
  cbn [fst snd] in Es.
  unfold PRF. rewrite hmac_oneshot_nested by (try assumption; lia).
  revert Es. unfold hmac_nested. intros Es.
  destruct (oneshot_digest get_compress 64
              (xor_pad x5c (key_block get_compress pw (length pw))
               ++ blake2b_512 get_compress
                    (xor_pad x36 (key_block get_compress pw (length pw))
                     ++ concat chunks))
              192 ltac:(lia)) as (d & Ld & Ed).
  rewrite Ed in Es. rewrite Ed, contents_snd.
  rewrite (pair_some_inj _ _ _ _ Es).
  rewrite (memcpy_whole o d 64 Lo Ld).
  rewrite (memcpy_whole (zeros 64) d 64 (zeros_length 64) Ld).
  reflexivity.
Qed.

Lemma U_length (first : list byte) (j : nat) :
  length (U get_compress pw first j) = 64%nat.
Proof. destruct j; apply PRF_length. Qed.

Lemma F_upto_length (first : list byte) (c : nat) :
  length (F_upto get_compress pw first c) = 64%nat.
Proof.
  induction c as [|c IH]; cbn [F_upto];
    [apply U_length|rewrite xor_bytes_length; exact IH].
Qed.

(** The loop over the rounds: from U_(j+1) and U_1 ^ ... ^ U_(j+1) it
    reaches U_(j+n+1) and U_1 ^ ... ^ U_(j+n+1). *)
Lemma rounds_loop_spec (first : list byte) : forall (n j : nat),
  rounds_loop get_compress (Some pw) (length pw) n
    (U get_compress pw first j) (F_upto get_compress pw first j)
  = (0, U get_compress pw first (j + n),
        F_upto get_compress pw first (j + n)).
Proof.
  induction n as [|n IH]; intros j.
  - rewrite Nat.add_0_r. reflexivity.
  - cbn [rounds_loop].
    destruct (hmac_calls [U get_compress pw first j]
                (U get_compress pw first j) (U_length first j))
      as (st1 & st2 & Ei & Rdy & Eu & Ef).
    rewrite Ei. cbn [Z.eqb negb].
    cbn [hmac_update_chunks] in Eu. rewrite U_length in Eu.
    destruct (tinyblake_hmac_update get_compress st1
                (Some (U get_compress pw first j)) 64) as [rc st1'] eqn:E1.
    assert (Hrc : rc = 0).
    { destruct (hmac_update_ok get_compress st1 (U get_compress pw first j)
                  64 Rdy) as (U0 & _). rewrite E1 in U0. exact U0. }
    subst rc. cbn [Z.eqb negb] in Eu |- *. injection Eu as ->.
    rewrite Ef. cbn [Z.eqb negb contents concat].
    rewrite app_nil_r.
    change (PRF get_compress pw (U get_compress pw first j))
      with (U get_compress pw first (S j)).
    rewrite xor_fold by (rewrite F_upto_length; lia).
    rewrite skipn_all2 by (rewrite F_upto_length; lia).
    rewrite app_nil_r.
    replace (map (fun k => byte_xor (rd (F_upto get_compress pw first j) k)
                                    (rd (U get_compress pw first (S j)) k))
                 (seq 0 64))
      with (F_upto get_compress pw first (S j))
      by (cbn [F_upto]; unfold xor_bytes; rewrite F_upto_length; reflexivity).
    rewrite (IH (S j)). rewrite Nat.add_succ_r. reflexivity.
Qed.

Variable s : list byte.

Variable rounds : Z.

Lemma F_length (i : Z) : length (F get_compress pw s rounds i) = 64%nat.
Proof. apply F_upto_length. Qed.

(** One block: T_i = F(P, S, c, i). *)
Lemma derive_block_spec (idx : Z) :
  derive_block get_compress (Some pw) (length pw) (Some s) (length s)
    rounds idx
  = (0, F get_compress pw s rounds idx).
Proof.
  unfold derive_block.
  destruct (hmac_calls [s; store_be32 idx] (zeros 64) (zeros_length 64))
    as (st1 & st2 & Ei & Rdy & Eu & Ef).
  rewrite Ei. cbn [Z.eqb negb].
  cbn [hmac_update_chunks] in Eu.
  destruct (tinyblake_hmac_update get_compress st1 (Some s) (length s))
    as [rc1 sa] eqn:E1.
  destruct (hmac_update_ok get_compress st1 s (length s) Rdy) as (U0 & Ra).
  rewrite E1 in U0, Ra. cbn [fst snd] in U0, Ra. subst rc1.
  cbn [Z.eqb negb] in Eu |- *.
  change (length (store_be32 idx)) with 4%nat in Eu.
  destruct (tinyblake_hmac_update get_compress sa (Some (store_be32 idx)) 4)
    as [rc2 sb] eqn:E2.
  destruct (hmac_update_ok get_compress sa (store_be32 idx) 4 Ra) as (U1 & _).
  rewrite E2 in U1. cbn [fst] in U1. subst rc2.
  cbn [Z.eqb negb] in Eu |- *. injection Eu as ->.
  rewrite Ef. cbn [Z.eqb negb contents concat].
  rewrite app_nil_r.
  rewrite memcpy_whole by (rewrite ?zeros_length, ?PRF_length; reflexivity).
  pose proof (rounds_loop_spec (s ++ store_be32 idx)
                (Z.to_nat (rounds - 1)) 0) as Hl.
  cbn [U F_upto Nat.add] in Hl. rewrite Hl. reflexivity.
Qed.

Lemma T_stream_length (k : nat) : forall i : Z,
  length (T_stream get_compress pw s rounds i k) = (64 * k)%nat.
Proof.
  induction k as [|k IH]; intros i; cbn [T_stream]; [reflexivity|].
  rewrite length_app, F_length, IH. lia.
Qed.

(** The loop over the blocks writes T_idx || T_(idx+1) || ..., cut to
    the bytes that remain; the index does not wrap while the remaining
    length respects the limit. *)
Lemma pbkdf2_loop_stream (k : nat) :
  forall (dk_remaining : nat) (dk : list byte) (off : nat) (idx : Z),
  (dk_remaining <= 64 * k)%nat -> (off + dk_remaining <= length dk)%nat ->
  0 <= idx -> Z.of_nat dk_remaining <= 64 * (2 ^ 32 - idx) ->
  pbkdf2_loop get_compress (Some pw) (length pw) (Some s) (length s) rounds
              dk off dk_remaining idx
  = (0, firstn off dk
        ++ firstn dk_remaining (T_stream get_compress pw s rounds idx k)
        ++ skipn (off + dk_remaining) dk).
Proof.
  induction k as [|k IH]; intros rem dk off idx Hk Hlen Hidx Hlim.
  - assert (rem = 0)%nat by lia. subst rem.
    rewrite pbkdf2_loop_equation_1. rewrite Nat.add_0_r.
    cbn [T_stream firstn app]. rewrite firstn_skipn. reflexivity.
  - destruct rem as [|r].
    + rewrite pbkdf2_loop_equation_1. rewrite Nat.add_0_r.
      cbn [firstn app]. rewrite firstn_skipn. reflexivity.
    + rewrite pbkdf2_loop_step, derive_block_spec. cbn [fst snd Z.eqb negb].
      cbn [T_stream].
      pose proof (F_length idx) as LF.
      set (T := F get_compress pw s rounds idx) in *.
      unfold cplen_of, HLEN.
      destruct (Nat.ltb_spec (S r) 64) as [Hshort|Hlong].
      * (* the last, partial block *)
        replace (S r - S r)%nat with 0%nat by lia.
        rewrite pbkdf2_loop_equation_1.
        rewrite memcpy_spec by lia.
        rewrite firstn_app, LF.
        replace (S r - 64)%nat with 0%nat by lia.
        rewrite firstn_O, app_nil_r. reflexivity.
      * (* a whole block, and the rest by induction *)
        destruct (Nat.eq_dec (S r - 64) 0) as [Hz|Hnz].
        -- rewrite Hz, pbkdf2_loop_equation_1.
           assert (S r = 64)%nat by lia.
           rewrite memcpy_spec by lia.
           rewrite firstn_app, LF.
           replace (S r - 64)%nat with 0%nat by lia.
           rewrite firstn_O, app_nil_r.
           replace (S r) with 64%nat by lia. reflexivity.
        -- assert (Hu : u32 (idx + 1) = idx + 1).
           { unfold u32. apply Z.mod_small. lia. }
           rewrite Hu.
           rewrite IH by (rewrite ?memcpy_length; lia).
           rewrite memcpy_spec by lia.
           rewrite (firstn_all2 (n := 64) T) by lia.
           rewrite (firstn_app (S r) T), LF.
           rewrite (firstn_all2 (n := S r) T) by lia.
           (* the prefix and the tail of the region after the copy *)
           assert (Hpre : firstn (off + 64)
                            (firstn off dk ++ T ++ skipn (off + 64) dk)
                          = firstn off dk ++ T).
           { rewrite app_assoc. rewrite firstn_app.
             rewrite length_app, length_firstn, LF.
             replace (Nat.min off (length dk)) with off by lia.
             replace (off + 64 - (off + 64))%nat with 0%nat by lia.
             rewrite firstn_O, app_nil_r.
             apply firstn_all2. rewrite length_app, length_firstn, LF. lia. }
           assert (Hpost : skipn (off + 64 + (S r - 64))
                             (firstn off dk ++ T ++ skipn (off + 64) dk)
                           = skipn (off + S r) dk).
           { rewrite app_assoc. rewrite skipn_app.
             rewrite length_app, length_firstn, LF.
             replace (Nat.min off (length dk)) with off by lia.
             rewrite (skipn_all2 (n := off + 64 + (S r - 64)))
               by (rewrite length_app, length_firstn, LF; lia).
             rewrite skipn_skipn. cbn [app]. f_equal. lia. }
           rewrite Hpre, Hpost. rewrite <- !app_assoc. reflexivity.
Qed.

(** Past the argument checks the call is the loop over the blocks. *)
Lemma pbkdf2_loop_guards (dk : list byte) (n : nat) :
  (1 <= n)%nat -> 1 <= rounds < 2 ^ 32 ->
  Z.of_nat n <= (2 ^ 32 - 1) * 64 ->
  tinyblake_pbkdf2 get_compress (Some dk) n (Some pw) (length pw)
    (Some s) (length s) rounds
  = (fst (pbkdf2_loop get_compress (Some pw) (length pw) (Some s) (length s)
            rounds dk 0 n 1),
     Some (snd (pbkdf2_loop get_compress (Some pw) (length pw) (Some s)
                  (length s) rounds dk 0 n 1))).
Proof.
  intros Hn Hr Hlim. unfold tinyblake_pbkdf2.
  assert (G1 : (n =? 0)%nat = false) by (apply Nat.eqb_neq; lia).
  assert (G2 : (rounds =? 0) = false) by (apply Z.eqb_neq; lia).
  assert (G3 : (Z.of_nat n >? UINT32_MAX * Z.of_nat HLEN) = false).
  { rewrite Z.gtb_ltb. apply Z.ltb_ge. unfold UINT32_MAX, HLEN.
    change (Z.of_nat 64) with 64. lia. }
  rewrite G1, G2, G3.
  destruct (pbkdf2_loop get_compress (Some pw) (length pw) (Some s)
              (length s) rounds dk 0 n 1). reflexivity.
Qed.

(** X23.  [tinyblake_pbkdf2] computes the derived key of RFC 8018 over
    HMAC-BLAKE2b-512.  For a non-empty password, a salt, 1 <= rounds <
    2^32 and 1 <= outlen <= (2^32 - 1) * 64 it returns 0 and writes the
    first outlen bytes of T_1 || T_2 || ... to the front of the output
    region, leaving the bytes behind them as they were, where
    T_i = U_1 ^ ... ^ U_rounds, U_1 = HMAC(P, S || INT_32_BE(i)) and
    U_(j+1) = HMAC(P, U_j), each HMAC as the one-shot [tinyblake_hmac]
    computes it.  Within the limit on outlen the 32-bit block index does
    not wrap. *)
Theorem pbkdf2_is_rfc_formula (dk : list byte) (n : nat) (k : nat) :
  (1 <= n <= length dk)%nat -> 1 <= rounds < 2 ^ 32 ->
  Z.of_nat n <= (2 ^ 32 - 1) * 64 -> (n <= 64 * k)%nat ->
  tinyblake_pbkdf2 get_compress (Some dk) n (Some pw) (length pw)
    (Some s) (length s) rounds
  = (0, Some (firstn n (T_stream get_compress pw s rounds 1 k)
              ++ skipn n dk)).
Proof.
  intros Hn Hr Hlim Hk.
  rewrite pbkdf2_loop_guards by lia.
  rewrite (pbkdf2_loop_stream k) by lia.
  reflexivity.
Qed.

(** X24.  A shorter derived key is a prefix of a longer one: for the
    same password, salt and rounds, the first n1 bytes that a request
    for n2 >= n1 bytes writes are the n1 bytes that a request for n1
    bytes writes, whatever the two output regions held; both calls
    return 0. *)
Theorem pbkdf2_shorter_is_prefix (dk1 dk2 : list byte) (n1 n2 : nat) :
  (1 <= n1 <= n2)%nat -> (n1 <= length dk1)%nat -> (n2 <= length dk2)%nat ->
  1 <= rounds < 2 ^ 32 -> Z.of_nat n2 <= (2 ^ 32 - 1) * 64 ->
  exists o1 o2,
    tinyblake_pbkdf2 get_compress (Some dk1) n1 (Some pw) (length pw)
      (Some s) (length s) rounds = (0, Some o1) /\
    tinyblake_pbkdf2 get_compress (Some dk2) n2 (Some pw) (length pw)
      (Some s) (length s) rounds = (0, Some o2) /\
    firstn n1 o2 = firstn n1 o1 /\
    skipn n1 o1 = skipn n1 dk1.
Proof.
  intros Hn H1 H2 Hr Hlim.
  rewrite !pbkdf2_loop_guards by lia.
  rewrite !(pbkdf2_loop_stream n2) by lia.
  cbn [fst snd firstn app Nat.add].
  do 2 eexists. split; [reflexivity|]. split; [reflexivity|].
  pose proof (T_stream_length n2 1) as LT.
  set (X := T_stream get_compress pw s rounds 1 n2) in *.
  assert (L1 : length (firstn n1 X) = n1) by (rewrite length_firstn; lia).
  assert (L2 : length (firstn n2 X) = n2) by (rewrite length_firstn; lia).
  split.
  - rewrite !firstn_app, L1, L2.
    replace (n1 - n1)%nat with 0%nat by lia.
    replace (n1 - n2)%nat with 0%nat by lia.
    rewrite !firstn_O, !app_nil_r.
    rewrite firstn_firstn, firstn_firstn.
    replace (Nat.min n1 n2) with n1 by lia.
    replace (Nat.min n1 n1) with n1 by lia. reflexivity.
  - rewrite skipn_app, L1.
    replace (n1 - n1)%nat with 0%nat by lia.
    rewrite (skipn_all2 (n := n1) (firstn n1 X)) by lia.
    reflexivity.
Qed.

End Prf.

End Dispatch.

Lemma pbkdf2_is_rfc_formula_witness :
  ((1 <= length (ascii_bytes "password"))%nat /\
   (1 <= 64 <= length (zeros 64))%nat /\ (1 <= 2 < 2 ^ 32) /\
   (Z.of_nat 64 <= (2 ^ 32 - 1) * 64) /\ (64 <= 64 * 1)%nat) /\
  tinyblake_pbkdf2 blake2b_compress_portable (Some (zeros 64)) 64
    (Some (ascii_bytes "password")) (length (ascii_bytes "password"))
    (Some (ascii_bytes "salt")) (length (ascii_bytes "salt")) 2
  = (0, Some (firstn 64
                (T_stream blake2b_compress_portable (ascii_bytes "password")
                   (ascii_bytes "salt") 2 1 1)
              ++ skipn 64 (zeros 64))).
Proof.
  assert (Hp : (1 <= length (ascii_bytes "password"))%nat) by (cbn; lia).
  assert (Hn : (1 <= 64 <= length (zeros 64))%nat) by (cbn; lia).
  assert (Hr : 1 <= 2 < 2 ^ 32) by lia.
  assert (Hl : Z.of_nat 64 <= (2 ^ 32 - 1) * 64) by lia.
  assert (Hk : (64 <= 64 * 1)%nat) by lia.
  split; [repeat split; try assumption; try lia; apply Hn|].
  exact (pbkdf2_is_rfc_formula blake2b_compress_portable
           (ascii_bytes "password") Hp (ascii_bytes "salt") 2
           (zeros 64) 64 1 Hn Hr Hl Hk).
Defined.

Lemma pbkdf2_shorter_is_prefix_witness :
  ((1 <= length (ascii_bytes "password"))%nat /\
   (1 <= 20 <= 100)%nat /\ (20 <= length (zeros 20))%nat /\
   (100 <= length (zeros 100))%nat /\ (1 <= 1 < 2 ^ 32) /\
   (Z.of_nat 100 <= (2 ^ 32 - 1) * 64)) /\
  exists o1 o2,
    tinyblake_pbkdf2 blake2b_compress_portable (Some (zeros 20)) 20
      (Some (ascii_bytes "password")) (length (ascii_bytes "password"))
      (Some (ascii_bytes "salt")) (length (ascii_bytes "salt")) 1
    = (0, Some o1) /\
    tinyblake_pbkdf2 blake2b_compress_portable (Some (zeros 100)) 100
      (Some (ascii_bytes "password")) (length (ascii_bytes "password"))
      (Some (ascii_bytes "salt")) (length (ascii_bytes "salt")) 1
    = (0, Some o2) /\
    firstn 20 o2 = firstn 20 o1.
Proof.
  assert (Hp : (1 <= length (ascii_bytes "password"))%nat) by (cbn; lia).
  assert (Hn : (1 <= 20 <= 100)%nat) by lia.
  assert (H1 : (20 <= length (zeros 20))%nat) by (cbn; lia).
  assert (H2 : (100 <= length (zeros 100))%nat) by (cbn; lia).
  assert (Hr : 1 <= 1 < 2 ^ 32) by lia.
  assert (Hl : Z.of_nat 100 <= (2 ^ 32 - 1) * 64) by lia.
  split; [repeat split; try assumption; try lia|].
  destruct (pbkdf2_shorter_is_prefix blake2b_compress_portable
              (ascii_bytes "password") Hp (ascii_bytes "salt") 1
              (zeros 20) (zeros 100) 20 100 Hn H1 H2 Hr Hl)
    as (o1 & o2 & E1 & E2 & E3 & _).
  exists o1, o2. repeat split; assumption.
Defined.

End Pbkdf2Extras.

(* ===================================================================== *)
(** ** Chunking from any state, and the C++ key derivation *)
(* ===================================================================== *)

Module WrapperExtras.

Import HmacClaims.
Import Pbkdf2Claims.
Import Blake2bExtras.
Import Blake2bCppExtras.
Import HmacExtras.
Import Pbkdf2Extras.

Section Dispatch.

Variable get_compress : blake2b_compress_fn.

(** X25.  How a message is cut into update calls never matters, from
    any state: for a state whose buffer length is within the 128-byte
    buffer (after init, init_key, init_param or in mid-stream), feeding
    the chunks one by one and feeding their concatenation in one call
    both return 0, and the finals that follow return 0 and write the
    same bytes. *)
Theorem update_chunking_is_irrelevant (K : tinyblake_blake2b_state)
        (chunks : list (list byte)) (o : list byte) (cap : nat) :
  length (buf K) = 128%nat -> (buflen K <= 128)%nat -> (outlen K <= cap)%nat ->
  exists Sa Sb o',
    update_chunks get_compress K chunks = (0, Sa) /\
    tinyblake_blake2b_update get_compress K (Some (concat chunks))
      (length (concat chunks)) = (0, Sb) /\
    tinyblake_blake2b_final get_compress Sa (Some o) cap
    = (0, zero_state, Some o') /\
    tinyblake_blake2b_final get_compress Sb (Some o) cap
    = (0, zero_state, Some o') /\
    length o' = length o.
Proof.
  intros Hb Hl Hcap.
  destruct (chunks_then_final get_compress K chunks o cap (conj Hb Hl) Hcap)
    as (Sa & Sb & o' & Ea & Eb & Fa & Fb & Lo & _).
  exists Sa, Sb, o'. repeat split; assumption.
Qed.

(** X26.  Bytes of the buffer beyond buflen never matter: two states
    with the same chaining value, counter, digest length, buflen and the
    same first buflen bytes of the buffer finalise to the same result,
    and after the same update they still do, whatever is left over in
    the rest of their 128-byte buffers. *)
Theorem stale_buffer_bytes_never_matter
        (St1 St2 : tinyblake_blake2b_state) (data o : list byte) (cap : nat) :
  length (buf St1) = 128%nat -> length (buf St2) = 128%nat ->
  (buflen St1 <= 128)%nat -> buflen St1 = buflen St2 ->
  firstn (buflen St1) (buf St1) = firstn (buflen St2) (buf St2) ->
  h St1 = h St2 -> t0 St1 = t0 St2 -> t1 St1 = t1 St2 ->
  outlen St1 = outlen St2 -> (outlen St1 <= cap)%nat ->
  tinyblake_blake2b_final get_compress St1 (Some o) cap
  = tinyblake_blake2b_final get_compress St2 (Some o) cap /\
  exists Sa Sb o',
    tinyblake_blake2b_update get_compress St1 (Some data) (length data)
    = (0, Sa) /\
    tinyblake_blake2b_update get_compress St2 (Some data) (length data)
    = (0, Sb) /\
    tinyblake_blake2b_final get_compress Sa (Some o) cap
    = (0, zero_state, Some o') /\
    tinyblake_blake2b_final get_compress Sb (Some o) cap
    = (0, zero_state, Some o').
Proof.
  intros B1 B2 L1 EL EP Eh E0 E1 EO Hcap.
  assert (W1 : well_formed St1) by (split; assumption).
  assert (W2 : well_formed St2) by (split; [assumption|lia]).
  assert (EC : core_of St1 = core_of St2)
    by (unfold core_of; rewrite Eh, E0, E1; reflexivity).
  assert (EPn : pending St1 = pending St2) by exact EP.
  split.
  - apply (Blake2bClaims.final_same_view get_compress St1 St2 o cap);
      assumption.
  - destruct (update_absorb get_compress St1 data W1)
      as (Sa & Ea & Wa & Oa & Ca & Pa).
    destruct (update_absorb get_compress St2 data W2)
      as (Sb & Eb & Wb & Ob & Cb & Pb).
    rewrite <- EC, <- EPn in Cb, Pb.
    destruct (Blake2bClaims.final_same_view get_compress Sa Sb o cap Wa Wb)
      as [E _]; try congruence; try lia.
    destruct (final_succeeds get_compress Sa o cap) as (o' & Ef & _); [lia|].
    exists Sa, Sb, o'. rewrite <- E. repeat split; assumption.
Qed.

Variable empty_data_is_null : bool.

(** X27.  The C++ [pbkdf2::derive] returns the derived key and nothing
    else: for a non-empty password, a non-empty salt, 1 <= rounds < 2^32
    and 1 <= outlen <= (2^32 - 1) * 64 it returns, without throwing, a
    vector of exactly outlen bytes, the first outlen bytes of
    T_1 || T_2 || ...; with outlen = 0 or rounds = 0 it throws. *)
Theorem derive_returns_the_derived_key (pw s : list byte) (rounds : Z)
        (n : nat) :
  (1 <= length pw)%nat -> (1 <= length s)%nat ->
  (n = 0%nat \/ rounds = 0 ->
   Pbkdf2Cpp.derive_string get_compress empty_data_is_null pw s rounds n
   = Throws "tinyblake::pbkdf2::derive failed") /\
  ((1 <= n)%nat -> 1 <= rounds < 2 ^ 32 ->
   Z.of_nat n <= (2 ^ 32 - 1) * 64 ->
   Pbkdf2Cpp.derive_string get_compress empty_data_is_null pw s rounds n
   = Returns (firstn n (T_stream get_compress pw s rounds 1 n)) /\
   length (firstn n (T_stream get_compress pw s rounds 1 n)) = n).
Proof.
  intros Hp Hs.
  assert (Hsalt : vector_data empty_data_is_null s = Some s)
    by (apply vector_data_nonempty; exact Hs).
  unfold Pbkdf2Cpp.derive_string, Pbkdf2Cpp.derive. rewrite Hsalt.
  split.
  - intros H. unfold tinyblake_pbkdf2.
    destruct (vector_data empty_data_is_null (zeros n)) as [dk|];
      [|reflexivity].
    destruct (Nat.eqb_spec n 0) as [Hn|Hn]; [reflexivity|].
    destruct H as [H|H]; [contradiction|]. subst rounds. reflexivity.
  - intros Hn Hr Hlim.
    rewrite vector_data_nonempty by (rewrite zeros_length; exact Hn).
    rewrite (pbkdf2_loop_guards get_compress pw Hp s rounds (zeros n) n)
      by assumption.
    rewrite (pbkdf2_loop_stream get_compress pw Hp s rounds n)
      by (rewrite ?zeros_length; lia).
    cbn [fst snd Z.eqb negb contents firstn app Nat.add].
    rewrite skipn_all2 by (rewrite zeros_length; lia).
    rewrite app_nil_r. split; [reflexivity|].
    rewrite length_firstn, (T_stream_length get_compress pw Hp s rounds). lia.
Qed.

End Dispatch.

Lemma update_chunking_is_irrelevant_witness :
  (length (buf (param_state (build_default_param x20 x00))) = 128%nat /\
   (buflen (param_state (build_default_param x20 x00)) <= 128)%nat /\
   (outlen (param_state (build_default_param x20 x00)) <= 32)%nat) /\
  exists Sa Sb o',
    update_chunks blake2b_compress_portable
      (param_state (build_default_param x20 x00))
      [ascii_bytes "ab"; ascii_bytes "c"] = (0, Sa) /\
    tinyblake_blake2b_update blake2b_compress_portable
      (param_state (build_default_param x20 x00))
      (Some (concat [ascii_bytes "ab"; ascii_bytes "c"]))
      (length (concat [ascii_bytes "ab"; ascii_bytes "c"])) = (0, Sb) /\
    tinyblake_blake2b_final blake2b_compress_portable Sa (Some (zeros 32)) 32
    = (0, zero_state, Some o') /\
    tinyblake_blake2b_final blake2b_compress_portable Sb (Some (zeros 32)) 32
    = (0, zero_state, Some o').
Proof.
  assert (Hb : length (buf (param_state (build_default_param x20 x00)))
               = 128%nat) by reflexivity.
  assert (Hl : (buflen (param_state (build_default_param x20 x00)) <= 128)%nat)
    by (cbn; lia).
  assert (Ho : (outlen (param_state (build_default_param x20 x00)) <= 32)%nat)
    by (vm_compute; lia).
  split; [repeat split; assumption|].
  destruct (update_chunking_is_irrelevant blake2b_compress_portable
              (param_state (build_default_param x20 x00))
              [ascii_bytes "ab"; ascii_bytes "c"] (zeros 32) 32 Hb Hl Ho)
    as (Sa & Sb & o' & A & B & C & D & _).
  exists Sa, Sb, o'. repeat split; assumption.
Defined.

Lemma stale_buffer_bytes_never_matter_witness :
  let St1 := set_buflen (set_buf (fresh_state 64)
                           (ascii_bytes "abc" ++ repeat xff 125)) 3 in
  let St2 := set_buflen (set_buf (fresh_state 64)
                           (ascii_bytes "abc" ++ repeat x00 125)) 3 in
  (length (buf St1) = 128%nat /\ length (buf St2) = 128%nat /\
   (buflen St1 <= 128)%nat /\ buflen St1 = buflen St2 /\
   firstn (buflen St1) (buf St1) = firstn (buflen St2) (buf St2) /\
   h St1 = h St2 /\ t0 St1 = t0 St2 /\ t1 St1 = t1 St2 /\
   outlen St1 = outlen St2 /\ (outlen St1 <= 64)%nat) /\
  tinyblake_blake2b_final blake2b_compress_portable St1 (Some (zeros 64)) 64
  = tinyblake_blake2b_final blake2b_compress_portable St2 (Some (zeros 64)) 64.
Proof.
  cbv zeta.
  split; [repeat split; try reflexivity; cbn; lia|].
  apply (stale_buffer_bytes_never_matter blake2b_compress_portable
           (set_buflen (set_buf (fresh_state 64)
                          (ascii_bytes "abc" ++ repeat xff 125)) 3)
           (set_buflen (set_buf (fresh_state 64)
                          (ascii_bytes "abc" ++ repeat x00 125)) 3)
           [] (zeros 64) 64);
    try reflexivity; cbn; lia.
Defined.

Lemma derive_returns_the_derived_key_witness :
  ((1 <= length (ascii_bytes "password"))%nat /\
   (1 <= length (ascii_bytes "salt"))%nat) /\
  Pbkdf2Cpp.derive_string blake2b_compress_portable true
    (ascii_bytes "password") (ascii_bytes "salt") 1 20
  = Returns (firstn 20
               (T_stream blake2b_compress_portable (ascii_bytes "password")
                  (ascii_bytes "salt") 1 1 20)).
Proof.
  assert (Hp : (1 <= length (ascii_bytes "password"))%nat) by (cbn; lia).
  assert (Hs : (1 <= length (ascii_bytes "salt"))%nat) by (cbn; lia).
  split; [split; assumption|].
  apply (proj2 (derive_returns_the_derived_key blake2b_compress_portable true
                  (ascii_bytes "password") (ascii_bytes "salt") 1 20 Hp Hs));
    lia.
Defined.

End WrapperExtras.

(* ===================================================================== *)
(** ** Zero-length inputs, and a hasher used after final_ *)
(* ===================================================================== *)

Module EdgeExtras.

Import HmacClaims.
Import Pbkdf2Claims.
Import Blake2bExtras.
Import Blake2bCppExtras.

Section Dispatch.

Variable get_compress : blake2b_compress_fn.

Lemma update_zero_length (St : tinyblake_blake2b_state) (x : list byte) :
  tinyblake_blake2b_update get_compress St None 0
  = tinyblake_blake2b_update get_compress St (Some x) 0.
Proof.
  unfold tinyblake_blake2b_update.
  destruct (128 <? buflen St)%nat; reflexivity.
Qed.

Lemma hmac_update_zero_length (st : tinyblake_hmac_state) (x : list byte) :
  tinyblake_hmac_update get_compress st None 0
  = tinyblake_hmac_update get_compress st (Some x) 0.
Proof.
  unfold tinyblake_hmac_update. rewrite (update_zero_length (inner st) x).
  reflexivity.
Qed.

Lemma derive_block_zero_salt (password : option (list byte)) (passlen : nat)
      (x : list byte) (rounds idx : Z) :
  derive_block get_compress password passlen None 0 rounds idx
  = derive_block get_compress password passlen (Some x) 0 rounds idx.
Proof.
  unfold derive_block.
  destruct (tinyblake_hmac_init get_compress zero_hmac_state password passlen)
    as [rc st].
  destruct (negb (rc =? 0)); [reflexivity|].
  rewrite (hmac_update_zero_length st x). reflexivity.
Qed.

Lemma pbkdf2_loop_zero_salt (password : option (list byte)) (passlen : nat)
      (x : list byte) (rounds : Z) :
  forall (dk_remaining : nat) (dk : list byte) (off : nat) (idx : Z),
  pbkdf2_loop get_compress password passlen None 0 rounds
    dk off dk_remaining idx
  = pbkdf2_loop get_compress password passlen (Some x) 0 rounds
      dk off dk_remaining idx.
Proof.
  intros dk_remaining.
  induction dk_remaining as [n IH] using lt_wf_ind. intros dk off idx.
  destruct n as [|r].
  - rewrite !pbkdf2_loop_equation_1. reflexivity.
  - rewrite !pbkdf2_loop_step, (derive_block_zero_salt _ _ x).
    destruct (negb (fst (derive_block get_compress password passlen (Some x)
                           0 rounds idx) =? 0)); [reflexivity|].
    pose proof (cplen_of_bounds r) as Hc.
    apply IH. lia.
Qed.

(** X28.  A pointer that comes with length zero is never looked at: a
    zero-length update, the one-shot hash and the one-shot HMAC of a
    zero-length input, and PBKDF2 with a zero-length salt behave alike
    for a null pointer and for any non-null pointer, in result and in
    everything they write. *)
Theorem zero_length_pointers_are_ignored (x : list byte) :
  (forall St,
     tinyblake_blake2b_update get_compress St None 0
     = tinyblake_blake2b_update get_compress St (Some x) 0) /\
  (forall out n key keylen,
     tinyblake_blake2b get_compress out n None 0 key keylen
     = tinyblake_blake2b get_compress out n (Some x) 0 key keylen) /\
  (forall out cap key keylen,
     tinyblake_hmac get_compress out cap key keylen None 0
     = tinyblake_hmac get_compress out cap key keylen (Some x) 0) /\
  (forall out n password passlen rounds,
     tinyblake_pbkdf2 get_compress out n password passlen None 0 rounds
     = tinyblake_pbkdf2 get_compress out n password passlen (Some x) 0
         rounds).
Proof.
  split; [intros St; apply update_zero_length|]. split; [|split].
  - intros out n key keylen. unfold tinyblake_blake2b.
    destruct (if (0 <? keylen)%nat
              then tinyblake_blake2b_init_key get_compress zero_state n key
                     keylen
              else tinyblake_blake2b_init zero_state n) as [rc St].
    destruct (negb (rc =? 0)); [reflexivity|].
    rewrite (update_zero_length St x). reflexivity.
  - intros out cap key keylen. unfold tinyblake_hmac.
    destruct (tinyblake_hmac_init get_compress zero_hmac_state key keylen)
      as [rc st].
    destruct (negb (rc =? 0)); [reflexivity|].
    rewrite (hmac_update_zero_length st x). reflexivity.
  - intros out n password passlen rounds. unfold tinyblake_pbkdf2.
    destruct out as [dk|]; [|reflexivity].
    destruct (n =? 0)%nat; [reflexivity|].
    destruct (rounds =? 0); [reflexivity|].
    destruct (Z.of_nat n >? UINT32_MAX * Z.of_nat HLEN); [reflexivity|].
    rewrite (pbkdf2_loop_zero_salt password passlen x). reflexivity.
Qed.

Variable empty_data_is_null : bool.

(** X29.  A [blake2b::hasher] used after final_() without reset(): for
    a hasher constructed with a digest length in 1..64 and fed any
    chunks, final_() returns the digest and leaves the hash state all
    zero; after that update() still returns without an exception, and a
    second final_() throws when the data() of an empty vector is the
    null pointer and returns an empty vector when it is not. *)
Theorem blake2b_hasher_after_final (n : nat) (chunks : list (list byte))
        (data : list byte) (len : nat) :
  (1 <= n <= 64)%nat ->
  exists hs0 hs1 hs2 d,
    Blake2bCpp.hasher_ctor n = Returns hs0 /\
    Blake2bCpp.hasher_updates get_compress hs0 chunks = Returns hs1 /\
    Blake2bCpp.hasher_final_ get_compress empty_data_is_null hs1
    = Returns (hs2, d) /\
    length d = n /\ Blake2bCpp.state_ hs2 = zero_state /\
    (exists hs3,
       Blake2bCpp.hasher_update get_compress hs2 (Some data) len
       = Returns hs3) /\
    Blake2bCpp.hasher_final_ get_compress empty_data_is_null hs2
    = (if empty_data_is_null then Throws "Blake2b::final_ failed"
       else Returns (hs2, [])).
Proof.
  intros Hn.
  destruct (hasher_ctor_ok n Hn) as (Ec & _).
  destruct (init_succeeds zero_state n Hn) as (_ & W & _ & Ol & _).
  set (hs0 := Blake2bCpp.mk_hasher (fresh_state n)
                (build_default_param (byte_of_nat n) x00) false (zeros 128))
    in *.
  destruct (hasher_updates_chunks get_compress chunks hs0 W)
    as (St' & Eu & Hu).
  destruct (update_chunks_absorb get_compress chunks (fresh_state n) W)
    as (Sa & Ea & Wa & Oa & _).
  cbn [Blake2bCpp.state_ hs0] in Eu. rewrite Ea in Eu. injection Eu as <-.
  destruct (final_succeeds get_compress Sa (zeros n) n) as (d & Ef & Ld);
    [lia|].
  rewrite zeros_length in Ld.
  exists hs0, (Blake2bCpp.set_state_ hs0 Sa),
    (Blake2bCpp.set_state_ hs0 zero_state), d.
  split; [exact Ec|]. split; [exact Hu|].
  assert (Hf1 : Blake2bCpp.hasher_final_ get_compress empty_data_is_null
                  (Blake2bCpp.set_state_ hs0 Sa)
                = Returns (Blake2bCpp.set_state_ hs0 zero_state, d)).
  { unfold Blake2bCpp.hasher_final_, Blake2bCpp.set_state_.
    cbn [Blake2bCpp.state_]. rewrite Oa, Ol.
    rewrite vector_data_nonempty by (rewrite zeros_length; lia).
    rewrite zeros_length, Ef. reflexivity. }
  split; [exact Hf1|]. split; [exact Ld|]. split; [reflexivity|]. split.
  - unfold Blake2bCpp.hasher_update. cbn [Blake2bCpp.state_ Blake2bCpp.set_state_].
    destruct (update_succeeds get_compress zero_state data len) as (U0 & _);
      [cbn; lia|].
    destruct (tinyblake_blake2b_update get_compress zero_state (Some data) len)
      as [rc St]. cbn [fst] in U0. subst rc. cbn [Z.eqb negb].
    eexists. reflexivity.
  - unfold Blake2bCpp.hasher_final_.
    cbn [Blake2bCpp.state_ Blake2bCpp.set_state_].
    change (zeros (outlen zero_state)) with (@nil byte).
    cbn [vector_data length].
    destruct empty_data_is_null; [reflexivity|].
    destruct (final_succeeds get_compress zero_state [] 0) as (o' & Ef0 & L0);
      [cbn; lia|].
    rewrite Ef0. cbn [Z.eqb negb contents].
    destruct o'; [reflexivity|discriminate L0].
Qed.

End Dispatch.

Lemma blake2b_hasher_after_final_witness :
  (1 <= 64 <= 64)%nat /\
  exists hs0 hs1 hs2 d,
    Blake2bCpp.hasher_ctor 64 = Returns hs0 /\
    Blake2bCpp.hasher_updates blake2b_compress_portable hs0
      [ascii_bytes "abc"] = Returns hs1 /\
    Blake2bCpp.hasher_final_ blake2b_compress_portable true hs1
    = Returns (hs2, d) /\
    Blake2bCpp.hasher_final_ blake2b_compress_portable true hs2
    = Throws "Blake2b::final_ failed".
Proof.
  assert (Hn : (1 <= 64 <= 64)%nat) by lia.
  split; [exact Hn|].
  destruct (blake2b_hasher_after_final blake2b_compress_portable true 64
              [ascii_bytes "abc"] [] 0 Hn)
    as (hs0 & hs1 & hs2 & d & A & B & C & _ & _ & _ & D).
  exists hs0, hs1, hs2, d. repeat split; assumption.
Defined.

End EdgeExtras.

(* ===================================================================== *)
(** ** BLAKE2b: the counter and the residual length after each init *)
(* ===================================================================== *)

Module ApiBoundaryClaims.

Import Blake2bExtras.

(** A call that returned -1 did not return 0. *)
Lemma refused_is_not_accepted {A : Type} (a b : A) : (-1, a) = (0, b) -> False.
Proof. intros E. apply (f_equal fst) in E. cbn [fst] in E. discriminate E. Qed.

Lemma accepted_state {A : Type} (a b : A) : (0, a) = (0, b) -> b = a.
Proof. intros E. apply (f_equal snd) in E. cbn [snd] in E. symmetry. exact E. Qed.

(** The state a successful [tinyblake_blake2b_init] leaves. *)
Lemma init_accepted (Sp S0 : tinyblake_blake2b_state) (n : nat) :
  tinyblake_blake2b_init Sp n = (0, S0) ->
  (1 <= n <= 64)%nat /\ S0 = fresh_state n.
Proof.
  intros E.
  destruct (Nat.eq_dec n 0) as [Hz|Hnz].
  { rewrite (init_refuses Sp n (or_introl Hz)) in E.
    destruct (refused_is_not_accepted _ _ E). }
  destruct (le_lt_dec n 64) as [Hle|Hgt].
  - assert (Hn : (1 <= n <= 64)%nat) by lia.
    split; [exact Hn|].
    destruct (init_succeeds Sp n Hn) as (Ei & _).
    rewrite Ei in E. exact (accepted_state _ _ E).
  - rewrite (init_refuses Sp n (or_intror Hgt)) in E.
    destruct (refused_is_not_accepted _ _ E).
Qed.

(** The state a successful [tinyblake_blake2b_init_param] leaves. *)
Lemma init_param_accepted (Sp S0 : tinyblake_blake2b_state)
      (param : option (list byte)) :
  tinyblake_blake2b_init_param Sp param = (0, S0) ->
  exists p, param = Some p /\ 1 <= Z_of_byte (rd p 0) <= 64 /\
            S0 = param_state p.
Proof.
  intros E. destruct param as [p|]; cbn [tinyblake_blake2b_init_param] in E.
  - exists p. split; [reflexivity|].
    destruct (Z.eq_dec (Z_of_byte (rd p 0)) 0) as [Hz|Hnz].
    { rewrite (init_from_param_refuses Sp p (or_introl Hz)) in E.
      destruct (refused_is_not_accepted _ _ E). }
    destruct (Z_lt_le_dec 64 (Z_of_byte (rd p 0))) as [Hgt|Hle].
    { rewrite (init_from_param_refuses Sp p (or_intror Hgt)) in E.
      destruct (refused_is_not_accepted _ _ E). }
    pose proof (Z_of_byte_range (rd p 0)) as Hr.
    assert (Hn : 1 <= Z_of_byte (rd p 0) <= 64) by lia.
    split; [exact Hn|].
    rewrite (init_from_param_accepts Sp p Hn) in E.
    exact (accepted_state _ _ E).
  - destruct (refused_is_not_accepted _ _ E).
Qed.

Section Dispatch.

Variable get_compress : blake2b_compress_fn.

(** The state a successful [tinyblake_blake2b_init_key] leaves. *)
Lemma init_key_accepted (Sp S0 : tinyblake_blake2b_state) (n : nat)
      (key : option (list byte)) (keylen : nat) :
  tinyblake_blake2b_init_key get_compress Sp n key keylen = (0, S0) ->
  exists k, key = Some k /\ (1 <= n <= 64)%nat /\ (1 <= keylen <= 64)%nat /\
            S0 = keyed_state n k keylen.
Proof.
  intros E.
  destruct (Nat.eq_dec n 0) as [Hz|Hnz].
  { rewrite (init_key_refuses get_compress Sp n key keylen
               (or_introl (or_introl Hz))) in E.
    destruct (refused_is_not_accepted _ _ E). }
  destruct (le_lt_dec n 64) as [Hle|Hgt].
  2:{ rewrite (init_key_refuses get_compress Sp n key keylen
                 (or_introl (or_intror Hgt))) in E.
      destruct (refused_is_not_accepted _ _ E). }
  destruct key as [k|].
  2:{ rewrite (init_key_refuses get_compress Sp n None keylen
                 (or_intror (or_introl eq_refl))) in E.
      destruct (refused_is_not_accepted _ _ E). }
  destruct (Nat.eq_dec keylen 0) as [Kz|Knz].
  { rewrite (init_key_refuses get_compress Sp n (Some k) keylen
               (or_intror (or_intror (or_introl Kz)))) in E.
    destruct (refused_is_not_accepted _ _ E). }
  destruct (le_lt_dec keylen 64) as [Kle|Kgt].
  2:{ rewrite (init_key_refuses get_compress Sp n (Some k) keylen
                 (or_intror (or_intror (or_intror Kgt)))) in E.
      destruct (refused_is_not_accepted _ _ E). }
  assert (Hn : (1 <= n <= 64)%nat) by lia.
  assert (Hk : (1 <= keylen <= 64)%nat) by lia.
  exists k. split; [reflexivity|]. split; [exact Hn|]. split; [exact Hk|].
  destruct (init_key_ok get_compress Sp n k keylen Hn Hk) as (Ei & _).
  rewrite Ei in E. exact (accepted_state _ _ E).
Qed.

(** Each of the three init functions, when it returns 0, leaves a state
    with a 128-byte buffer and both counter words zero. *)
Lemma initialised_state (Sp S0 : tinyblake_blake2b_state) (n : nat)
      (param key : option (list byte)) (keylen : nat) :
  tinyblake_blake2b_init Sp n = (0, S0) \/
  tinyblake_blake2b_init_param Sp param = (0, S0) \/
  tinyblake_blake2b_init_key get_compress Sp n key keylen = (0, S0) ->
  well_formed S0 /\ t0 S0 = 0 /\ t1 S0 = 0 /\ (outlen S0 <= 64)%nat.
Proof.
  intros [E|[E|E]].
  - destruct (init_accepted Sp S0 n E) as (Hn & ->).
    destruct (init_succeeds Sp n Hn) as (_ & W & _ & O & A & B).
    rewrite O. repeat split; try assumption; try apply W; lia.
  - destruct (init_param_accepted Sp S0 param E) as (p & _ & Hp & ->).
    destruct (param_state_well_formed p) as (W & _ & _).
    split; [exact W|]. split; [reflexivity|]. split; [reflexivity|].
    unfold param_state, nat_of_byte. cbn [outlen]. lia.
  - destruct (init_key_accepted Sp S0 n key keylen E)
      as (k & _ & Hn & Hk & ->).
    destruct (init_key_ok get_compress Sp n k keylen Hn Hk) as (_ & W & O).
    split; [exact W|]. split; [reflexivity|]. split; [reflexivity|].
    rewrite O. lia.
Qed.

(** C5 (as the code has it).  A failed init, init_param, init_key,
    update or final leaves the state as it was.  A successful init or
    init_param leaves buflen = 0; a successful init_key leaves
    buflen = 128, the padded key block waiting in the buffer; a
    successful update leaves buflen at most 128, and at least 1 unless it
    was given no input (then the state is unchanged); a successful final
    leaves buflen = 0.  Nothing ties buflen = 128 to the operation that
    follows. *)
Theorem residual_length_at_api_boundaries
        (St0 St : tinyblake_blake2b_state) (n : nat)
        (param key : option (list byte)) (keylen : nat)
        (inp : option (list byte)) (inlen : nat)
        (out : option (list byte)) (cap : nat) :
  (tinyblake_blake2b_init St0 n = (-1, St0) \/
   (fst (tinyblake_blake2b_init St0 n) = 0 /\
    buflen (snd (tinyblake_blake2b_init St0 n)) = 0%nat)) /\
  (tinyblake_blake2b_init_param St0 param = (-1, St0) \/
   (fst (tinyblake_blake2b_init_param St0 param) = 0 /\
    buflen (snd (tinyblake_blake2b_init_param St0 param)) = 0%nat)) /\
  (tinyblake_blake2b_init_key get_compress St0 n key keylen = (-1, St0) \/
   (fst (tinyblake_blake2b_init_key get_compress St0 n key keylen) = 0 /\
    buflen (snd (tinyblake_blake2b_init_key get_compress St0 n key keylen))
    = 128%nat)) /\
  (tinyblake_blake2b_update get_compress St inp inlen = (-1, St) \/
   (fst (tinyblake_blake2b_update get_compress St inp inlen) = 0 /\
    (buflen (snd (tinyblake_blake2b_update get_compress St inp inlen)) <= 128)%nat /\
    ((inlen = 0%nat /\
      snd (tinyblake_blake2b_update get_compress St inp inlen) = St) \/
     (1 <= buflen (snd (tinyblake_blake2b_update get_compress St inp inlen)))%nat))) /\
  (tinyblake_blake2b_final get_compress St out cap = (-1, St, out) \/
   (fst (fst (tinyblake_blake2b_final get_compress St out cap)) = 0 /\
    buflen (snd (fst (tinyblake_blake2b_final get_compress St out cap))) = 0%nat)).
Proof.
  assert (Hn : (n = 0 \/ 64 < n)%nat \/ (1 <= n <= 64)%nat) by lia.
  split; [|split; [|split; [|split]]].
  - destruct Hn as [Hbad|Hok].
    + left. apply init_refuses. exact Hbad.
    + right. destruct (init_succeeds St0 n Hok) as (E & _ & B & _).
      rewrite E. cbn [fst snd]. split; [reflexivity|exact B].
  - destruct param as [p|]; [|left; reflexivity].
    cbn [tinyblake_blake2b_init_param].
    pose proof (Z_of_byte_range (rd p 0)) as Hr.
    assert (Hp : (Z_of_byte (rd p 0) = 0 \/ 64 < Z_of_byte (rd p 0)) \/
                 1 <= Z_of_byte (rd p 0) <= 64) by lia.
    destruct Hp as [Hbad|Hok].
    + left. apply init_from_param_refuses. exact Hbad.
    + right. rewrite (init_from_param_accepts St0 p Hok).
      cbn [fst snd]. split; reflexivity.
  - assert (Hk : (keylen = 0 \/ 64 < keylen)%nat \/ (1 <= keylen <= 64)%nat)
      by lia.
    destruct Hn as [Hbad|Hok].
    { left. apply init_key_refuses. left. exact Hbad. }
    destruct key as [k|].
    2:{ left. apply init_key_refuses. right. left. reflexivity. }
    destruct Hk as [Kbad|Kok].
    { left. apply init_key_refuses. right. right. exact Kbad. }
    right. destruct (init_key_ok get_compress St0 n k keylen Hok Kok) as (E & _).
    rewrite E. cbn [fst snd]. split; reflexivity.
  - apply Blake2bClaims.update_residual.
  - apply Blake2bClaims.final_residual.
Qed.

(** C4.  Whichever of init, init_param and init_key returned 0, it left
    the counter at zero, with an empty buffer after init and init_param
    and with the 128-byte padded key block in the buffer after init_key
    (which hands no block to the compression function itself).  After any
    run of successful updates from there the two counter words are 64-bit
    values and T1 * 2^64 + T0 is the number of bytes put into the buffer
    or past it so far (the key block and the update inputs) minus the
    bytes still in the residual buffer, modulo 2^128 (exactly that number
    below 2^128).  From there, every advance by [inc] sets T0 to
    (T0 + inc) mod 2^64 and adds one to T1 (mod 2^64) exactly when the
    new T0 is less than [inc], which is exactly when the addition
    wrapped; a further update advances the counter by the bytes that
    leave the buffer, and an update of length zero changes nothing;
    final compresses the zero-padded residual block under the counter
    advanced by buflen.  With the backend that tallies
    the block bytes it is handed, the tally grows by exactly the
    counter's value: the counter counts the bytes passed to the
    compression function. *)
Theorem counter_counts_compressed_bytes
        (Sp S0 : tinyblake_blake2b_state) (n : nat)
        (param key : option (list byte)) (keylen : nat)
        (chunks : list (list byte)) (data o : list byte) :
  tinyblake_blake2b_init Sp n = (0, S0) \/
  tinyblake_blake2b_init_param Sp param = (0, S0) \/
  tinyblake_blake2b_init_key get_compress Sp n key keylen = (0, S0) ->
  exists St St' Stt : tinyblake_blake2b_state,
    counter_value S0 = 0 /\
    (tinyblake_blake2b_init Sp n = (0, S0) \/
     tinyblake_blake2b_init_param Sp param = (0, S0) -> buflen S0 = 0%nat) /\
    (tinyblake_blake2b_init_key get_compress Sp n key keylen = (0, S0) ->
     buflen S0 = 128%nat /\
     tinyblake_blake2b_init_key compress_tally Sp n key keylen = (0, S0)) /\
    update_chunks get_compress S0 chunks = (0, St) /\
    in_u64 (t0 St) /\ in_u64 (t1 St) /\
    counter_value St
    = (Z.of_nat (buflen S0) + Z.of_nat (length (concat chunks))
       - Z.of_nat (buflen St)) mod 2 ^ 128 /\
    (Z.of_nat (buflen S0) + Z.of_nat (length (concat chunks)) < 2 ^ 128 ->
     counter_value St
     = Z.of_nat (buflen S0) + Z.of_nat (length (concat chunks))
       - Z.of_nat (buflen St)) /\
    (forall inc : Z, in_u64 inc ->
       t0 (increment_counter St inc) = (t0 St + inc) mod two64 /\
       t1 (increment_counter St inc)
       = (if t0 (increment_counter St inc) <? inc
          then (t1 St + 1) mod two64 else t1 St) /\
       (t0 (increment_counter St inc) <? inc) = (two64 <=? t0 St + inc)) /\
    tinyblake_blake2b_update get_compress St (Some data) (length data)
    = (0, St') /\
    counter_value St'
    = (counter_value St
       + (Z.of_nat (buflen St) + Z.of_nat (length data)
          - Z.of_nat (buflen St'))) mod 2 ^ 128 /\
    (forall inp : option (list byte),
       tinyblake_blake2b_update get_compress St inp 0 = (0, St)) /\
    tinyblake_blake2b_final get_compress St (Some o) (outlen S0)
    = (0, zero_state,
       Some (memcpy o 0
               (encode_h
                  (get_compress (h St) (final_block St)
                     ((t0 St + Z.of_nat (buflen St)) mod two64)
                     (if two64 <=? t0 St + Z.of_nat (buflen St)
                      then (t1 St + 1) mod two64 else t1 St)
                     true))
               (outlen S0))) /\
    update_chunks compress_tally S0 chunks = (0, Stt) /\
    w (h Stt) 0 - w (h S0) 0
    = Z.of_nat (buflen S0) + Z.of_nat (length (concat chunks))
      - Z.of_nat (buflen Stt) /\
    counter_value Stt = (w (h Stt) 0 - w (h S0) 0) mod 2 ^ 128.
Proof.
  intros Hinit.
  destruct (initialised_state Sp S0 n param key keylen Hinit)
    as (W & T0 & T1 & _).
  assert (A0 : in_u64 (t0 S0)) by (rewrite T0; unfold in_u64, two64; lia).
  assert (B0 : in_u64 (t1 S0)) by (rewrite T1; unfold in_u64, two64; lia).
  assert (V0 : counter_value S0 = 0)
    by (unfold counter_value; rewrite T0, T1; reflexivity).
  destruct (CounterClaims.counter_after_chunks get_compress S0 chunks W A0 B0)
    as (St & E & WS & OS & A & B & L & V).
  destruct (CounterClaims.counter_after_update get_compress St data WS A B)
    as (St' & E' & V').
  destruct (CounterClaims.counter_after_chunks compress_tally S0 chunks W A0 B0)
    as (Stt & Et & _ & _ & _ & _ & _ & Vt).
  destruct (CounterClaims.tally_after_chunks S0 chunks W) as (Stt' & Et' & Ht).
  rewrite Et in Et'. apply accepted_state in Et'. subst Stt'.
  rewrite V0, Z.add_0_l in V, Vt.
  exists St, St', Stt.
  split; [exact V0|].
  split.
  { intros [Ei|Ei].
    - destruct (init_accepted Sp S0 n Ei) as (Hn & ->).
      destruct (init_succeeds Sp n Hn) as (_ & _ & Bl & _). exact Bl.
    - destruct (init_param_accepted Sp S0 param Ei) as (p & _ & _ & ->).
      reflexivity. }
  split.
  { intros Ei.
    destruct (init_key_accepted Sp S0 n key keylen Ei)
      as (k & -> & Hn & Hk & ->).
    split; [reflexivity|].
    destruct (init_key_ok compress_tally Sp n k keylen Hn Hk) as (Ek & _).
    exact Ek. }
  split; [exact E|]. split; [exact A|]. split; [exact B|].
  split; [exact V|].
  split.
  { intros Hsmall. rewrite V. apply Z.mod_small. lia. }
  split.
  { intros inc Hinc.
    rewrite increment_counter_t0, increment_counter_t1.
    split; [reflexivity|]. split; [reflexivity|].
    apply carry_test; assumption. }
  split; [exact E'|]. split; [exact V'|].
  split.
  { intros inp. unfold tinyblake_blake2b_update.
    assert (Hg : (128 <? buflen St)%nat = false)
      by (apply Nat.ltb_ge; apply WS).
    rewrite Hg. reflexivity. }
  split.
  { rewrite (final_unfold get_compress St o (outlen S0) WS).
    assert (Hg : (outlen S0 <? outlen St)%nat = false)
      by (apply Nat.ltb_ge; rewrite OS; lia).
    rewrite Hg, OS.
    rewrite carry_test; [reflexivity|exact A|].
    destruct WS as [_ HL]. unfold in_u64, two64. lia. }
  split; [exact Et|].
  split; [exact Ht|]. rewrite Ht. exact Vt.
Qed.

End Dispatch.

(** The keyed flow at a concrete input: after init_key with a 3-byte key
    and an update with one byte, the key block has been compressed and
    the byte waits in the buffer; the counter and the tally are 128. *)
Lemma keyed_counter_after_one_byte :
  let S0 := keyed_state 64 (ascii_bytes "key") 3 in
  let St := snd (tinyblake_blake2b_update compress_tally S0
                   (Some (ascii_bytes "x")) 1) in
  tinyblake_blake2b_init_key compress_tally zero_state 64
    (Some (ascii_bytes "key")) 3 = (0, S0) /\
  counter_value S0 = 0 /\ buflen S0 = 128%nat /\
  fst (tinyblake_blake2b_update compress_tally S0 (Some (ascii_bytes "x")) 1)
  = 0 /\
  counter_value St = 128 /\ buflen St = 1%nat /\
  w (h St) 0 - w (h S0) 0 = 128.
Proof. vm_compute. repeat split. Qed.

Lemma counter_counts_compressed_bytes_witness :
  (tinyblake_blake2b_init zero_state 64
   = (0, keyed_state 64 (ascii_bytes "key") 3) \/
   tinyblake_blake2b_init_param zero_state None
   = (0, keyed_state 64 (ascii_bytes "key") 3) \/
   tinyblake_blake2b_init_key blake2b_compress_portable zero_state 64
     (Some (ascii_bytes "key")) 3
   = (0, keyed_state 64 (ascii_bytes "key") 3)) /\
  exists St : tinyblake_blake2b_state,
    update_chunks blake2b_compress_portable
      (keyed_state 64 (ascii_bytes "key") 3)
      [ascii_bytes "x"; zeros 157] = (0, St) /\
    counter_value St
    = (Z.of_nat (buflen (keyed_state 64 (ascii_bytes "key") 3))
       + Z.of_nat (length (concat [ascii_bytes "x"; zeros 157]))
       - Z.of_nat (buflen St)) mod 2 ^ 128.
Proof.
  assert (H : tinyblake_blake2b_init zero_state 64
              = (0, keyed_state 64 (ascii_bytes "key") 3) \/
              tinyblake_blake2b_init_param zero_state None
              = (0, keyed_state 64 (ascii_bytes "key") 3) \/
              tinyblake_blake2b_init_key blake2b_compress_portable zero_state 64
                (Some (ascii_bytes "key")) 3
              = (0, keyed_state 64 (ascii_bytes "key") 3)).
  { right. right. vm_compute. reflexivity. }
  split; [exact H|].
  destruct (counter_counts_compressed_bytes blake2b_compress_portable
              zero_state (keyed_state 64 (ascii_bytes "key") 3) 64 None
              (Some (ascii_bytes "key")) 3
              [ascii_bytes "x"; zeros 157] [] (zeros 64) H)
    as (St & _ & _ & _ & _ & _ & E & _ & _ & V & _).
  exists St. split; [exact E|exact V].
Defined.

End ApiBoundaryClaims.
